(** * PageRank (CS50AI): a shallow embedding of [pagerank.py]

    The Python program is embedded function by function.  Numbers that
    Python computes with [float] are rationals ([Q]) here, so every
    statement below is a statement of exact arithmetic; Python's [int]
    is [Z].  A [dict] is a [gmap] keyed by page names, a [set] of pages
    is a [gset].  A [gmap] lists its keys in an order of its own, where
    Python keeps the order of insertion; no statement below depends on
    which order it is.  Operations that raise in Python return in the
    [result] monad. *)

From Stdlib Require Import QArith Qabs Lqa Lia.
From stdpp Require Import gmap strings list fin_maps sorting pretty.

Local Open Scope Z_scope.

(** ** Exceptions and the error monad *)

Inductive exn : Type :=
  | KeyError
  | IndexError
  | ZeroDivisionError
  | ValueError.

Inductive result (A : Type) : Type :=
  | Ok (a : A)
  | Raise (e : exn).
Arguments Ok {A} a.
Arguments Raise {A} e.

#[global] Instance result_ret : MRet result := λ A a, Ok a.
#[global] Instance result_bind : MBind result := λ A B f m,
  match m with
  | Ok a => f a
  | Raise e => Raise e
  end.

(** ** Python primitives *)

Module Py.

(** [d[k]] on a dict. *)
Definition getitem {V : Type} (d : gmap string V) (k : string) : result V :=
  match d !! k with
  | Some v => Ok v
  | None => Raise KeyError
  end.

(** [a / b], true division. *)
Definition truediv (a b : Q) : result Q :=
  if Qeq_dec b 0 then Raise ZeroDivisionError else Ok (a / b)%Q.

(** [len(d)] on a dict and on a set. *)
Definition len {V : Type} (d : gmap string V) : Z := Z.of_nat (size d).
Definition len_set (s : gset string) : Z := Z.of_nat (size s).

(** The order in which [for k in d] visits the keys of [d]. *)
Definition keys {V : Type} (d : gmap string V) : list string :=
  (map_to_list d).*1.

(** [list(d.values())], in the order of [keys]. *)
Definition values {V : Type} (d : gmap string V) : list V :=
  (map_to_list d).*2.

(** [for x in xs: body], threading the variables the body assigns. *)
Fixpoint for_in {X S : Type} (xs : list X) (body : X → S → result S) (s : S)
  : result S :=
  match xs with
  | [] => Ok s
  | x :: xs' => s' ← body x s; for_in xs' body s'
  end.

(** [sum(xs)]: starts from 0 and adds from the left. *)
Definition sum (xs : list Q) : Q := foldl Qplus 0%Q xs.

(** [range(lo, hi)]. *)
Definition range (lo hi : Z) : list Z :=
  (λ k : nat, lo + Z.of_nat k) <$> seq 0 (Z.to_nat (hi - lo)).

(** [s.endswith(suffix)]. *)
Definition endswith (s suffix : string) : bool :=
  let n := String.length s in
  let m := String.length suffix in
  if decide (m ≤ n)%nat then String.eqb (String.substring (n - m) m s) suffix
  else false.

End Py.

Notation "a /! b" := (Py.truediv a b) (at level 40, left associativity).

(** The table [{k: g(k) for k in d}]. *)
Definition table_of {V W : Type} (g : string → W) (d : gmap string V)
    : gmap string W :=
  map_imap (λ k _, Some (g k)) d.

(** ** Sums

    [Qsum] and [Zsum] add up a list from the right; [Py.sum] agrees
    with [Qsum] up to equality of rationals. *)
Definition Qsum (xs : list Q) : Q := foldr Qplus 0%Q xs.
Definition Zsum (xs : list Z) : Z := foldr Z.add 0 xs.

(** ** [crawl]

    The directory is the list of its files, name and contents, in the
    order of [os.listdir].  [findall_href contents] stands for
    [re.findall(r"<a\s+(?:[^>]*?)href=...", contents)]: the regular
    expression engine is not embedded, the results below hold for any
    link extraction. *)

Section Crawl.

Variable findall_href : string → list string.

Definition crawl (directory : list (string * string))
  : result (gmap string (gset string)) :=
  (* Extract all links from HTML files *)
  pages ← Py.for_in directory
    (λ '(filename, contents) (pages : gmap string (gset string)),
       if negb (Py.endswith filename ".html") then Ok pages
       else
         let links := findall_href contents in
         Ok (<[filename := list_to_set links ∖ {[filename]}]> pages))
    ∅;
  (* Only include links to other pages in the corpus *)
  Py.for_in (Py.keys pages)
    (λ filename (pages : gmap string (gset string)),
       links ← Py.getitem pages filename;
       Ok (<[filename := filter (λ link, link ∈ dom pages) links]> pages))
    pages.

(** The body of the first loop of [crawl], when it does not raise. *)
Definition extract_step (pages : gmap string (gset string))
    (file : string * string) : gmap string (gset string) :=
  if negb (Py.endswith file.1 ".html") then pages
  else <[file.1 := list_to_set (findall_href file.2) ∖ {[file.1]}]> pages.

(** The body of the second loop of [crawl], when it does not raise. *)
Definition prune_step (pages : gmap string (gset string))
    (filename : string) : gmap string (gset string) :=
  match pages !! filename with
  | Some links => <[filename := filter (λ link, link ∈ dom pages) links]> pages
  | None => pages
  end.

End Crawl.

(** The two invariants of a graph: no page links to itself, and every
    link leads to a page of the corpus. *)
Definition no_self_loops (pages : gmap string (gset string)) : Prop :=
  map_Forall (λ page links, page ∉ links) pages.

Definition links_closed (pages : gmap string (gset string)) : Prop :=
  map_Forall (λ _ links, links ⊆ dom pages) pages.

#[global] Instance no_self_loops_dec (pages : gmap string (gset string)) :
  Decision (no_self_loops pages).
Proof. unfold no_self_loops. apply _. Defined.

#[global] Instance links_closed_dec (pages : gmap string (gset string)) :
  Decision (links_closed pages).
Proof. unfold links_closed. apply _. Defined.

(** ** [transition_model] *)

Definition transition_model (corpus : gmap string (gset string)) (page : string)
    (damping_factor : Q) : result (gmap string Q) :=
  links ← Py.getitem corpus page;
  let N := Py.len corpus in
  let num_links := Py.len_set links in
  if decide (num_links = 0) then
    Py.for_in (Py.keys corpus)
      (λ key probability_distribution,
         v ← 1%Q /! inject_Z N;
         Ok (<[key := v]> probability_distribution))
      ∅
  else
    Py.for_in (Py.keys corpus)
      (λ key probability_distribution,
         v ← (1 - damping_factor)%Q /! inject_Z N;
         let probability_distribution := <[key := v]> probability_distribution in
         if decide (key ∈ links) then
           old ← Py.getitem probability_distribution key;
           extra ← damping_factor /! inject_Z num_links;
           Ok (<[key := (old + extra)%Q]> probability_distribution)
         else Ok probability_distribution)
      ∅.

(** ** The [random] module

    The random source is made explicit.  [choice] receives the index
    that [_randbelow(len(seq))] produced, [choices1] the number that
    [random()] produced; the rest follows CPython's [random.py] and
    [bisect.py]. *)

Module Random.

(** [seq[i]] on a list. *)
Definition item {A : Type} (seq : list A) (i : nat) : result A :=
  match seq !! i with
  | Some x => Ok x
  | None => Raise IndexError
  end.

(** [random.choice(seq)]. *)
Definition choice {A : Type} (randbelow : nat) (seq : list A) : result A :=
  item seq randbelow.

(** [itertools.accumulate(ws)]. *)
Fixpoint accumulate_from (total : Q) (ws : list Q) : list Q :=
  match ws with
  | [] => []
  | w :: ws' => (total + w)%Q :: accumulate_from (total + w)%Q ws'
  end.

Definition accumulate (ws : list Q) : list Q :=
  match ws with
  | [] => []
  | w :: ws' => w :: accumulate_from w ws'
  end.

(** [bisect.bisect_right(a, x, lo, hi)]: each turn of the loop
    shrinks [hi - lo], which is the fuel. *)
Fixpoint bisect_loop (fuel : nat) (a : list Q) (x : Q) (lo hi : nat)
  : result nat :=
  match fuel with
  | O => Ok lo
  | S fuel' =>
      if decide (lo < hi)%nat then
        let mid := ((lo + hi) `div` 2)%nat in
        a_mid ← item a mid;
        if Qlt_le_dec x a_mid then bisect_loop fuel' a x lo mid
        else bisect_loop fuel' a x (mid + 1)%nat hi
      else Ok lo
  end.

Definition bisect (a : list Q) (x : Q) (lo hi : nat) : result nat :=
  bisect_loop (hi - lo) a x lo hi.

(** [random.choices(population, weights=weights, k=1)[0]]. *)
Definition choices1 {A : Type} (random : Q) (population : list A)
    (weights : list Q) : result A :=
  let n := length population in
  let cum_weights := accumulate weights in
  if decide (length cum_weights ≠ n) then Raise ValueError
  else
    total ← item cum_weights (length cum_weights - 1);
    if Qlt_le_dec 0 total then
      let hi := (n - 1)%nat in
      i ← bisect cum_weights (random * total)%Q 0 hi;
      item population i
    else Raise ValueError.

End Random.

(** ** [sample_pagerank]

    [randbelow] is the index drawn for the start page and [random i]
    the number drawn in turn [i] of the sampling loop. *)

Definition sample_pagerank (randbelow : nat) (random : Z → Q)
    (corpus : gmap string (gset string)) (damping_factor : Q) (n : Z)
    : result (gmap string Q) :=
  visit_counts ← Py.for_in (Py.keys corpus)
    (λ page (visit_counts : gmap string Z), Ok (<[page := 0]> visit_counts)) ∅;
  (* Choose a random page *)
  random_page ← Random.choice randbelow (Py.keys corpus);
  count ← Py.getitem visit_counts random_page;
  let visit_counts := <[random_page := count + 1]> visit_counts in
  '(random_page, visit_counts) ← Py.for_in (Py.range 1 n)
    (λ i '(random_page, visit_counts),
       probability_distribution ←
         transition_model corpus random_page damping_factor;
       random_page ← Random.choices1 (random i)
         (Py.keys probability_distribution)
         (Py.values probability_distribution);
       count ← Py.getitem visit_counts random_page;
       Ok (random_page, <[random_page := count + 1]> visit_counts))
    (random_page, visit_counts);
  Py.for_in (Py.keys corpus)
    (λ page (page_ranks : gmap string Q),
       count ← Py.getitem visit_counts page;
       v ← inject_Z count /! inject_Z n;
       Ok (<[page := v]> page_ranks))
    ∅.

(** ** [iterate_pagerank] *)

(** The convergence threshold [0.001]. *)
Definition threshold : Q := 1 # 1000.

(** One turn of the [while] loop up to the test: the new ranks and the
    accumulated [difference]. *)
Definition update_round (corpus : gmap string (gset string))
    (damping_factor : Q) (N : Z) (page_ranks : gmap string Q)
    : result (gmap string Q * Q) :=
  Py.for_in (Py.keys corpus)
    (λ page '(new_page_ranks, difference),
       sum_prob ← Py.for_in (Py.keys corpus)
         (λ p (sum_prob : Q),
            links ← Py.getitem corpus p;
            if decide (page ∈ links) then
              rank ← Py.getitem page_ranks p;
              share ← rank /! inject_Z (Py.len_set links);
              Ok (sum_prob + share)%Q
            else Ok sum_prob)
         0%Q;
       base ← (1 - damping_factor)%Q /! inject_Z N;
       let new_page_ranks :=
         <[page := (base + damping_factor * sum_prob)%Q]> new_page_ranks in
       new_rank ← Py.getitem new_page_ranks page;
       old_rank ← Py.getitem page_ranks page;
       Ok (new_page_ranks, (difference + Qabs (new_rank - old_rank))%Q))
    (∅, 0%Q).

(** The [while True] loop.  [None] means that the fuel ran out before
    the loop reached its [break]. *)
Fixpoint iterate_loop (fuel : nat) (corpus : gmap string (gset string))
    (damping_factor : Q) (N : Z) (page_ranks : gmap string Q)
    : option (result (gmap string Q)) :=
  match fuel with
  | O => None
  | S fuel' =>
      match update_round corpus damping_factor N page_ranks with
      | Raise e => Some (Raise e)
      | Ok (new_page_ranks, difference) =>
          if Qlt_le_dec threshold difference
          then iterate_loop fuel' corpus damping_factor N new_page_ranks
          else Some (Ok page_ranks)
      end
  end.

(** The initial table [{page: 1 / N for page in corpus}]. *)
Definition initial_ranks (corpus : gmap string (gset string)) (N : Z)
    : result (gmap string Q) :=
  Py.for_in (Py.keys corpus)
    (λ page (page_ranks : gmap string Q),
       v ← 1%Q /! inject_Z N;
       Ok (<[page := v]> page_ranks))
    ∅.

(** The last two statements: normalize the ranks so they sum to 1. *)
Definition normalize (page_ranks : gmap string Q) : result (gmap string Q) :=
  let total_page_ranks := Py.sum (Py.values page_ranks) in
  Py.for_in (map_to_list page_ranks)
    (λ '(page, rank) (out : gmap string Q),
       v ← rank /! total_page_ranks;
       Ok (<[page := v]> out))
    ∅.

(** The ranks on which the loop stops, before they are normalized. *)
Definition iterate_until_convergence (fuel : nat)
    (corpus : gmap string (gset string)) (damping_factor : Q)
    : option (result (gmap string Q)) :=
  let N := Py.len corpus in
  match initial_ranks corpus N with
  | Raise e => Some (Raise e)
  | Ok page_ranks => iterate_loop fuel corpus damping_factor N page_ranks
  end.

Definition iterate_pagerank (fuel : nat) (corpus : gmap string (gset string))
    (damping_factor : Q) : option (result (gmap string Q)) :=
  match iterate_until_convergence fuel corpus damping_factor with
  | None => None
  | Some (Raise e) => Some (Raise e)
  | Some (Ok page_ranks) => Some (normalize page_ranks)
  end.

(** ** One round of [iterate_pagerank], when nothing raises

    [rank_of] and [links_of] read a table where the key is known to be
    present. The folds below are the loops of [update_round] with their
    lookups and divisions resolved. *)

Definition rank_of (page_ranks : gmap string Q) (page : string) : Q :=
  default 0%Q (page_ranks !! page).

Definition links_of (corpus : gmap string (gset string)) (page : string)
    : gset string :=
  default ∅ (corpus !! page).

Definition sum_prob_of (corpus : gmap string (gset string))
    (page_ranks : gmap string Q) (page : string) : Q :=
  foldl
    (λ sum_prob p,
       if decide (page ∈ links_of corpus p)
       then (sum_prob
             + rank_of page_ranks p / inject_Z (Py.len_set (links_of corpus p)))%Q
       else sum_prob)
    0%Q (Py.keys corpus).

Definition new_rank (corpus : gmap string (gset string)) (damping_factor : Q)
    (page_ranks : gmap string Q) (page : string) : Q :=
  ((1 - damping_factor) / inject_Z (Py.len corpus)
   + damping_factor * sum_prob_of corpus page_ranks page)%Q.

Definition next_ranks (corpus : gmap string (gset string)) (damping_factor : Q)
    (page_ranks : gmap string Q) : gmap string Q :=
  table_of (new_rank corpus damping_factor page_ranks) corpus.

Definition difference_of (corpus : gmap string (gset string))
    (damping_factor : Q) (page_ranks : gmap string Q) : Q :=
  foldl
    (λ difference page,
       (difference
        + Qabs (new_rank corpus damping_factor page_ranks page
                - rank_of page_ranks page))%Q)
    0%Q (Py.keys corpus).

(** The ranks after [k] updates of the initial table. *)
Definition ranks_after (corpus : gmap string (gset string)) (damping_factor : Q)
    (k : nat) : gmap string Q :=
  Nat.iter k (next_ranks corpus damping_factor)
    (table_of (λ _, (1 / inject_Z (Py.len corpus))%Q) corpus).

(** The update of the rank of [p] as the specification writes it:
    [(1 - d)/N + d * sum of rank(q)/|corpus[q]|] over every [q] with
    [p] in [corpus[q]]. *)
Definition round_formula (corpus : gmap string (gset string)) (d : Q)
    (rank : gmap string Q) (p : string) : Q :=
  ((1 - d) / inject_Z (Z.of_nat (size corpus))
   + d * Qsum ((λ q, rank_of rank q / inject_Z (Z.of_nat (size (links_of corpus q))))
                 <$> filter (λ q, p ∈ links_of corpus q) (Py.keys corpus)))%Q.

(** The share of the rank of [q] that goes to [p] in one round. *)
Definition share (corpus : gmap string (gset string)) (rank : string → Q)
    (p q : string) : Q :=
  if decide (p ∈ links_of corpus q)
  then (rank q / inject_Z (Py.len_set (links_of corpus q)))%Q
  else 0%Q.

(** The change of the rank of a page in the next round. *)
Definition change_of (corpus : gmap string (gset string)) (d : Q)
    (page_ranks : gmap string Q) (page : string) : Q :=
  (new_rank corpus d page_ranks page - rank_of page_ranks page)%Q.

(** Every rank of a table is positive. *)
Definition ranks_positive (page_ranks : gmap string Q) : Prop :=
  map_Forall (λ _ v, (0 < v)%Q) page_ranks.

(** ** The sampling loop, when nothing raises *)

(** The number of visits recorded in a table of counters. *)
Definition total_visits (visit_counts : gmap string Z) : Z :=
  Zsum (Py.values visit_counts).

(** What the sampling loop keeps true of its two variables: the
    current page is a page of the corpus, the table has one counter
    per page, and no counter is negative. *)
Definition sampling_inv (corpus : gmap string (gset string))
    (st : string * gmap string Z) : Prop :=
  is_Some (corpus !! st.1) ∧
  dom st.2 = dom corpus ∧
  ∀ page c, st.2 !! page = Some c → 0 ≤ c.

(** ** The walk of [sample_pagerank]

    The sampler keeps counters only. [sample_walk] is its start and its
    sampling loop with the table of counters replaced by the list of
    the values that [random_page] takes, in order: the start page, then
    the page of every weighted draw. [visits page walk] is the number
    of times the walk is at [page]. *)

Definition walk_turn (random : Z → Q) (corpus : gmap string (gset string))
    (damping_factor : Q) (i : Z) (st : string * list string)
    : result (string * list string) :=
  let '(random_page, walk) := st in
  probability_distribution ←
    transition_model corpus random_page damping_factor;
  random_page ← Random.choices1 (random i)
    (Py.keys probability_distribution)
    (Py.values probability_distribution);
  Ok (random_page, walk ++ [random_page]).

Definition sample_walk (randbelow : nat) (random : Z → Q)
    (corpus : gmap string (gset string)) (damping_factor : Q) (n : Z)
    : result (list string) :=
  random_page ← Random.choice randbelow (Py.keys corpus);
  '(_, walk) ← Py.for_in (Py.range 1 n)
    (walk_turn random corpus damping_factor) (random_page, [random_page]);
  Ok walk.

Definition visits (page : string) (walk : list string) : Z :=
  Z.of_nat (length (filter (λ p, p = page) walk)).

(** ** Test data *)

(** The corpus [{A: {B, C}, B: {}, C: {A}}]. *)
Definition corpus_example : gmap string (gset string) :=
  <["A" := {["B"; "C"]}]> (<["B" := ∅]> (<["C" := {["A"]}]> ∅)).

(** A chain of two pages, the second one dangling. *)
Definition corpus_chain : gmap string (gset string) :=
  <["A" := {["B"]}]> (<["B" := ∅]> ∅).

(** A link extraction for the examples of [crawl]. *)
Definition findall_words (contents : string) : list string :=
  if String.eqb contents "" then [] else ["1.html"; "2.html"; "x.html"].


(** No page of the corpus is dangling. *)
Definition no_dangling (corpus : gmap string (gset string)) : Prop :=
  map_Forall (λ _ links, links ≠ (∅ : gset string)) corpus.

#[global] Instance no_dangling_dec (corpus : gmap string (gset string)) :
  Decision (no_dangling corpus).
Proof. unfold no_dangling. apply _. Defined.

(** Every page of the corpus is dangling. *)
Definition all_dangling (corpus : gmap string (gset string)) : Prop :=
  map_Forall (λ _ links, links = (∅ : gset string)) corpus.

#[global] Instance all_dangling_dec (corpus : gmap string (gset string)) :
  Decision (all_dangling corpus).
Proof. unfold all_dangling. apply _. Defined.

(** A cycle of two pages. *)
Definition corpus_cycle : gmap string (gset string) :=
  <["A" := {["B"]}]> (<["B" := {["A"]}]> ∅).

(** Two pages without links. *)
Definition corpus_isolated : gmap string (gset string) :=
  <["A" := ∅]> (<["B" := ∅]> ∅).

(** [d] to the power [n]. *)
Definition Qpow (d : Q) (n : nat) : Q := Nat.iter n (Qmult d) 1%Q.


(** ** [main]

    [listdir directory] stands for reading the directory (the files
    that [os.listdir] and [open] give to [crawl]) and [format_4f x] for
    the text of [f"{x:.4f}"].  The outcome of a run is what was printed
    and how the run ended. *)

Definition DAMPING : Q := 17 # 20.
Definition SAMPLES : Z := 10000.

Inductive status : Type :=
  | Finished
  | SystemExit (message : string)
  | Uncaught (e : exn).

Record outcome : Type := Outcome {
  stdout : list string;
  status_of : status
}.

Section Main.

Variable findall_href : string → list string.
Variable listdir : string → list (string * string).
Variable format_4f : Q → string.

(** [sorted(d)]: the keys of a dict in ascending order. *)
Definition sorted {V : Type} (d : gmap string V) : list string :=
  merge_sort String.le (Py.keys d).

(** [for page in pages: print(f"  {page}: {ranks[page]:.4f}")], with
    the lines printed so far. *)
Fixpoint print_ranks (pages : list string) (ranks : gmap string Q)
    (out : list string) : list string * option exn :=
  match pages with
  | [] => (out, None)
  | page :: pages' =>
      match Py.getitem ranks page with
      | Raise e => (out, Some e)
      | Ok rank =>
          print_ranks pages' ranks
            (out ++ ["  " +:+ page +:+ ": " +:+ format_4f rank])
      end
  end.

Definition main (argv : list string) (randbelow : nat) (random : Z → Q)
    (fuel : nat) : option outcome :=
  match argv with
  | [_; directory] =>
      match crawl findall_href (listdir directory) with
      | Raise e => Some (Outcome [] (Uncaught e))
      | Ok corpus =>
          match sample_pagerank randbelow random corpus DAMPING SAMPLES with
          | Raise e => Some (Outcome [] (Uncaught e))
          | Ok ranks =>
              let out :=
                ["PageRank Results from Sampling (n = " +:+ pretty SAMPLES
                 +:+ ")"] in
              match print_ranks (sorted ranks) ranks out with
              | (out, Some e) => Some (Outcome out (Uncaught e))
              | (out, None) =>
                  match iterate_pagerank fuel corpus DAMPING with
                  | None => None
                  | Some (Raise e) => Some (Outcome out (Uncaught e))
                  | Some (Ok ranks) =>
                      let out := out ++ ["PageRank Results from Iteration"] in
                      match print_ranks (sorted ranks) ranks out with
                      | (out, Some e) => Some (Outcome out (Uncaught e))
                      | (out, None) => Some (Outcome out Finished)
                      end
                  end
              end
          end
      end
  | _ => Some (Outcome [] (SystemExit "Usage: python pagerank.py corpus"))
  end.

(** The line that [main] prints for a page. *)
Definition rank_line (ranks : gmap string Q) (page : string) : string :=
  "  " +:+ page +:+ ": " +:+ format_4f (rank_of ranks page).

End Main.


(** ** The two estimators side by side *)

(** The probability that [transition_model] gives to the step from
    [q] to [p]. *)
Definition transition_prob (corpus : gmap string (gset string)) (d : Q)
    (q p : string) : Q :=
  match transition_model corpus q d with
  | Ok dist => rank_of dist p
  | Raise _ => 0%Q
  end.

(** The rank that the dangling pages hold. *)
Definition dangling_mass (corpus : gmap string (gset string))
    (page_ranks : gmap string Q) : Q :=
  Qsum (rank_of page_ranks
          <$> filter (λ q, links_of corpus q = ∅) (Py.keys corpus)).

(** * Properties *)

(** ** The error monad and the primitives *)

Lemma truediv_ok (a b : Q) : ¬ (b == 0)%Q → a /! b = Ok (a / b)%Q.
Proof. intros Hb. unfold Py.truediv. destruct (Qeq_dec b 0); [contradiction | done]. Qed.

Lemma truediv_zero (a b : Q) : (b == 0)%Q → a /! b = Raise ZeroDivisionError.
Proof. intros Hb. unfold Py.truediv. destruct (Qeq_dec b 0); [done | contradiction]. Qed.

Lemma inject_Z_nonzero (z : Z) : z ≠ 0 → ¬ (inject_Z z == 0)%Q.
Proof. unfold Qeq. simpl. lia. Qed.

Lemma getitem_Some {V : Type} (d : gmap string V) (k : string) (v : V) :
  d !! k = Some v → Py.getitem d k = Ok v.
Proof. intros H. unfold Py.getitem. by rewrite H. Qed.

Lemma getitem_None {V : Type} (d : gmap string V) (k : string) :
  d !! k = None → Py.getitem d k = Raise KeyError.
Proof. intros H. unfold Py.getitem. by rewrite H. Qed.

Lemma elem_of_keys {V : Type} (d : gmap string V) (k : string) :
  k ∈ Py.keys d ↔ is_Some (d !! k).
Proof.
  unfold Py.keys. rewrite list_elem_of_fmap. split.
  - intros [[k' v] [-> Hin]]. apply elem_of_map_to_list in Hin. eauto.
  - intros [v Hv]. exists (k, v). split; [done |]. by apply elem_of_map_to_list.
Qed.

Lemma keys_NoDup {V : Type} (d : gmap string V) : NoDup (Py.keys d).
Proof. apply NoDup_fst_map_to_list. Qed.

Lemma length_keys {V : Type} (d : gmap string V) : length (Py.keys d) = size d.
Proof. unfold Py.keys. by rewrite length_fmap, length_map_to_list. Qed.

Lemma length_values {V : Type} (d : gmap string V) : length (Py.values d) = size d.
Proof. unfold Py.values. by rewrite length_fmap, length_map_to_list. Qed.

(** A loop whose body never raises is a left fold; an invariant of the
    body is carried along. *)
Lemma for_in_foldl {X S : Type} (Inv : S → Prop) (step : S → X → S)
    (body : X → S → result S) (xs : list X) (s : S) :
  Inv s →
  (∀ x s, x ∈ xs → Inv s → body x s = Ok (step s x) ∧ Inv (step s x)) →
  Py.for_in xs body s = Ok (foldl step s xs) ∧ Inv (foldl step s xs).
Proof.
  revert s. induction xs as [|x xs IH]; intros s Hs Hbody; simpl.
  - done.
  - destruct (Hbody x s) as [-> Hs']; [left | done |]. simpl.
    apply IH; [done |]. intros y t Hy. apply Hbody. by right.
Qed.

Lemma for_in_foldl' {X S : Type} (step : S → X → S)
    (body : X → S → result S) (xs : list X) (s : S) :
  (∀ x s, x ∈ xs → body x s = Ok (step s x)) →
  Py.for_in xs body s = Ok (foldl step s xs).
Proof.
  intros Hbody.
  apply (for_in_foldl (λ _, True) step body xs s); [done |].
  intros x t Hx _. split; [by apply Hbody | done].
Qed.

(** A loop that stores [g k] under every [k] it visits. *)
Lemma lookup_foldl_insert {W : Type} (g : string → W) (ks : list string)
    (d : gmap string W) (k : string) :
  foldl (λ acc k, <[k := g k]> acc) d ks !! k =
  if decide (k ∈ ks) then Some (g k) else d !! k.
Proof.
  revert d. induction ks as [|k' ks IH]; intros d.
  - cbn [foldl]. destruct (decide (k ∈ [])) as [Hin | _]; [|done].
    by apply elem_of_nil in Hin.
  - cbn [foldl]. rewrite IH.
    destruct (decide (k ∈ ks)) as [Hin | Hnin].
    + rewrite decide_True; [done | by right].
    + destruct (decide (k = k')) as [-> | Hne].
      * rewrite lookup_insert_eq. rewrite decide_True; [done | left].
      * rewrite lookup_insert_ne by done.
        rewrite decide_False; [done |]. rewrite elem_of_cons. by intros [? | ?].
Qed.

Lemma lookup_table_of {V W : Type} (g : string → W) (d : gmap string V) (k : string) :
  table_of g d !! k = (λ _, g k) <$> d !! k.
Proof. unfold table_of. rewrite map_lookup_imap. by destruct (d !! k). Qed.

Lemma dom_table_of {V W : Type} (g : string → W) (d : gmap string V) :
  dom (table_of g d) = dom d.
Proof.
  apply set_eq. intros k. rewrite !elem_of_dom, lookup_table_of.
  by rewrite fmap_is_Some.
Qed.

Lemma foldl_insert_keys {V W : Type} (g : string → W) (d : gmap string V) :
  foldl (λ acc k, <[k := g k]> acc) ∅ (Py.keys d) = table_of g d.
Proof.
  apply map_eq. intros k. rewrite lookup_foldl_insert, lookup_table_of.
  destruct (decide (k ∈ Py.keys d)) as [Hin | Hnin].
  - apply elem_of_keys in Hin as [v ->]. done.
  - rewrite lookup_empty. destruct (d !! k) eqn:E; [|done].
    exfalso. apply Hnin, elem_of_keys. eauto.
Qed.

(** A dict comprehension over the keys of [d] whose body never raises. *)
Lemma for_in_table {V W : Type} (g : string → W) (d : gmap string V)
    (body : string → gmap string W → result (gmap string W)) :
  (∀ k acc, k ∈ Py.keys d → body k acc = Ok (<[k := g k]> acc)) →
  Py.for_in (Py.keys d) body ∅ = Ok (table_of g d).
Proof.
  intros Hbody. rewrite <- foldl_insert_keys.
  by apply (for_in_foldl' (λ acc k, <[k := g k]> acc)).
Qed.

Lemma len_pos {V : Type} (d : gmap string V) (k : string) :
  is_Some (d !! k) → Py.len d ≠ 0.
Proof.
  intros [v Hv]. unfold Py.len.
  assert (size d ≠ 0%nat); [|lia].
  intros Hz. apply map_size_empty_iff in Hz. subst d. by rewrite lookup_empty in Hv.
Qed.

(** ** [transition_model] *)

Lemma transition_model_eq (corpus : gmap string (gset string)) (page : string)
    (d : Q) (links : gset string) :
  corpus !! page = Some links →
  transition_model corpus page d =
  Ok (table_of
        (λ key,
           if decide (size links = 0%nat) then (1 / inject_Z (Py.len corpus))%Q
           else if decide (key ∈ links)
                then ((1 - d) / inject_Z (Py.len corpus)
                      + d / inject_Z (Py.len_set links))%Q
                else ((1 - d) / inject_Z (Py.len corpus))%Q)
        corpus).
Proof.
  intros Hp. unfold transition_model. rewrite (getitem_Some _ _ _ Hp). simpl.
  assert (HN : ¬ (inject_Z (Py.len corpus) == 0)%Q).
  { apply inject_Z_nonzero. eapply len_pos. eauto. }
  unfold Py.len_set.
  destruct (decide (Z.of_nat (size links) = 0)) as [Hz | Hnz].
  - apply for_in_table. intros k acc _. cbv beta.
    rewrite truediv_ok by done. simpl.
    rewrite decide_True by lia. done.
  - apply for_in_table. intros k acc _. cbv beta.
    rewrite (truediv_ok _ (inject_Z (Py.len corpus))) by done. simpl.
    rewrite (decide_False (P := size links = 0%nat)) by lia.
    destruct (decide (k ∈ links)); [|done].
    rewrite (getitem_Some _ _ _ (lookup_insert_eq _ _ _)). simpl.
    rewrite truediv_ok by (apply inject_Z_nonzero; lia). simpl.
    by rewrite insert_insert_eq.
Qed.

(** C1: from a page [p] of the corpus with [k > 0] outgoing links,
    [transition_model] returns a table over exactly the pages of the
    corpus; a page in [corpus[p]] is mapped to [(1 - d)/N + d/k], every
    other page to [(1 - d)/N]. *)
Theorem transition_model_linked (corpus : gmap string (gset string))
    (p : string) (d : Q) (links : gset string) :
  corpus !! p = Some links →
  (0 < size links)%nat →
  let N := inject_Z (Z.of_nat (size corpus)) in
  let k := inject_Z (Z.of_nat (size links)) in
  ∃ dist : gmap string Q,
    transition_model corpus p d = Ok dist ∧
    dom dist = dom corpus ∧
    (∀ q, q ∈ dom corpus → q ∈ links →
          dist !! q = Some ((1 - d) / N + d / k)%Q) ∧
    (∀ q, q ∈ dom corpus → q ∉ links →
          dist !! q = Some ((1 - d) / N)%Q).
Proof.
  intros Hp Hk N k. eexists. split; [by apply transition_model_eq |].
  split; [apply dom_table_of |].
  split; intros q Hq Hl; apply elem_of_dom in Hq as [ls Hq];
    rewrite lookup_table_of, Hq; simpl;
    rewrite decide_False by lia.
  - by rewrite decide_True.
  - by rewrite decide_False.
Qed.

Lemma transition_model_linked_witness :
  ∃ dist : gmap string Q,
    transition_model corpus_example "A" (17 # 20) = Ok dist ∧
    dom dist = dom corpus_example ∧
    (∀ q, q ∈ dom corpus_example → q ∈ ({["B"; "C"]} : gset string) →
          dist !! q = Some ((1 - (17 # 20)) / inject_Z 3 + (17 # 20) / inject_Z 2)%Q) ∧
    (∀ q, q ∈ dom corpus_example → q ∉ ({["B"; "C"]} : gset string) →
          dist !! q = Some ((1 - (17 # 20)) / inject_Z 3)%Q).
Proof.
  assert (Hk : (0 < size ({["B"; "C"]} : gset string))%nat) by (vm_compute; lia).
  exact (transition_model_linked corpus_example "A" (17 # 20) {["B"; "C"]}
           eq_refl Hk).
Defined.

(** C2: from a dangling page of the corpus, [transition_model] maps
    every page of the corpus to [1/N], whatever the damping factor; on
    the corpus [{A: {B, C}, B: {}, C: {A}}] and page [B] the table is
    [{A: 1/3, B: 1/3, C: 1/3}]. *)
Theorem transition_model_dangling (corpus : gmap string (gset string))
    (p : string) (d : Q) :
  corpus !! p = Some ∅ →
  let N := inject_Z (Z.of_nat (size corpus)) in
  (∃ dist : gmap string Q,
     transition_model corpus p d = Ok dist ∧
     dom dist = dom corpus ∧
     ∀ q, q ∈ dom corpus → dist !! q = Some (1 / N)%Q) ∧
  transition_model corpus_example "B" (17 # 20) =
    Ok (<["A" := (1 / 3)%Q]> (<["B" := (1 / 3)%Q]> (<["C" := (1 / 3)%Q]> ∅))).
Proof.
  intros Hp N. split; [|vm_compute; reflexivity].
  eexists. split; [by apply transition_model_eq |].
  split; [apply dom_table_of |].
  intros q Hq. apply elem_of_dom in Hq as [ls Hq].
  rewrite lookup_table_of, Hq. simpl. by rewrite decide_True.
Qed.

Lemma transition_model_dangling_witness :
  (∃ dist : gmap string Q,
     transition_model corpus_example "B" (3 # 10) = Ok dist ∧
     dom dist = dom corpus_example ∧
     ∀ q, q ∈ dom corpus_example → dist !! q = Some (1 / inject_Z 3)%Q) ∧
  transition_model corpus_example "B" (17 # 20) =
    Ok (<["A" := (1 / 3)%Q]> (<["B" := (1 / 3)%Q]> (<["C" := (1 / 3)%Q]> ∅))).
Proof.
  exact (transition_model_dangling corpus_example "B" (3 # 10) eq_refl).
Defined.

(** ** [crawl] *)

Section CrawlProperties.

Variable findall_href : string → list string.

Lemma extract_no_self_loops (directory : list (string * string))
    (pages : gmap string (gset string)) :
  no_self_loops pages → no_self_loops (foldl (extract_step findall_href) pages directory).
Proof.
  revert pages. induction directory as [|[filename contents] directory IH];
    intros pages Hpages; simpl; [done |].
  apply IH. unfold extract_step. simpl.
  destruct (negb (Py.endswith filename ".html")); [done |].
  intros page links. destruct (decide (page = filename)) as [-> | Hne].
  - rewrite lookup_insert_eq. intros [= <-]. set_solver.
  - rewrite lookup_insert_ne by done. apply Hpages.
Qed.

Lemma prune_step_dom (pages : gmap string (gset string)) (filename : string) :
  dom (prune_step pages filename) = dom pages.
Proof.
  unfold prune_step. destruct (pages !! filename) as [links|] eqn:E; [|done].
  apply dom_insert_lookup_L. eauto.
Qed.

Lemma prune_step_lookup (pages : gmap string (gset string))
    (filename page : string) (links : gset string) :
  prune_step pages filename !! page = Some links →
  ∃ links0, pages !! page = Some links0 ∧ links ⊆ links0 ∧
            (page = filename → links ⊆ dom pages).
Proof.
  unfold prune_step. destruct (pages !! filename) as [old|] eqn:E.
  - destruct (decide (page = filename)) as [-> | Hne].
    + rewrite lookup_insert_eq. intros [= <-]. exists old.
      split; [done |]. split; [set_solver |].
      intros _ link Hlink. by apply elem_of_filter in Hlink as [? _].
    + rewrite lookup_insert_ne by done. intros Hl. exists links.
      split; [done |]. split; [done | by intros ?].
  - intros Hl. exists links. split; [done |]. split; [done |].
    intros ->. congruence.
Qed.

Lemma prune_foldl (filenames : list string) (pages : gmap string (gset string)) :
  dom (foldl prune_step pages filenames) = dom pages ∧
  ∀ page links,
    foldl prune_step pages filenames !! page = Some links →
    ∃ links0, pages !! page = Some links0 ∧ links ⊆ links0 ∧
              (page ∈ filenames → links ⊆ dom pages).
Proof.
  revert pages. induction filenames as [|filename filenames IH]; intros pages.
  - split; [done |]. intros page links Hl. exists links.
    split; [done |]. split; [done |]. intros Hin. by apply elem_of_nil in Hin.
  - cbn [foldl]. destruct (IH (prune_step pages filename)) as [Hdom Hlook].
    rewrite prune_step_dom in Hdom. split; [done |].
    intros page links Hl.
    destruct (Hlook page links Hl) as (links1 & Hl1 & Hsub1 & Hin1).
    rewrite prune_step_dom in Hin1.
    destruct (prune_step_lookup _ _ _ _ Hl1) as (links0 & Hl0 & Hsub0 & Hin0).
    exists links0. split; [done |]. split; [set_solver |].
    intros [-> | Hin]%elem_of_cons; [|by apply Hin1].
    etrans; [exact Hsub1 | by apply Hin0].
Qed.

(** The loops of [crawl] never raise. *)
Lemma crawl_eq (directory : list (string * string)) :
  crawl findall_href directory =
  Ok (let pages := foldl (extract_step findall_href) ∅ directory in
      foldl prune_step pages (Py.keys pages)).
Proof.
  unfold crawl.
  rewrite (for_in_foldl' (extract_step findall_href)); cycle 1.
  { intros [filename contents] pages _. unfold extract_step. simpl.
    by destruct (negb (Py.endswith filename ".html")). }
  simpl. set (pages0 := foldl (extract_step findall_href) ∅ directory).
  apply (for_in_foldl (λ pages, dom pages = dom pages0) prune_step); [done |].
  intros filename pages Hin Hdom.
  split; [|by rewrite prune_step_dom].
  apply elem_of_keys in Hin. apply elem_of_dom in Hin.
  rewrite <- Hdom in Hin. apply elem_of_dom in Hin as [links Hl].
  unfold prune_step. by rewrite (getitem_Some _ _ _ Hl), Hl.
Qed.

(** C9: whatever the directory holds, [crawl] returns a mapping:
    no page of it links to itself, and every link in it leads to a
    key of the mapping.  A link to a name that is not a key is left
    out of every link set and raises nothing. *)
Theorem crawl_graph_invariants (directory : list (string * string)) :
  ∃ pages : gmap string (gset string),
    crawl findall_href directory = Ok pages ∧
    no_self_loops pages ∧
    links_closed pages ∧
    ∀ link, link ∉ dom pages →
      ∀ page links, pages !! page = Some links → link ∉ links.
Proof.
  eexists. split; [apply crawl_eq |]. cbv zeta.
  set (pages0 := foldl (extract_step findall_href) ∅ directory).
  destruct (prune_foldl (Py.keys pages0) pages0) as [Hdom Hlook].
  assert (Hself : no_self_loops pages0).
  { apply extract_no_self_loops. intros page links. by rewrite lookup_empty. }
  assert (Hclosed : links_closed (foldl prune_step pages0 (Py.keys pages0))).
  { intros page links Hl. simpl. rewrite Hdom.
    destruct (Hlook page links Hl) as (links0 & Hl0 & _ & Hin).
    apply Hin, elem_of_keys. eauto. }
  split; [|split; [done |]].
  - intros page links Hl.
    destruct (Hlook page links Hl) as (links0 & Hl0 & Hsub & _).
    specialize (Hself page links0 Hl0). set_solver.
  - intros link Hlink page links Hl Hin. apply Hlink.
    by apply (Hclosed page links Hl).
Qed.

End CrawlProperties.

Example crawl_example :
  crawl findall_words [("1.html", "a"); ("2.html", ""); ("3.txt", "a")] =
  Ok (<["1.html" := {["2.html"]}]> (<["2.html" := ∅]> ∅)).
Proof. vm_compute. reflexivity. Qed.

(** ** Sums over lists and tables *)

Lemma foldl_Qplus (xs : list Q) (a : Q) : (foldl Qplus a xs == a + Qsum xs)%Q.
Proof.
  revert a. induction xs as [|x xs IH]; intros a; simpl.
  - lra.
  - rewrite IH. lra.
Qed.

Lemma sum_Qsum (xs : list Q) : (Py.sum xs == Qsum xs)%Q.
Proof. unfold Py.sum. rewrite foldl_Qplus. lra. Qed.

Lemma Qsum_perm (xs ys : list Q) : xs ≡ₚ ys → (Qsum xs == Qsum ys)%Q.
Proof.
  induction 1 as [|x xs ys _ IH|x y xs|xs ys zs _ IH1 _ IH2]; simpl.
  - lra.
  - rewrite IH. lra.
  - lra.
  - by rewrite IH1.
Qed.

Lemma Zsum_perm (xs ys : list Z) : xs ≡ₚ ys → Zsum xs = Zsum ys.
Proof.
  induction 1 as [|x xs ys _ IH|x y xs|xs ys zs _ IH1 _ IH2]; simpl; lia.
Qed.

Lemma Qsum_nonneg (xs : list Q) :
  (∀ x, x ∈ xs → (0 <= x)%Q) → (0 <= Qsum xs)%Q.
Proof.
  induction xs as [|x xs IH]; intros Hxs; simpl; [lra |].
  assert (0 <= x)%Q by (apply Hxs; left).
  assert (0 <= Qsum xs)%Q by (apply IH; intros y Hy; apply Hxs; by right).
  lra.
Qed.

Lemma Qsum_elem_le (xs : list Q) (x : Q) :
  (∀ y, y ∈ xs → (0 <= y)%Q) → x ∈ xs → (x <= Qsum xs)%Q.
Proof.
  induction xs as [|y xs IH]; intros Hxs Hx; [by apply elem_of_nil in Hx |].
  simpl.
  assert (0 <= y)%Q by (apply Hxs; left).
  assert (Hrest : ∀ z, z ∈ xs → (0 <= z)%Q) by (intros z Hz; apply Hxs; by right).
  pose proof (Qsum_nonneg xs Hrest).
  apply elem_of_cons in Hx as [-> | Hx]; [lra |].
  specialize (IH Hrest Hx). lra.
Qed.

Lemma Zsum_elem_le (xs : list Z) (x : Z) :
  (∀ y, y ∈ xs → 0 ≤ y) → x ∈ xs → 0 ≤ Zsum xs ∧ x ≤ Zsum xs.
Proof.
  induction xs as [|y xs IH]; intros Hxs Hx; [by apply elem_of_nil in Hx |].
  simpl.
  assert (0 ≤ y) by (apply Hxs; left).
  assert (Hrest : ∀ z, z ∈ xs → 0 ≤ z) by (intros z Hz; apply Hxs; by right).
  assert (0 ≤ Zsum xs).
  { clear -Hrest. induction xs as [|z xs IH]; simpl; [lia |].
    assert (0 ≤ z) by (apply Hrest; left).
    assert (0 ≤ Zsum xs) by (apply IH; intros w Hw; apply Hrest; by right). lia. }
  apply elem_of_cons in Hx as [-> | Hx]; [lia |].
  specialize (IH Hrest Hx). lia.
Qed.

Lemma inject_Z_succ (n : nat) :
  (inject_Z (Z.of_nat (S n)) == inject_Z (Z.of_nat n) + 1)%Q.
Proof. rewrite Nat2Z.inj_succ. unfold Z.succ. by rewrite inject_Z_plus. Qed.

(** A sum of a base term on every key and a bonus on the keys in [links]. *)
Lemma Qsum_base_bonus (a b : Q) (links : gset string) (ks : list string) :
  (Qsum ((λ k, if decide (k ∈ links) then a + b else a) <$> ks) ==
   inject_Z (Z.of_nat (length ks)) * a
   + inject_Z (Z.of_nat (length (filter (λ k, k ∈ links) ks))) * b)%Q.
Proof.
  induction ks as [|k ks IH].
  - simpl. change (inject_Z (Z.of_nat 0)) with 0%Q. lra.
  - cbn [fmap list_fmap Qsum foldr length]. fold (Qsum ((λ k, if decide (k ∈ links) then a + b else a)%Q <$> ks)).
    rewrite IH, inject_Z_succ.
    destruct (decide (k ∈ links)) as [Hin | Hnin].
    + rewrite filter_cons_True by done. cbn [length]. rewrite inject_Z_succ. lra.
    + rewrite filter_cons_False by done. lra.
Qed.

Lemma Qsum_const (a : Q) {X : Type} (ks : list X) :
  (Qsum ((λ _, a) <$> ks) == inject_Z (Z.of_nat (length ks)) * a)%Q.
Proof.
  induction ks as [|k ks IH].
  - simpl. change (inject_Z (Z.of_nat 0)) with 0%Q. lra.
  - cbn [fmap list_fmap Qsum foldr length]. fold (Qsum ((λ _, a) <$> ks)).
    rewrite IH, inject_Z_succ. lra.
Qed.

Lemma Qsum_scale (c : Q) (xs : list Q) :
  (Qsum ((λ x, x / c) <$> xs) == Qsum xs / c)%Q.
Proof.
  induction xs as [|x xs IH].
  - simpl. unfold Qdiv. ring.
  - cbn [fmap list_fmap Qsum foldr]. fold (Qsum ((λ x, x / c)%Q <$> xs)).
    rewrite IH. unfold Qsum, Qdiv. ring.
Qed.

Lemma Qsum_inject_Z (cs : list Z) :
  (Qsum (inject_Z <$> cs) == inject_Z (Zsum cs))%Q.
Proof.
  induction cs as [|c cs IH]; [reflexivity |].
  cbn [fmap list_fmap Qsum Zsum foldr]. fold (Qsum (inject_Z <$> cs)). fold (Zsum cs).
  rewrite IH, inject_Z_plus. reflexivity.
Qed.

(** The entries of a table built over the keys of [d]. *)
Lemma map_to_list_table_of {V W : Type} (g : string → W) (d : gmap string V) :
  map_to_list (table_of g d) ≡ₚ (λ k, (k, g k)) <$> Py.keys d.
Proof.
  unfold Py.keys, table_of.
  induction d as [|k v d Hk IH] using map_ind.
  - by rewrite map_imap_empty, !map_to_list_empty.
  - rewrite (map_imap_insert_Some _ _ _ _ (g k)) by done.
    rewrite map_to_list_insert by (by rewrite map_lookup_imap, Hk).
    rewrite (map_to_list_insert d) by done.
    rewrite IH. done.
Qed.

Lemma values_table_of {V W : Type} (g : string → W) (d : gmap string V) :
  Py.values (table_of g d) ≡ₚ g <$> Py.keys d.
Proof.
  unfold Py.values. rewrite map_to_list_table_of.
  rewrite <- list_fmap_compose. done.
Qed.

Lemma keys_table_of {V W : Type} (g : string → W) (d : gmap string V) :
  Py.keys (table_of g d) ≡ₚ Py.keys d.
Proof.
  unfold Py.keys at 1. rewrite map_to_list_table_of.
  rewrite <- list_fmap_compose. rewrite <- (list_fmap_id (Py.keys d)) at 2.
  done.
Qed.

(** In a graph, the keys that are in a link set are as many as the set. *)
Lemma length_filter_links (corpus : gmap string (gset string)) (links : gset string) :
  links ⊆ dom corpus →
  length (filter (λ k, k ∈ links) (Py.keys corpus)) = size links.
Proof.
  intros Hsub.
  rewrite <- (size_list_to_set (C := gset string)).
  - f_equal. apply set_eq. intros k.
    rewrite elem_of_list_to_set, list_elem_of_filter, elem_of_keys, <- elem_of_dom.
    set_solver.
  - apply NoDup_filter, keys_NoDup.
Qed.

(** The table of [transition_model] adds up to 1 when the links of the
    page lead to pages of the corpus. *)
Lemma transition_model_sum (corpus : gmap string (gset string)) (page : string)
    (d : Q) (links : gset string) (dist : gmap string Q) :
  corpus !! page = Some links →
  links ⊆ dom corpus →
  transition_model corpus page d = Ok dist →
  (Qsum (Py.values dist) == 1)%Q.
Proof.
  intros Hp Hsub. rewrite (transition_model_eq _ _ _ _ Hp). intros [= <-].
  rewrite (Qsum_perm _ _ (values_table_of _ _)).
  assert (HN : ¬ (inject_Z (Py.len corpus) == 0)%Q).
  { apply inject_Z_nonzero. eapply len_pos. eauto. }
  unfold Py.len in *.
  destruct (decide (size links = 0%nat)) as [Hz | Hnz].
  - rewrite (Qsum_const (1 / inject_Z (Z.of_nat (size corpus)))).
    rewrite length_keys. by field.
  - rewrite Qsum_base_bonus, length_keys, length_filter_links by done.
    unfold Py.len_set.
    assert (¬ (inject_Z (Z.of_nat (size links)) == 0)%Q).
    { apply inject_Z_nonzero. lia. }
    by field.
Qed.

(** ** The [random] module *)

Lemma item_lt {A : Type} (seq : list A) (i : nat) :
  (i < length seq)%nat → ∃ x, Random.item seq i = Ok x ∧ x ∈ seq.
Proof.
  intros Hi. destruct (lookup_lt_is_Some_2 seq i Hi) as [x Hx].
  exists x. unfold Random.item. rewrite Hx. split; [done |].
  by eapply list_elem_of_lookup_2.
Qed.

Lemma item_Some {A : Type} (seq : list A) (i : nat) (x : A) :
  seq !! i = Some x → Random.item seq i = Ok x.
Proof. intros H. unfold Random.item. by rewrite H. Qed.

Lemma item_ge {A : Type} (seq : list A) (i : nat) :
  (length seq ≤ i)%nat → Random.item seq i = Raise IndexError.
Proof.
  intros Hi. unfold Random.item. by rewrite (lookup_ge_None_2 seq i Hi).
Qed.

Lemma length_accumulate_from (t : Q) (ws : list Q) :
  length (Random.accumulate_from t ws) = length ws.
Proof. revert t. induction ws as [|w ws IH]; intros t; simpl; [done | by rewrite IH]. Qed.

Lemma length_accumulate (ws : list Q) : length (Random.accumulate ws) = length ws.
Proof. destruct ws; simpl; [done | by rewrite length_accumulate_from]. Qed.

Lemma accumulate_from_last (t : Q) (ws : list Q) :
  ws ≠ [] →
  ∃ v, Random.accumulate_from t ws !! (length ws - 1)%nat = Some v ∧
       (v == t + Qsum ws)%Q.
Proof.
  revert t. induction ws as [|w ws IH]; intros t Hne; [done |].
  destruct ws as [|w' ws].
  - exists (t + w)%Q. split; [done |]. simpl. lra.
  - destruct (IH (t + w)%Q) as (v & Hv & Heq); [done |].
    exists v. split.
    + cbn [length] in *. replace (S (S (length ws)) - 1)%nat
        with (S (S (length ws) - 1))%nat by lia. exact Hv.
    + rewrite Heq. cbn [Qsum foldr]. lra.
Qed.

Lemma accumulate_last (ws : list Q) :
  ws ≠ [] →
  ∃ v, Random.accumulate ws !! (length (Random.accumulate ws) - 1)%nat = Some v ∧
       (v == Qsum ws)%Q.
Proof.
  intros Hne. rewrite length_accumulate. destruct ws as [|w ws]; [done |].
  destruct ws as [|w' ws].
  - exists w. split; [done |]. simpl. lra.
  - destruct (accumulate_from_last w (w' :: ws)) as (v & Hv & Heq); [done |].
    exists v. split; [|by rewrite Heq].
    cbn [length] in *. replace (S (S (length ws)) - 1)%nat
      with (S (S (length ws) - 1))%nat by lia. exact Hv.
Qed.

Lemma bisect_mid (lo hi : nat) :
  (lo < hi)%nat → (lo ≤ (lo + hi) `div` 2 ∧ (lo + hi) `div` 2 < hi)%nat.
Proof.
  intros Hlt. split.
  - apply Nat.div_le_lower_bound; lia.
  - apply Nat.Div0.div_lt_upper_bound; lia.
Qed.

(** The binary search stays within [lo, hi] and within the list, on
    any list, sorted or not. *)
Lemma bisect_loop_range (fuel : nat) (a : list Q) (x : Q) (lo hi : nat) :
  (lo ≤ hi)%nat → (hi ≤ length a)%nat →
  ∃ i, Random.bisect_loop fuel a x lo hi = Ok i ∧ (lo ≤ i ≤ hi)%nat.
Proof.
  revert lo hi. induction fuel as [|fuel IH]; intros lo hi Hlo Hhi;
    cbn [Random.bisect_loop].
  - exists lo. split; [done | lia].
  - destruct (decide (lo < hi)%nat) as [Hlt | Hge]; [|exists lo; split; [done | lia]].
    pose proof (bisect_mid lo hi Hlt) as Hmid.
    destruct (item_lt a ((lo + hi) `div` 2)) as (a_mid & -> & _); [lia |].
    cbn [mbind result_bind]. destruct (Qlt_le_dec x a_mid).
    + destruct (IH lo ((lo + hi) `div` 2)%nat) as (i & -> & Hi); [lia | lia |].
      exists i. split; [done | lia].
    + destruct (IH ((lo + hi) `div` 2 + 1)%nat hi) as (i & -> & Hi); [lia | lia |].
      exists i. split; [done | lia].
Qed.

(** The fuel [hi - lo] is enough: the loop ends before it runs out. *)
Lemma bisect_loop_fuel (fuel1 fuel2 : nat) (a : list Q) (x : Q) (lo hi : nat) :
  (hi - lo ≤ fuel1)%nat → (hi - lo ≤ fuel2)%nat →
  Random.bisect_loop fuel1 a x lo hi = Random.bisect_loop fuel2 a x lo hi.
Proof.
  revert fuel2 lo hi. induction fuel1 as [|fuel1 IH]; intros fuel2 lo hi H1 H2.
  - destruct fuel2; cbn [Random.bisect_loop]; [done |].
    by rewrite decide_False by lia.
  - cbn [Random.bisect_loop].
    destruct (decide (lo < hi)%nat) as [Hlt | Hge].
    + destruct fuel2 as [|fuel2]; [lia |]. cbn [Random.bisect_loop].
      rewrite decide_True by done.
      pose proof (bisect_mid lo hi Hlt) as Hmid.
      destruct (Random.item a ((lo + hi) `div` 2)) as [a_mid|]; [|done].
      cbn [mbind result_bind]. destruct (Qlt_le_dec x a_mid); apply IH; lia.
    + destruct fuel2; cbn [Random.bisect_loop]; [done |].
      by rewrite decide_False by done.
Qed.

(** A weighted draw over a population with a positive total weight
    returns a member of the population. *)
Lemma choices1_ok {A : Type} (random : Q) (population : list A) (weights : list Q) :
  length weights = length population →
  population ≠ [] →
  (0 < Qsum weights)%Q →
  ∃ x, Random.choices1 random population weights = Ok x ∧ x ∈ population.
Proof.
  intros Hlen Hne Hpos. unfold Random.choices1.
  rewrite decide_False by (rewrite length_accumulate; lia).
  destruct (accumulate_last weights) as (total & Htotal & Heq).
  { intros ->. destruct population; [done | discriminate]. }
  rewrite (item_Some _ _ _ Htotal). cbn [mbind result_bind].
  destruct (Qlt_le_dec 0 total) as [_ | Hle]; [|lra].
  unfold Random.bisect.
  destruct (bisect_loop_range (length population - 1 - 0) (Random.accumulate weights)
              (random * total)%Q 0 (length population - 1)) as (i & -> & Hi).
  { lia. }
  { rewrite length_accumulate. lia. }
  cbn [mbind result_bind]. apply item_lt.
  destruct population; [done |]. cbn [length] in *. lia.
Qed.

(** A total weight that is not positive makes the draw raise. *)
Lemma choices1_ValueError {A : Type} (random : Q) (population : list A)
    (weights : list Q) :
  length weights = length population →
  population ≠ [] →
  (Qsum weights <= 0)%Q →
  Random.choices1 random population weights = Raise ValueError.
Proof.
  intros Hlen Hne Hpos. unfold Random.choices1.
  rewrite decide_False by (rewrite length_accumulate; lia).
  destruct (accumulate_last weights) as (total & Htotal & Heq).
  { intros ->. destruct population; [done | discriminate]. }
  rewrite (item_Some _ _ _ Htotal). cbn [mbind result_bind].
  destruct (Qlt_le_dec 0 total) as [Hlt | _]; [lra | done].
Qed.

(** ** [sample_pagerank] *)

(** The loop rule with a turn counter: an invariant [Inv] that holds
    at turn [0] and that every turn of the body carries to the next
    turn holds, after the loop, at turn [length xs]. *)
Lemma for_in_invariant {X S : Type} (Inv : nat → S → Prop)
    (body : X → S → result S) (xs : list X) (s : S) (n : nat) :
  Inv n s →
  (∀ x s n, x ∈ xs → Inv n s → ∃ s', body x s = Ok s' ∧ Inv (Datatypes.S n) s') →
  ∃ s', Py.for_in xs body s = Ok s' ∧ Inv (n + length xs)%nat s'.
Proof.
  revert s n. induction xs as [|x xs IH]; intros s n Hs Hbody; simpl.
  - exists s. split; [done |]. by rewrite Nat.add_0_r.
  - destruct (Hbody x s n) as (s1 & -> & Hs1); [left | done |]. simpl.
    destruct (IH s1 (Datatypes.S n)) as (s' & Hs' & Hinv); [done | |].
    { intros y t m Hy. apply Hbody. by right. }
    exists s'. split; [done |]. by rewrite <- Nat.add_succ_comm.
Qed.

Lemma length_range (lo hi : Z) : length (Py.range lo hi) = Z.to_nat (hi - lo).
Proof. unfold Py.range. by rewrite length_fmap, length_seq. Qed.

Lemma total_visits_insert (visit_counts : gmap string Z) (page : string) (c c' : Z) :
  visit_counts !! page = Some c →
  total_visits (<[page := c']> visit_counts) = total_visits visit_counts - c + c'.
Proof.
  intros Hc. unfold total_visits, Py.values.
  rewrite (Zsum_perm (map_to_list visit_counts).*2
             ((page, c) :: map_to_list (delete page visit_counts)).*2).
  2:{ apply fmap_Permutation. symmetry. by apply map_to_list_delete. }
  rewrite <- insert_delete_eq.
  rewrite (Zsum_perm (map_to_list (<[page:=c']> (delete page visit_counts))).*2
             ((page, c') :: map_to_list (delete page visit_counts)).*2).
  2:{ apply fmap_Permutation. apply map_to_list_insert, lookup_delete_eq. }
  simpl. lia.
Qed.

Lemma total_visits_zero {V : Type} (d : gmap string V) :
  total_visits (table_of (λ _, 0) d) = 0.
Proof.
  unfold total_visits. rewrite (Zsum_perm _ _ (values_table_of _ _)).
  induction (Py.keys d) as [|k ks IH]; [done |].
  cbn [fmap list_fmap Zsum foldr]. fold (Zsum ((λ _ : string, 0) <$> ks)).
  rewrite IH. done.
Qed.

Lemma elem_of_values {V : Type} (d : gmap string V) (v : V) :
  v ∈ Py.values d ↔ ∃ k, d !! k = Some v.
Proof.
  unfold Py.values. rewrite list_elem_of_fmap. split.
  - intros [[k v'] [-> Hin]]. exists k. by apply elem_of_map_to_list.
  - intros [k Hk]. exists (k, v). split; [done |]. by apply elem_of_map_to_list.
Qed.

(** Recording one more visit keeps the invariant. *)
Lemma sampling_inv_visit (corpus : gmap string (gset string))
    (page0 page : string) (visit_counts : gmap string Z) :
  sampling_inv corpus (page0, visit_counts) →
  is_Some (corpus !! page) →
  ∃ count,
    Py.getitem visit_counts page = Ok count ∧
    sampling_inv corpus (page, <[page := count + 1]> visit_counts) ∧
    total_visits (<[page := count + 1]> visit_counts) =
      total_visits visit_counts + 1.
Proof.
  intros (_ & Hdom & Hnonneg) Hpage. simpl in *.
  assert (Hin : is_Some (visit_counts !! page)).
  { apply elem_of_dom. rewrite Hdom. by apply elem_of_dom. }
  destruct Hin as [count Hcount]. exists count.
  split; [by apply getitem_Some |]. split.
  - split; [done |]. simpl. split.
    + rewrite dom_insert_lookup_L by eauto. done.
    + intros k c. destruct (decide (k = page)) as [-> | Hne].
      * rewrite lookup_insert_eq. intros [= <-].
        specialize (Hnonneg page count Hcount). lia.
      * rewrite lookup_insert_ne by done. apply Hnonneg.
  - rewrite (total_visits_insert _ _ count) by done. lia.
Qed.

Lemma table_of_lookup_total (f : Z → Q) (corpus : gmap string (gset string))
    (visit_counts : gmap string Z) :
  dom visit_counts = dom corpus →
  table_of (λ page, f (visit_counts !!! page)) corpus = f <$> visit_counts.
Proof.
  intros Hdom. apply map_eq. intros page.
  rewrite lookup_table_of, lookup_fmap, lookup_total_alt.
  destruct (visit_counts !! page) as [c|] eqn:Hc.
  - assert (Hin : is_Some (corpus !! page)).
    { apply elem_of_dom. rewrite <- Hdom. apply elem_of_dom. eauto. }
    destruct Hin as [links ->]. done.
  - apply not_elem_of_dom in Hc. rewrite Hdom in Hc.
    apply not_elem_of_dom in Hc. by rewrite Hc.
Qed.

Lemma values_fmap {V W : Type} (f : V → W) (d : gmap string V) :
  Py.values (f <$> d) = f <$> Py.values d.
Proof.
  unfold Py.values. rewrite map_to_list_fmap, <- !list_fmap_compose.
  apply list_fmap_ext. by intros _ [k v] _.
Qed.

Lemma Qdiv_unit_interval (c n : Z) :
  0 ≤ c → c ≤ n → 1 ≤ n →
  (0 <= inject_Z c / inject_Z n)%Q ∧ (inject_Z c / inject_Z n <= 1)%Q.
Proof.
  intros Hc Hcn Hn.
  assert (0 < inject_Z n)%Q by (unfold Qlt; simpl; lia).
  assert (0 <= inject_Z c)%Q by (unfold Qle; simpl; lia).
  assert (inject_Z c <= inject_Z n)%Q by (unfold Qle; simpl; lia).
  split.
  - apply Qle_shift_div_l; [done | lra].
  - apply Qle_shift_div_r; [done | lra].
Qed.

(** ** The estimators on malformed input *)

Lemma keys_empty {V : Type} : Py.keys (∅ : gmap string V) = [].
Proof. unfold Py.keys. by rewrite map_to_list_empty. Qed.

Lemma keys_nonempty {V : Type} (d : gmap string V) (i : nat) :
  (i < size d)%nat → ∃ k ks, Py.keys d = k :: ks.
Proof.
  rewrite <- length_keys. destruct (Py.keys d) as [|k ks]; simpl; [lia | eauto].
Qed.

Lemma table_of_ext {V W : Type} (g g' : string → W) (d : gmap string V) :
  (∀ k, is_Some (d !! k) → g k = g' k) → table_of g d = table_of g' d.
Proof.
  intros Hext. apply map_eq. intros k. rewrite !lookup_table_of.
  destruct (d !! k) eqn:E; [|done]. simpl. f_equal. apply Hext. eauto.
Qed.

Lemma iterate_pagerank_empty (fuel : nat) (d : Q) :
  iterate_pagerank (S fuel) ∅ d = Some (Ok ∅).
Proof.
  unfold iterate_pagerank, iterate_until_convergence, initial_ranks.
  rewrite keys_empty. cbn [Py.for_in iterate_loop].
  unfold update_round. rewrite keys_empty. cbn [Py.for_in].
  destruct (Qlt_le_dec threshold 0) as [Hlt | _]; [by vm_compute in Hlt |].
  unfold normalize. by rewrite map_to_list_empty.
Qed.

(** C7, as the code has it: on an empty corpus [sample_pagerank] raises
    the [IndexError] of [random.choice] on an empty sequence, before it
    counts a visit and whatever the other arguments are, and
    [iterate_pagerank] raises nothing: its loop stops in the first round
    and it returns the empty table. *)
Theorem empty_corpus_behaviour (randbelow : nat) (random : Z → Q) (d : Q)
    (n : Z) (fuel : nat) :
  sample_pagerank randbelow random ∅ d n = Raise IndexError ∧
  iterate_pagerank (S fuel) ∅ d = Some (Ok ∅).
Proof.
  split; [|apply iterate_pagerank_empty].
  unfold sample_pagerank. rewrite keys_empty. cbn [Py.for_in mbind result_bind].
  unfold Random.choice. by rewrite item_ge by (simpl; lia).
Qed.

(** C7 fails on the code: [iterate_pagerank] on the empty corpus
    returns the empty table, it raises no error. *)
Lemma iterate_pagerank_empty_no_error :
  iterate_pagerank 1 ∅ (17 # 20) = Some (Ok ∅) ∧
  ¬ ∃ e, iterate_pagerank 1 ∅ (17 # 20) = Some (Raise e).
Proof.
  split; [vm_compute; reflexivity |].
  intros [e He]. vm_compute in He. discriminate.
Qed.

(** C8, as the code has it: with a budget [n < 1] on a corpus with at
    least one page, the start page is drawn and counted and the sampling
    loop runs no turn; then [n = 0] raises [ZeroDivisionError] at the
    final division by [n], and [n < 0] raises nothing: the table
    returned maps the start page to [1 / n] and every other page to
    [0 / n]. *)
Theorem sample_pagerank_bad_budget (randbelow : nat) (random : Z → Q)
    (corpus : gmap string (gset string)) (d : Q) (n : Z) :
  (randbelow < size corpus)%nat →
  n < 1 →
  ∃ start,
    Py.keys corpus !! randbelow = Some start ∧
    Py.range 1 n = [] ∧
    sample_pagerank randbelow random corpus d n =
      if decide (n = 0) then Raise ZeroDivisionError
      else Ok (table_of
                 (λ page, if decide (page = start)
                          then (inject_Z 1 / inject_Z n)%Q
                          else (inject_Z 0 / inject_Z n)%Q)
                 corpus).
Proof.
  intros Hstart Hn.
  destruct (lookup_lt_is_Some_2 (Py.keys corpus) randbelow) as [start Hs].
  { by rewrite length_keys. }
  assert (Hrange : Py.range 1 n = []).
  { unfold Py.range. by replace (Z.to_nat (n - 1)) with 0%nat by lia. }
  exists start. split; [done |]. split; [done |].
  unfold sample_pagerank.
  rewrite (for_in_table (λ _, 0) corpus) by done. cbn [mbind result_bind].
  unfold Random.choice. rewrite (item_Some _ _ _ Hs). cbn [mbind result_bind].
  assert (Hin : is_Some (corpus !! start)).
  { apply elem_of_keys. by eapply list_elem_of_lookup_2. }
  destruct Hin as [links Hlinks].
  rewrite (getitem_Some _ start 0) by (by rewrite lookup_table_of, Hlinks).
  cbn [mbind result_bind]. rewrite Hrange. cbn [Py.for_in mbind result_bind].
  set (visit_counts := <[start := 0 + 1]> (table_of (λ _, 0) corpus)).
  assert (Hcount : ∀ page, is_Some (corpus !! page) →
            visit_counts !! page = Some (if decide (page = start) then 1 else 0)).
  { intros page [ls Hpage]. unfold visit_counts.
    destruct (decide (page = start)) as [-> | Hne].
    - by rewrite lookup_insert_eq.
    - by rewrite lookup_insert_ne, lookup_table_of, Hpage by done. }
  destruct (decide (n = 0)) as [-> | Hnz].
  - destruct (keys_nonempty corpus randbelow Hstart) as (k & ks & Hks).
    assert (Hk : is_Some (corpus !! k)).
    { apply elem_of_keys. rewrite Hks. left. }
    rewrite Hks. cbn [Py.for_in].
    rewrite (getitem_Some _ _ _ (Hcount k Hk)). cbn [mbind result_bind].
    by rewrite truediv_zero.
  - rewrite (for_in_table (λ page, (inject_Z (if decide (page = start) then 1 else 0)
                                    / inject_Z n)%Q)).
    + f_equal. apply table_of_ext. intros k _. by destruct (decide (k = start)).
    + intros page acc Hpage. apply elem_of_keys in Hpage.
      rewrite (getitem_Some _ _ _ (Hcount page Hpage)). cbn [mbind result_bind].
      rewrite truediv_ok by (apply inject_Z_nonzero; lia). done.
Qed.

Lemma sample_pagerank_bad_budget_witness :
  ∃ start,
    Py.keys corpus_example !! 0%nat = Some start ∧
    Py.range 1 (-1) = [] ∧
    sample_pagerank 0 (λ _, 0%Q) corpus_example (17 # 20) (-1) =
      Ok (table_of
            (λ page, if decide (page = start)
                     then (inject_Z 1 / inject_Z (-1))%Q
                     else (inject_Z 0 / inject_Z (-1))%Q)
            corpus_example).
Proof.
  assert (Hstart : (0 < size corpus_example)%nat) by (vm_compute; lia).
  assert (Hn : -1 < 1) by lia.
  exact (sample_pagerank_bad_budget 0 (λ _, 0%Q) corpus_example (17 # 20) (-1)
           Hstart Hn).
Defined.

(** C8 fails on the code: with [n = 0] the error is the
    [ZeroDivisionError] of the division by [n] that follows the loop,
    and with [n = -1] no error is raised at all. *)
Lemma sample_pagerank_budget_not_checked :
  sample_pagerank 0 (λ _, 0%Q) corpus_example (17 # 20) 0
    = Raise ZeroDivisionError ∧
  sample_pagerank 0 (λ _, 0%Q) corpus_example (17 # 20) (-1)
    = Ok (<["A" := 0%Q]> (<["B" := 0%Q]> (<["C" := (-1)%Q]> ∅))).
Proof. split; vm_compute; reflexivity. Qed.


(** ** [iterate_pagerank]: the loop *)

Lemma foldl_pair {X A B : Type} (f : A → X → A) (g : B → X → B)
    (xs : list X) (a : A) (b : B) :
  foldl (λ st x, (f st.1 x, g st.2 x)) (a, b) xs = (foldl f a xs, foldl g b xs).
Proof.
  revert a b. induction xs as [|x xs IH]; intros a b; simpl; [done | apply IH].
Qed.

Lemma rank_of_Some (page_ranks : gmap string Q) (page : string) (r : Q) :
  page_ranks !! page = Some r → rank_of page_ranks page = r.
Proof. intros H. unfold rank_of. by rewrite H. Qed.

Lemma links_of_Some (corpus : gmap string (gset string)) (page : string)
    (links : gset string) :
  corpus !! page = Some links → links_of corpus page = links.
Proof. intros H. unfold links_of. by rewrite H. Qed.

Lemma len_set_pos (links : gset string) (page : string) :
  page ∈ links → Py.len_set links ≠ 0.
Proof.
  intros Hin. unfold Py.len_set.
  assert (size links ≠ 0%nat); [|lia].
  intros Hz. apply size_empty_iff in Hz. set_solver.
Qed.

(** The inner loop of a round never raises. *)
Lemma sum_prob_eq (corpus : gmap string (gset string))
    (page_ranks : gmap string Q) (page : string) :
  dom page_ranks = dom corpus →
  Py.for_in (Py.keys corpus)
    (λ p (sum_prob : Q),
       links ← Py.getitem corpus p;
       if decide (page ∈ links) then
         rank ← Py.getitem page_ranks p;
         share ← rank /! inject_Z (Py.len_set links);
         Ok (sum_prob + share)%Q
       else Ok sum_prob)
    0%Q
  = Ok (sum_prob_of corpus page_ranks page).
Proof.
  intros Hdom. unfold sum_prob_of.
  apply (for_in_foldl'
    (λ sum_prob p,
       if decide (page ∈ links_of corpus p)
       then (sum_prob
             + rank_of page_ranks p / inject_Z (Py.len_set (links_of corpus p)))%Q
       else sum_prob)).
  intros p sum_prob Hp. apply elem_of_keys in Hp as Hp'.
  destruct Hp' as [links Hlinks].
  rewrite (getitem_Some _ _ _ Hlinks), (links_of_Some _ _ _ Hlinks).
  cbn [mbind result_bind].
  destruct (decide (page ∈ links)) as [Hin | Hnin]; [|done].
  assert (Hr : is_Some (page_ranks !! p)).
  { apply elem_of_dom. rewrite Hdom. apply elem_of_dom. eauto. }
  destruct Hr as [r Hr].
  rewrite (getitem_Some _ _ _ Hr), (rank_of_Some _ _ _ Hr).
  cbn [mbind result_bind].
  rewrite truediv_ok by (eapply inject_Z_nonzero, len_set_pos; done).
  done.
Qed.

(** A round of the loop never raises on a table with one rank per page. *)
Lemma update_round_eq (corpus : gmap string (gset string)) (d : Q)
    (page_ranks : gmap string Q) :
  dom page_ranks = dom corpus →
  update_round corpus d (Py.len corpus) page_ranks =
  Ok (next_ranks corpus d page_ranks, difference_of corpus d page_ranks).
Proof.
  intros Hdom. unfold update_round, next_ranks, difference_of.
  rewrite <- foldl_insert_keys.
  rewrite <- (foldl_pair
    (λ acc k, <[k := new_rank corpus d page_ranks k]> acc)
    (λ difference page,
       (difference
        + Qabs (new_rank corpus d page_ranks page - rank_of page_ranks page))%Q)).
  apply for_in_foldl'.
  intros page [new_page_ranks difference] Hpage.
  rewrite (sum_prob_eq corpus page_ranks page Hdom). cbn [mbind result_bind].
  apply elem_of_keys in Hpage.
  rewrite truediv_ok by (eapply inject_Z_nonzero, len_pos; done).
  cbn [mbind result_bind].
  rewrite (getitem_Some _ _ _ (lookup_insert_eq _ _ _)). cbn [mbind result_bind].
  assert (Hr : is_Some (page_ranks !! page)).
  { apply elem_of_dom. rewrite Hdom. by apply elem_of_dom. }
  destruct Hr as [r Hr].
  rewrite (getitem_Some _ _ _ Hr), (rank_of_Some _ _ _ Hr).
  done.
Qed.

Lemma dom_next_ranks (corpus : gmap string (gset string)) (d : Q)
    (page_ranks : gmap string Q) :
  dom (next_ranks corpus d page_ranks) = dom corpus.
Proof. apply dom_table_of. Qed.

Lemma dom_iter_next_ranks (corpus : gmap string (gset string)) (d : Q)
    (page_ranks : gmap string Q) (k : nat) :
  dom page_ranks = dom corpus →
  dom (Nat.iter k (next_ranks corpus d) page_ranks) = dom corpus.
Proof. intros Hdom. destruct k; simpl; [done | apply dom_next_ranks]. Qed.

Lemma iterate_loop_unfold (fuel : nat) (corpus : gmap string (gset string))
    (d : Q) (page_ranks : gmap string Q) :
  dom page_ranks = dom corpus →
  iterate_loop (S fuel) corpus d (Py.len corpus) page_ranks =
  if Qlt_le_dec threshold (difference_of corpus d page_ranks)
  then iterate_loop fuel corpus d (Py.len corpus) (next_ranks corpus d page_ranks)
  else Some (Ok page_ranks).
Proof. intros Hdom. cbn [iterate_loop]. by rewrite update_round_eq. Qed.

(** Where the loop stops: at the first table of the sequence whose
    round has a [difference] not above the threshold. *)
Lemma iterate_loop_stops (fuel : nat) (corpus : gmap string (gset string))
    (d : Q) (page_ranks : gmap string Q) (res : result (gmap string Q)) :
  dom page_ranks = dom corpus →
  iterate_loop fuel corpus d (Py.len corpus) page_ranks = Some res →
  ∃ k, (k < fuel)%nat ∧
       res = Ok (Nat.iter k (next_ranks corpus d) page_ranks) ∧
       (difference_of corpus d (Nat.iter k (next_ranks corpus d) page_ranks)
          <= threshold)%Q ∧
       ∀ j, (j < k)%nat →
         (threshold <
            difference_of corpus d (Nat.iter j (next_ranks corpus d) page_ranks))%Q.
Proof.
  revert page_ranks. induction fuel as [|fuel IH]; intros page_ranks Hdom; [done |].
  rewrite iterate_loop_unfold by done.
  destruct (Qlt_le_dec threshold (difference_of corpus d page_ranks)) as [Hgt | Hle].
  - intros Hloop. destruct (IH _ (dom_next_ranks corpus d page_ranks) Hloop)
      as (k & Hk & -> & Hstop & Hbefore).
    exists (S k). rewrite !Nat.iter_succ_r.
    split; [lia |]. split; [done |]. split; [done |].
    intros [|j] Hj; [done |]. rewrite Nat.iter_succ_r. apply Hbefore. lia.
  - intros [= <-]. exists 0%nat. split; [lia |]. split; [done |].
    split; [done |]. intros j Hj. lia.
Qed.

(** The loop stops as soon as the fuel covers the first such table. *)
Lemma iterate_loop_terminates (k : nat) (corpus : gmap string (gset string))
    (d : Q) (page_ranks : gmap string Q) :
  dom page_ranks = dom corpus →
  (difference_of corpus d (Nat.iter k (next_ranks corpus d) page_ranks)
     <= threshold)%Q →
  ∃ j, (j ≤ k)%nat ∧
       iterate_loop (S k) corpus d (Py.len corpus) page_ranks =
       Some (Ok (Nat.iter j (next_ranks corpus d) page_ranks)).
Proof.
  revert page_ranks. induction k as [|k IH]; intros page_ranks Hdom Hstop.
  - exists 0%nat. split; [done |]. rewrite iterate_loop_unfold by done.
    simpl in Hstop.
    destruct (Qlt_le_dec threshold (difference_of corpus d page_ranks)); [lra | done].
  - rewrite iterate_loop_unfold by done.
    destruct (Qlt_le_dec threshold (difference_of corpus d page_ranks)).
    + rewrite Nat.iter_succ_r in Hstop.
      destruct (IH _ (dom_next_ranks corpus d page_ranks) Hstop) as (j & Hj & ->).
      exists (S j). rewrite Nat.iter_succ_r. split; [lia | done].
    + exists 0%nat. split; [lia | done].
Qed.

Lemma initial_ranks_eq (corpus : gmap string (gset string)) :
  initial_ranks corpus (Py.len corpus) =
  Ok (table_of (λ _, (1 / inject_Z (Py.len corpus))%Q) corpus).
Proof.
  unfold initial_ranks. apply for_in_table. intros k acc Hk.
  apply elem_of_keys in Hk.
  by rewrite truediv_ok by (eapply inject_Z_nonzero, len_pos; done).
Qed.

Lemma dom_ranks_after (corpus : gmap string (gset string)) (d : Q) (k : nat) :
  dom (ranks_after corpus d k) = dom corpus.
Proof. apply dom_iter_next_ranks, dom_table_of. Qed.

Lemma iterate_until_convergence_stops (fuel : nat)
    (corpus : gmap string (gset string)) (d : Q) (res : result (gmap string Q)) :
  iterate_until_convergence fuel corpus d = Some res →
  ∃ k, (k < fuel)%nat ∧
       res = Ok (ranks_after corpus d k) ∧
       (difference_of corpus d (ranks_after corpus d k) <= threshold)%Q ∧
       ∀ j, (j < k)%nat →
         (threshold < difference_of corpus d (ranks_after corpus d j))%Q.
Proof.
  unfold iterate_until_convergence. rewrite initial_ranks_eq.
  apply iterate_loop_stops, dom_table_of.
Qed.

(** ** [iterate_pagerank]: what a round computes *)

Lemma foldl_add_Qsum {X : Type} (f : X → Q) (xs : list X) (a : Q) :
  (foldl (λ acc x, acc + f x) a xs == a + Qsum (f <$> xs))%Q.
Proof.
  revert a. induction xs as [|x xs IH]; intros a.
  - simpl. lra.
  - cbn [foldl fmap list_fmap Qsum foldr]. fold (Qsum (f <$> xs)).
    rewrite IH. lra.
Qed.

Lemma foldl_cond_Qsum {X : Type} (P : X → Prop) `{!∀ x, Decision (P x)}
    (f : X → Q) (xs : list X) (a : Q) :
  (foldl (λ acc x, if decide (P x) then acc + f x else acc) a xs
   == a + Qsum (f <$> filter P xs))%Q.
Proof.
  revert a. induction xs as [|x xs IH]; intros a.
  - simpl. lra.
  - cbn [foldl]. rewrite IH. destruct (decide (P x)) as [HP | HnP].
    + rewrite filter_cons_True by done.
      cbn [fmap list_fmap Qsum foldr]. fold (Qsum (f <$> filter P xs)). lra.
    + rewrite filter_cons_False by done. lra.
Qed.

Lemma difference_of_Qsum (corpus : gmap string (gset string)) (d : Q)
    (page_ranks : gmap string Q) :
  (difference_of corpus d page_ranks ==
   Qsum ((λ page, Qabs (new_rank corpus d page_ranks page
                        - rank_of page_ranks page)) <$> Py.keys corpus))%Q.
Proof.
  unfold difference_of.
  rewrite (foldl_add_Qsum
    (λ page, Qabs (new_rank corpus d page_ranks page - rank_of page_ranks page))).
  lra.
Qed.

(** No page changes by more than the accumulated [difference]. *)
Lemma change_le_difference (corpus : gmap string (gset string)) (d : Q)
    (page_ranks : gmap string Q) (page : string) :
  is_Some (corpus !! page) →
  (Qabs (new_rank corpus d page_ranks page - rank_of page_ranks page)
   <= difference_of corpus d page_ranks)%Q.
Proof.
  intros Hpage. rewrite difference_of_Qsum. apply Qsum_elem_le.
  - intros y [page' [-> _]]%list_elem_of_fmap. apply Qabs_nonneg.
  - apply list_elem_of_fmap. exists page. split; [done |]. by apply elem_of_keys.
Qed.

(** The code's update of a rank is the update of the specification. *)
Lemma new_rank_formula (corpus : gmap string (gset string)) (d : Q)
    (page_ranks : gmap string Q) (page : string) :
  (new_rank corpus d page_ranks page ==
   round_formula corpus d page_ranks page)%Q.
Proof.
  unfold new_rank, round_formula, sum_prob_of, Py.len, Py.len_set.
  rewrite (foldl_cond_Qsum (λ q, page ∈ links_of corpus q)
    (λ q, (rank_of page_ranks q
           / inject_Z (Z.of_nat (size (links_of corpus q))))%Q)).
  lra.
Qed.

(** C4: when [iterate_pagerank] has stopped on the ranks [ranks]
    (before it normalizes them), one more round of updates
    [new_rank(p) = (1 - d)/N + d * sum of rank(q)/|corpus[q]|] over
    every [q] with [p] in [corpus[q]] changes no rank by more than
    [0.001]. *)
Theorem iterate_pagerank_converged (fuel : nat)
    (corpus : gmap string (gset string)) (d : Q) (ranks : gmap string Q) :
  iterate_until_convergence fuel corpus d = Some (Ok ranks) →
  ∃ (new_ranks : gmap string Q) (difference : Q),
    update_round corpus d (Py.len corpus) ranks = Ok (new_ranks, difference) ∧
    dom ranks = dom corpus ∧
    ∀ page old,
      ranks !! page = Some old →
      ∃ new,
        new_ranks !! page = Some new ∧
        (new == round_formula corpus d ranks page)%Q ∧
        (Qabs (new - old) <= 1 # 1000)%Q.
Proof.
  intros Hrun.
  destruct (iterate_until_convergence_stops _ _ _ _ Hrun)
    as (k & _ & [= ->] & Hstop & _).
  pose proof (dom_ranks_after corpus d k) as Hdom.
  set (ranks := ranks_after corpus d k) in *.
  exists (next_ranks corpus d ranks), (difference_of corpus d ranks).
  split; [by apply update_round_eq |]. split; [done |].
  intros page old Hold.
  assert (Hpage : is_Some (corpus !! page)).
  { apply elem_of_dom. rewrite <- Hdom. apply elem_of_dom. eauto. }
  exists (new_rank corpus d ranks page). split.
  - unfold next_ranks. rewrite lookup_table_of.
    destruct Hpage as [links ->]. done.
  - split; [apply new_rank_formula |].
    pose proof (change_le_difference corpus d ranks page Hpage) as Hle.
    rewrite (rank_of_Some _ _ _ Hold) in Hle.
    unfold threshold in Hstop. lra.
Qed.

Lemma iterate_pagerank_converged_witness :
  ∃ ranks : gmap string Q,
    iterate_until_convergence 3 corpus_chain (17 # 20) = Some (Ok ranks) ∧
    ∃ (new_ranks : gmap string Q) (difference : Q),
      update_round corpus_chain (17 # 20) (Py.len corpus_chain) ranks
        = Ok (new_ranks, difference) ∧
      dom ranks = dom corpus_chain ∧
      ∀ page old,
        ranks !! page = Some old →
        ∃ new,
          new_ranks !! page = Some new ∧
          (new == round_formula corpus_chain (17 # 20) ranks page)%Q ∧
          (Qabs (new - old) <= 1 # 1000)%Q.
Proof.
  eexists. split.
  - vm_compute. reflexivity.
  - apply (iterate_pagerank_converged 3). vm_compute. reflexivity.
Defined.

(** A run that returns has normalized the table of the round in which
    the loop stopped. *)
Lemma iterate_pagerank_stops (fuel : nat) (corpus : gmap string (gset string))
    (d : Q) (result : gmap string Q) :
  iterate_pagerank fuel corpus d = Some (Ok result) →
  ∃ k, (k < fuel)%nat ∧
       (difference_of corpus d (ranks_after corpus d k) <= threshold)%Q ∧
       (∀ j, (j < k)%nat →
          (threshold < difference_of corpus d (ranks_after corpus d j))%Q) ∧
       normalize (ranks_after corpus d k) = Ok result.
Proof.
  unfold iterate_pagerank.
  destruct (iterate_until_convergence fuel corpus d) as [[page_ranks | e] |] eqn:Hrun;
    [|done..].
  intros [= Hnorm].
  destruct (iterate_until_convergence_stops _ _ _ _ Hrun)
    as (k & Hk & [= ->] & Hstop & Hbefore).
  by exists k.
Qed.

(** C10: when the loop of [iterate_pagerank] exits, in its round
    [k + 1], the table that is normalized and returned is [page_ranks]
    as it stood after [k] updates; the update [new_page_ranks] computed
    in the last round, whose [difference] is not above [0.001], is not
    used. *)
Theorem iterate_pagerank_returns_previous (fuel : nat)
    (corpus : gmap string (gset string)) (d : Q) (result : gmap string Q) :
  iterate_pagerank fuel corpus d = Some (Ok result) →
  ∃ (k : nat) (page_ranks new_page_ranks : gmap string Q) (difference : Q),
    (k < fuel)%nat ∧
    page_ranks = ranks_after corpus d k ∧
    (∀ j, (j < k)%nat →
       (threshold < difference_of corpus d (ranks_after corpus d j))%Q) ∧
    update_round corpus d (Py.len corpus) page_ranks
      = Ok (new_page_ranks, difference) ∧
    new_page_ranks = ranks_after corpus d (S k) ∧
    (difference <= threshold)%Q ∧
    normalize page_ranks = Ok result.
Proof.
  intros Hrun.
  destruct (iterate_pagerank_stops _ _ _ _ Hrun) as (k & Hk & Hstop & Hbefore & Hnorm).
  exists k, (ranks_after corpus d k), (ranks_after corpus d (S k)),
    (difference_of corpus d (ranks_after corpus d k)).
  split; [done |]. split; [done |]. split; [done |].
  split; [apply update_round_eq, dom_ranks_after |]. done.
Qed.

Lemma iterate_pagerank_returns_previous_witness :
  ∃ result : gmap string Q,
    iterate_pagerank 1 corpus_chain (1 # 1000) = Some (Ok result) ∧
    ∃ (k : nat) (page_ranks new_page_ranks : gmap string Q) (difference : Q),
      (k < 1)%nat ∧
      page_ranks = ranks_after corpus_chain (1 # 1000) k ∧
      (∀ j, (j < k)%nat →
         (threshold < difference_of corpus_chain (1 # 1000)
                        (ranks_after corpus_chain (1 # 1000) j))%Q) ∧
      update_round corpus_chain (1 # 1000) (Py.len corpus_chain) page_ranks
        = Ok (new_page_ranks, difference) ∧
      new_page_ranks = ranks_after corpus_chain (1 # 1000) (S k) ∧
      (difference <= threshold)%Q ∧
      normalize page_ranks = Ok result.
Proof.
  eexists. split.
  - vm_compute. reflexivity.
  - apply (iterate_pagerank_returns_previous 1). vm_compute. reflexivity.
Defined.

(** The discarded update matters: on the chain with damping 1/1000 the
    loop exits in its first round with a positive [difference]; the
    table returned gives [A] the rank 1/2, the normalized update would
    give it 999/1999. *)
Example iterate_pagerank_discards_update :
  ∃ result updated : gmap string Q,
    iterate_pagerank 1 corpus_chain (1 # 1000) = Some (Ok result) ∧
    normalize (ranks_after corpus_chain (1 # 1000) 1) = Ok updated ∧
    (0 < difference_of corpus_chain (1 # 1000)
           (ranks_after corpus_chain (1 # 1000) 0))%Q ∧
    (rank_of result "A" == 1 # 2)%Q ∧
    (rank_of updated "A" == 999 # 1999)%Q.
Proof.
  eexists. eexists. split; [vm_compute; reflexivity |].
  split; [vm_compute; reflexivity |].
  split; [|split]; by vm_compute.
Qed.

(** ** [iterate_pagerank]: the ranks stay positive *)

Lemma Qdiv_nonneg (a b : Q) : (0 <= a)%Q → (0 <= b)%Q → (0 <= a / b)%Q.
Proof.
  intros Ha Hb. unfold Qdiv. apply Qmult_le_0_compat; [done |].
  by apply Qinv_le_0_compat.
Qed.

Lemma inject_Z_of_nat_nonneg (n : nat) : (0 <= inject_Z (Z.of_nat n))%Q.
Proof. unfold Qle. simpl. lia. Qed.

Lemma inject_Z_of_nat_pos (n : nat) : (0 < n)%nat → (0 < inject_Z (Z.of_nat n))%Q.
Proof. intros Hn. unfold Qlt. simpl. lia. Qed.

Lemma rank_of_nonneg (page_ranks : gmap string Q) (page : string) :
  ranks_positive page_ranks → (0 <= rank_of page_ranks page)%Q.
Proof.
  intros Hpos. unfold rank_of.
  destruct (page_ranks !! page) as [v|] eqn:E; simpl; [|lra].
  specialize (Hpos page v E). simpl in Hpos. lra.
Qed.

Lemma sum_prob_nonneg (corpus : gmap string (gset string))
    (page_ranks : gmap string Q) (page : string) :
  ranks_positive page_ranks → (0 <= sum_prob_of corpus page_ranks page)%Q.
Proof.
  intros Hpos. unfold sum_prob_of.
  rewrite (foldl_cond_Qsum (λ q, page ∈ links_of corpus q)
    (λ q, (rank_of page_ranks q / inject_Z (Py.len_set (links_of corpus q)))%Q)).
  assert (0 <= Qsum ((λ q, (rank_of page_ranks q
                            / inject_Z (Py.len_set (links_of corpus q)))%Q)
                       <$> filter (λ q, page ∈ links_of corpus q) (Py.keys corpus)))%Q;
    [|lra].
  apply Qsum_nonneg. intros y [q [-> _]]%list_elem_of_fmap.
  apply Qdiv_nonneg; [by apply rank_of_nonneg | apply inject_Z_of_nat_nonneg].
Qed.

Lemma size_pos {V : Type} (d : gmap string V) (k : string) :
  is_Some (d !! k) → (0 < size d)%nat.
Proof. intros Hk. pose proof (len_pos d k Hk) as H. unfold Py.len in H. lia. Qed.

Lemma new_rank_pos (corpus : gmap string (gset string)) (d : Q)
    (page_ranks : gmap string Q) (page : string) :
  (0 < d)%Q → (d < 1)%Q →
  is_Some (corpus !! page) →
  ranks_positive page_ranks →
  (0 < new_rank corpus d page_ranks page)%Q.
Proof.
  intros Hd0 Hd1 Hpage Hpos. unfold new_rank.
  pose proof (sum_prob_nonneg corpus page_ranks page Hpos) as Hsum.
  assert (0 < (1 - d) / inject_Z (Py.len corpus))%Q.
  { apply Qlt_shift_div_l; [|lra].
    apply inject_Z_of_nat_pos. by eapply size_pos. }
  assert (0 <= d * sum_prob_of corpus page_ranks page)%Q.
  { apply Qmult_le_0_compat; lra. }
  lra.
Qed.

Lemma next_ranks_positive (corpus : gmap string (gset string)) (d : Q)
    (page_ranks : gmap string Q) :
  (0 < d)%Q → (d < 1)%Q →
  ranks_positive page_ranks →
  ranks_positive (next_ranks corpus d page_ranks).
Proof.
  intros Hd0 Hd1 Hpos page v. unfold next_ranks. rewrite lookup_table_of.
  destruct (corpus !! page) as [links|] eqn:E; [|done]. intros [= <-].
  apply new_rank_pos; eauto.
Qed.

Lemma ranks_after_positive (corpus : gmap string (gset string)) (d : Q) (k : nat) :
  (0 < d)%Q → (d < 1)%Q →
  ranks_positive (ranks_after corpus d k).
Proof.
  intros Hd0 Hd1. induction k as [|k IH].
  - intros page v. unfold ranks_after. simpl. rewrite lookup_table_of.
    destruct (corpus !! page) as [links|] eqn:E; [|done]. intros [= <-].
    apply Qlt_shift_div_l; [|lra].
    apply inject_Z_of_nat_pos. eapply size_pos. eauto.
  - unfold ranks_after. simpl. by apply next_ranks_positive.
Qed.

(** ** [iterate_pagerank]: normalization *)

Lemma lookup_foldl_insert_items {V W : Type} (f : V → W)
    (items : list (string * V)) (acc : gmap string W) :
  NoDup items.*1 →
  ∀ k,
    foldl (λ acc kv, <[kv.1 := f kv.2]> acc) acc items !! k =
    match list_to_map (M := gmap string V) items !! k with
    | Some v => Some (f v)
    | None => acc !! k
    end.
Proof.
  revert acc. induction items as [|[k0 v0] items IH]; intros acc Hnd k.
  - simpl. by rewrite lookup_empty.
  - apply NoDup_cons in Hnd as [Hk0 Hnd]. cbn [foldl list_to_map foldr].
    rewrite IH by done. simpl.
    destruct (decide (k = k0)) as [-> | Hne].
    + rewrite lookup_insert_eq.
      rewrite (not_elem_of_list_to_map_1 (M := gmap string) items k0 Hk0).
      by rewrite lookup_insert_eq.
    + rewrite !lookup_insert_ne by done. done.
Qed.

Lemma foldl_insert_items {V W : Type} (f : V → W) (d : gmap string V) :
  foldl (λ acc kv, <[kv.1 := f kv.2]> acc) ∅ (map_to_list d) = f <$> d.
Proof.
  apply map_eq. intros k.
  rewrite lookup_foldl_insert_items by apply NoDup_fst_map_to_list.
  rewrite list_to_map_to_list, lookup_fmap, lookup_empty.
  by destruct (d !! k).
Qed.

(** Normalization succeeds when the total is not zero. *)
Lemma normalize_ok (page_ranks : gmap string Q) :
  ¬ (Py.sum (Py.values page_ranks) == 0)%Q →
  normalize page_ranks =
  Ok ((λ rank, (rank / Py.sum (Py.values page_ranks))%Q) <$> page_ranks).
Proof.
  intros Htotal. unfold normalize.
  rewrite <- foldl_insert_items.
  apply for_in_foldl'. intros [page rank] acc _.
  by rewrite truediv_ok.
Qed.

(** A table with at least one rank, all positive, has a positive total. *)
Lemma total_positive (page_ranks : gmap string Q) (page : string) :
  ranks_positive page_ranks →
  is_Some (page_ranks !! page) →
  (0 < Py.sum (Py.values page_ranks))%Q ∧
  ∀ p v, page_ranks !! p = Some v → (v <= Py.sum (Py.values page_ranks))%Q.
Proof.
  intros Hpos [v0 Hv0].
  assert (Hnonneg : ∀ y, y ∈ Py.values page_ranks → (0 <= y)%Q).
  { intros y [k Hk]%elem_of_values. specialize (Hpos k y Hk). simpl in Hpos. lra. }
  assert (Hle : ∀ p v, page_ranks !! p = Some v →
                       (v <= Py.sum (Py.values page_ranks))%Q).
  { intros p v Hv. rewrite sum_Qsum. apply Qsum_elem_le; [done |].
    apply elem_of_values. eauto. }
  split; [|done].
  specialize (Hle page v0 Hv0). specialize (Hpos page v0 Hv0). simpl in Hpos. lra.
Qed.

(** X22: in exact arithmetic, for a corpus with at least one page and a
    damping factor in (0, 1), a table returned by [iterate_pagerank]
    has one entry per page of the corpus, every value lies in [0, 1],
    and the values add up to 1. Nothing is said here of the rounding of
    floating-point numbers. *)
Theorem iterate_pagerank_distribution (fuel : nat)
    (corpus : gmap string (gset string)) (d : Q) (result : gmap string Q) :
  (1 ≤ size corpus)%nat →
  (0 < d)%Q → (d < 1)%Q →
  iterate_pagerank fuel corpus d = Some (Ok result) →
  dom result = dom corpus ∧
  (∀ page v, result !! page = Some v → (0 <= v)%Q ∧ (v <= 1)%Q) ∧
  (Py.sum (Py.values result) == 1)%Q.
Proof.
  intros HN Hd0 Hd1 Hrun.
  destruct (iterate_pagerank_stops _ _ _ _ Hrun) as (k & _ & _ & _ & Hnorm).
  pose proof (ranks_after_positive corpus d k Hd0 Hd1) as Hpos.
  pose proof (dom_ranks_after corpus d k) as Hdom.
  set (page_ranks := ranks_after corpus d k) in *.
  assert (Hsome : ∃ page, is_Some (page_ranks !! page)).
  { destruct (keys_nonempty corpus 0) as (page & ks & Hks); [lia |].
    exists page. apply elem_of_dom. rewrite Hdom. apply elem_of_dom.
    apply elem_of_keys. rewrite Hks. left. }
  destruct Hsome as [page0 Hpage0].
  destruct (total_positive page_ranks page0 Hpos Hpage0) as [Htotal Hle].
  rewrite normalize_ok in Hnorm by lra.
  injection Hnorm as <-.
  split; [by rewrite dom_fmap_L |]. split.
  - intros page v. rewrite lookup_fmap.
    destruct (page_ranks !! page) as [r|] eqn:Hr; [|done]. intros [= <-].
    specialize (Hle page r Hr). specialize (Hpos page r Hr). simpl in Hpos.
    split.
    + apply Qle_shift_div_l; [done | lra].
    + apply Qle_shift_div_r; [done | lra].
  - rewrite sum_Qsum, values_fmap, Qsum_scale.
    rewrite <- sum_Qsum. field. lra.
Qed.

Lemma iterate_pagerank_distribution_witness :
  ∃ result : gmap string Q,
    iterate_pagerank 3 corpus_chain (17 # 20) = Some (Ok result) ∧
    dom result = dom corpus_chain ∧
    (∀ page v, result !! page = Some v → (0 <= v)%Q ∧ (v <= 1)%Q) ∧
    (Py.sum (Py.values result) == 1)%Q.
Proof.
  eexists. split.
  - vm_compute. reflexivity.
  - apply (iterate_pagerank_distribution 3 corpus_chain (17 # 20)).
    + vm_compute. lia.
    + reflexivity.
    + reflexivity.
    + vm_compute. reflexivity.
Defined.

(** ** [iterate_pagerank]: a round contracts the difference *)

Section QsumLemmas.

Context {X : Type}.
Implicit Types (f g : X → Q) (xs : list X).

Lemma Qsum_cons f x xs :
  (Qsum (f <$> x :: xs) == f x + Qsum (f <$> xs))%Q.
Proof. reflexivity. Qed.

Lemma Qsum_ext f g xs :
  (∀ x, x ∈ xs → (f x == g x)%Q) → (Qsum (f <$> xs) == Qsum (g <$> xs))%Q.
Proof.
  induction xs as [|x xs IH]; intros Hfg; [reflexivity |].
  rewrite !Qsum_cons, IH, (Hfg x) by (try left; intros; apply Hfg; by right).
  reflexivity.
Qed.

Lemma Qsum_le_compat f g xs :
  (∀ x, x ∈ xs → (f x <= g x)%Q) → (Qsum (f <$> xs) <= Qsum (g <$> xs))%Q.
Proof.
  induction xs as [|x xs IH]; intros Hfg; [apply Qle_refl |].
  rewrite !Qsum_cons.
  assert (f x <= g x)%Q by (apply Hfg; left).
  assert (Qsum (f <$> xs) <= Qsum (g <$> xs))%Q
    by (apply IH; intros; apply Hfg; by right).
  lra.
Qed.

Lemma Qsum_minus f g xs :
  (Qsum ((λ x, f x - g x) <$> xs) == Qsum (f <$> xs) - Qsum (g <$> xs))%Q.
Proof.
  induction xs as [|x xs IH]; [reflexivity |].
  rewrite !Qsum_cons, IH. lra.
Qed.

Lemma Qsum_mult (c : Q) f xs :
  (Qsum ((λ x, c * f x) <$> xs) == c * Qsum (f <$> xs))%Q.
Proof.
  induction xs as [|x xs IH]; [simpl; lra |].
  rewrite !Qsum_cons, IH. lra.
Qed.

Lemma Qsum_abs_le f xs :
  (Qabs (Qsum (f <$> xs)) <= Qsum ((λ x, Qabs (f x)) <$> xs))%Q.
Proof.
  induction xs as [|x xs IH]; [by vm_compute |].
  rewrite !Qsum_cons.
  eapply Qle_trans; [apply Qabs_triangle |]. lra.
Qed.

Lemma Qsum_filter (P : X → Prop) `{!∀ x, Decision (P x)} f xs :
  (Qsum (f <$> filter P xs)
   == Qsum ((λ x, if decide (P x) then f x else 0) <$> xs))%Q.
Proof.
  induction xs as [|x xs IH]; [reflexivity |].
  rewrite Qsum_cons, <- IH. destruct (decide (P x)).
  - rewrite filter_cons_True by done. rewrite Qsum_cons. reflexivity.
  - rewrite filter_cons_False by done. lra.
Qed.

Lemma Qsum_indicator (P : X → Prop) `{!∀ x, Decision (P x)} (c : Q) xs :
  (Qsum ((λ x, if decide (P x) then c else 0) <$> xs)
   == inject_Z (Z.of_nat (length (filter P xs))) * c)%Q.
Proof.
  rewrite <- (Qsum_filter P (λ _, c)). apply Qsum_const.
Qed.

End QsumLemmas.

Lemma Qsum_zero {X : Type} (xs : list X) : (Qsum ((λ _, 0%Q) <$> xs) == 0)%Q.
Proof. rewrite Qsum_const. lra. Qed.

(** Two nested sums can be exchanged. *)
Lemma Qsum_swap {X Y : Type} (f : X → Y → Q) (xs : list X) (ys : list Y) :
  (Qsum ((λ x, Qsum ((λ y, f x y) <$> ys)) <$> xs)
   == Qsum ((λ y, Qsum ((λ x, f x y) <$> xs)) <$> ys))%Q.
Proof.
  induction xs as [|x xs IH].
  - simpl. symmetry. apply (Qsum_zero ys).
  - rewrite Qsum_cons, IH.
    assert (H : (Qsum ((λ y, Qsum ((λ x0, f x0 y) <$> x :: xs)) <$> ys)
                 == Qsum ((λ y, f x y + Qsum ((λ x0, f x0 y) <$> xs)) <$> ys))%Q)
      by (apply Qsum_ext; intros y _; apply (Qsum_cons (λ x0, f x0 y))).
    rewrite H. clear H IH.
    induction ys as [|y ys IH]; [simpl; lra |].
    rewrite !Qsum_cons, <- IH. lra.
Qed.

Lemma length_filter_links_le (corpus : gmap string (gset string))
    (links : gset string) :
  (length (filter (λ k, k ∈ links) (Py.keys corpus)) ≤ size links)%nat.
Proof.
  rewrite <- (size_list_to_set (C := gset string))
    by apply NoDup_filter, keys_NoDup.
  apply subseteq_size. intros k.
  rewrite elem_of_list_to_set, list_elem_of_filter. tauto.
Qed.

Lemma Qmult_div_le (m s : nat) (x : Q) :
  (0 <= x)%Q → (m ≤ s)%nat →
  (inject_Z (Z.of_nat m) * (x / inject_Z (Z.of_nat s)) <= x)%Q.
Proof.
  intros Hx Hms. destruct (decide (s = 0%nat)) as [-> | Hs].
  - replace m with 0%nat by lia. change (inject_Z (Z.of_nat 0)) with 0%Q. lra.
  - assert (Hspos : (0 < inject_Z (Z.of_nat s))%Q) by (apply inject_Z_of_nat_pos; lia).
    assert (Hm : (inject_Z (Z.of_nat m) <= inject_Z (Z.of_nat s))%Q)
      by (unfold Qle; simpl; lia).
    pose proof (inject_Z_of_nat_nonneg m) as Hm0.
    assert (Heq : (inject_Z (Z.of_nat m) * (x / inject_Z (Z.of_nat s))
                   == (inject_Z (Z.of_nat m) * x) / inject_Z (Z.of_nat s))%Q)
      by (field; lra).
    rewrite Heq. apply Qle_shift_div_r; [done |]. nra.
Qed.

Lemma Qmult_le_nonneg_l (z x y : Q) :
  (0 <= z)%Q → (x <= y)%Q → (z * x <= z * y)%Q.
Proof.
  intros Hz Hxy. rewrite (Qmult_comm z x), (Qmult_comm z y).
  by apply Qmult_le_compat_r.
Qed.

(** What a page passes on in a round is at most what it has. *)
Lemma share_total_le (corpus : gmap string (gset string)) (rank : string → Q)
    (q : string) :
  (0 <= rank q)%Q →
  (Qsum ((λ p, share corpus rank p q) <$> Py.keys corpus) <= rank q)%Q.
Proof.
  intros Hq. unfold share.
  rewrite (Qsum_indicator (λ p, p ∈ links_of corpus q)).
  apply Qmult_div_le; [done |]. apply length_filter_links_le.
Qed.

Lemma share_minus (corpus : gmap string (gset string)) (r1 r2 : string → Q)
    (p q : string) :
  (share corpus r1 p q - share corpus r2 p q
   == share corpus (λ q, r1 q - r2 q) p q)%Q.
Proof.
  unfold share. destruct (decide (p ∈ links_of corpus q)); [|lra].
  unfold Qdiv. ring.
Qed.

Lemma share_abs (corpus : gmap string (gset string)) (r : string → Q)
    (p q : string) :
  (Qabs (share corpus r p q) == share corpus (λ q, Qabs (r q)) p q)%Q.
Proof.
  unfold share. destruct (decide (p ∈ links_of corpus q)); [|reflexivity].
  unfold Qdiv. rewrite Qabs_Qmult.
  rewrite (Qabs_pos (/ _)); [reflexivity |].
  apply Qinv_le_0_compat, inject_Z_of_nat_nonneg.
Qed.

Lemma share_ext (corpus : gmap string (gset string)) (r1 r2 : string → Q)
    (p q : string) :
  (r1 q == r2 q)%Q → (share corpus r1 p q == share corpus r2 p q)%Q.
Proof.
  intros Heq. unfold share. destruct (decide (p ∈ links_of corpus q)); [|reflexivity].
  by rewrite Heq.
Qed.

Lemma sum_prob_share (corpus : gmap string (gset string))
    (page_ranks : gmap string Q) (p : string) :
  (sum_prob_of corpus page_ranks p
   == Qsum ((λ q, share corpus (rank_of page_ranks) p q) <$> Py.keys corpus))%Q.
Proof.
  unfold sum_prob_of.
  rewrite (foldl_cond_Qsum (λ q, p ∈ links_of corpus q)
    (λ q, (rank_of page_ranks q / inject_Z (Py.len_set (links_of corpus q)))%Q)).
  rewrite (Qsum_filter (λ q, p ∈ links_of corpus q)). unfold share. lra.
Qed.

Lemma rank_of_next_ranks (corpus : gmap string (gset string)) (d : Q)
    (page_ranks : gmap string Q) (page : string) :
  is_Some (corpus !! page) →
  rank_of (next_ranks corpus d page_ranks) page = new_rank corpus d page_ranks page.
Proof.
  intros [links Hl]. apply rank_of_Some. unfold next_ranks.
  by rewrite lookup_table_of, Hl.
Qed.

(** The change of a page in the round after the next, from the changes
    in the next round. *)
Lemma change_of_next (corpus : gmap string (gset string)) (d : Q)
    (page_ranks : gmap string Q) (p : string) :
  is_Some (corpus !! p) →
  (change_of corpus d (next_ranks corpus d page_ranks) p
   == d * Qsum ((λ q, share corpus (change_of corpus d page_ranks) p q)
                  <$> Py.keys corpus))%Q.
Proof.
  intros Hp. unfold change_of at 1.
  rewrite (rank_of_next_ranks _ _ _ _ Hp). unfold new_rank.
  rewrite !sum_prob_share.
  assert (Hsub :
    (Qsum ((λ q, share corpus (change_of corpus d page_ranks) p q) <$> Py.keys corpus)
     == Qsum ((λ q, share corpus (rank_of (next_ranks corpus d page_ranks)) p q)
                <$> Py.keys corpus)
        - Qsum ((λ q, share corpus (rank_of page_ranks) p q) <$> Py.keys corpus))%Q).
  { rewrite <- Qsum_minus. apply Qsum_ext. intros q Hq.
    rewrite share_minus. apply share_ext. unfold change_of.
    apply elem_of_keys in Hq. by rewrite (rank_of_next_ranks _ _ _ _ Hq). }
  rewrite Hsub. ring.
Qed.

Lemma difference_of_change (corpus : gmap string (gset string)) (d : Q)
    (page_ranks : gmap string Q) :
  (difference_of corpus d page_ranks
   == Qsum ((λ p, Qabs (change_of corpus d page_ranks p)) <$> Py.keys corpus))%Q.
Proof. apply difference_of_Qsum. Qed.


(** The contraction: a round multiplies the difference by at most [d]. *)
Lemma difference_of_next (corpus : gmap string (gset string)) (d : Q)
    (page_ranks : gmap string Q) :
  (0 <= d)%Q →
  (difference_of corpus d (next_ranks corpus d page_ranks)
   <= d * difference_of corpus d page_ranks)%Q.
Proof.
  intros Hd. rewrite !difference_of_change.
  set (ks := Py.keys corpus).
  set (delta := λ q, Qabs (change_of corpus d page_ranks q)).
  eapply Qle_trans.
  { apply (Qsum_le_compat _
      (λ p, (d * Qsum ((λ q, share corpus delta p q) <$> ks))%Q)).
    intros p Hp. apply elem_of_keys in Hp.
    rewrite (change_of_next _ _ _ _ Hp), Qabs_Qmult, (Qabs_pos d) by done.
    apply Qmult_le_nonneg_l; [done |]. fold ks.
    eapply Qle_trans; [apply Qsum_abs_le |].
    apply Qle_lteq. right. apply Qsum_ext. intros q _. apply share_abs. }
  rewrite Qsum_mult. apply Qmult_le_nonneg_l; [done |].
  rewrite (Qsum_swap (λ p q, share corpus delta p q)).
  apply Qsum_le_compat. intros q _.
  apply (share_total_le corpus delta q). apply Qabs_nonneg.
Qed.

(** ** [iterate_pagerank]: termination *)





Lemma iterate_loop_mono (fuel fuel' : nat) (corpus : gmap string (gset string))
    (d : Q) (N : Z) (page_ranks : gmap string Q) (res : result (gmap string Q)) :
  (fuel ≤ fuel')%nat →
  iterate_loop fuel corpus d N page_ranks = Some res →
  iterate_loop fuel' corpus d N page_ranks = Some res.
Proof.
  revert fuel' page_ranks. induction fuel as [|fuel IH];
    intros fuel' page_ranks Hle; [done |].
  destruct fuel' as [|fuel']; [lia |]. cbn [iterate_loop].
  destruct (update_round corpus d N page_ranks) as [[new_page_ranks difference] | e];
    [|done].
  destruct (Qlt_le_dec threshold difference); [|done].
  apply IH. lia.
Qed.





(** The chain with damping 17/20 stops in its third round. *)
Example iterate_pagerank_chain :
  iterate_pagerank 2 corpus_chain (17 # 20) = None ∧
  ∃ result : gmap string Q,
    iterate_pagerank 3 corpus_chain (17 # 20) = Some (Ok result) ∧
    (rank_of result "A" == 120 # 342)%Q ∧
    (rank_of result "B" == 222 # 342)%Q.
Proof.
  split; [vm_compute; reflexivity |].
  eexists. split; [vm_compute; reflexivity |]. split; by vm_compute.
Qed.

(** * Further properties of the code *)

(** ** [transition_model]: errors and total mass *)

(** X1: the only way [transition_model] fails is the [KeyError] of
    [corpus[page]], and it fails so exactly when [page] is not a key of
    the corpus; no division in it can fail. *)
Theorem transition_model_raises (corpus : gmap string (gset string))
    (page : string) (d : Q) (e : exn) :
  transition_model corpus page d = Raise e ↔
  corpus !! page = None ∧ e = KeyError.
Proof.
  destruct (corpus !! page) as [links|] eqn:Hpage.
  - rewrite (transition_model_eq _ _ _ _ Hpage). split; [done | by intros [? _]].
  - unfold transition_model. rewrite (getitem_None _ _ Hpage).
    cbn [mbind result_bind]. split; [by intros [= <-] | by intros [_ ->]].
Qed.

Lemma length_filter_links_inter (corpus : gmap string (gset string))
    (links : gset string) :
  length (filter (λ k, k ∈ links) (Py.keys corpus)) = size (links ∩ dom corpus).
Proof.
  rewrite <- (size_list_to_set (C := gset string))
    by apply NoDup_filter, keys_NoDup.
  f_equal. apply set_eq. intros k.
  rewrite elem_of_list_to_set, list_elem_of_filter, elem_of_keys, <- elem_of_dom.
  set_solver.
Qed.

Lemma size_inter_difference (links pages : gset string) :
  (size (links ∩ pages) + size (links ∖ pages) = size links)%nat.
Proof.
  rewrite <- size_union by set_solver. f_equal.
  apply set_eq. intros k. destruct (decide (k ∈ pages)); set_solver.
Qed.

(** The total of the table of [transition_model], whatever the links. *)
Lemma transition_model_total (corpus : gmap string (gset string)) (page : string)
    (d : Q) (links : gset string) (dist : gmap string Q) :
  corpus !! page = Some links →
  (0 < size links)%nat →
  transition_model corpus page d = Ok dist →
  (Qsum (Py.values dist)
   == 1 - d * (inject_Z (Z.of_nat (size (links ∖ dom corpus)))
               / inject_Z (Z.of_nat (size links))))%Q.
Proof.
  intros Hp Hk. rewrite (transition_model_eq _ _ _ _ Hp). intros [= <-].
  rewrite (Qsum_perm _ _ (values_table_of _ _)).
  assert (HN : ¬ (inject_Z (Z.of_nat (size corpus)) == 0)%Q).
  { apply inject_Z_nonzero. apply (len_pos corpus page). eauto. }
  assert (HK : ¬ (inject_Z (Z.of_nat (size links)) == 0)%Q).
  { apply inject_Z_nonzero. lia. }
  rewrite (Qsum_ext _
    (λ key, if decide (key ∈ links)
            then ((1 - d) / inject_Z (Py.len corpus)
                  + d / inject_Z (Py.len_set links))%Q
            else ((1 - d) / inject_Z (Py.len corpus))%Q)).
  2:{ intros key _. rewrite decide_False by lia. reflexivity. }
  rewrite Qsum_base_bonus, length_keys, length_filter_links_inter.
  unfold Py.len, Py.len_set.
  pose proof (size_inter_difference links (dom corpus)) as Hsplit.
  assert (Hm : (inject_Z (Z.of_nat (size (links ∩ dom corpus)))
                == inject_Z (Z.of_nat (size links))
                   - inject_Z (Z.of_nat (size (links ∖ dom corpus))))%Q).
  { rewrite <- Hsplit, Nat2Z.inj_add, inject_Z_plus. ring. }
  rewrite Hm. by field.
Qed.

(** X2: on a graph and for a damping factor in [0, 1], the table of
    [transition_model] is a probability distribution over the pages:
    every value lies in [0, 1] and the values add up to 1. *)
Theorem transition_model_distribution (corpus : gmap string (gset string))
    (page : string) (d : Q) :
  links_closed corpus →
  is_Some (corpus !! page) →
  (0 <= d)%Q → (d <= 1)%Q →
  ∃ dist : gmap string Q,
    transition_model corpus page d = Ok dist ∧
    dom dist = dom corpus ∧
    (∀ q v, dist !! q = Some v → (0 <= v)%Q ∧ (v <= 1)%Q) ∧
    (Py.sum (Py.values dist) == 1)%Q.
Proof.
  intros Hclosed [links Hp] Hd0 Hd1.
  pose proof (transition_model_eq corpus page d links Hp) as Heq.
  eexists. split; [exact Heq |].
  pose proof (transition_model_sum corpus page d links _ Hp (Hclosed _ _ Hp) Heq)
    as Hsum.
  set (dist := table_of _ corpus) in *.
  assert (HN : (0 < inject_Z (Py.len corpus))%Q).
  { apply inject_Z_of_nat_pos. eapply size_pos. eauto. }
  assert (Hnonneg : ∀ q v, dist !! q = Some v → (0 <= v)%Q).
  { intros q v. unfold dist. rewrite lookup_table_of.
    destruct (corpus !! q); [|done]. intros [= <-].
    assert (0 <= (1 - d) / inject_Z (Py.len corpus))%Q
      by (apply Qdiv_nonneg; lra).
    assert (0 <= d / inject_Z (Py.len_set links))%Q
      by (apply Qdiv_nonneg; [done | apply inject_Z_of_nat_nonneg]).
    destruct (decide (size links = 0%nat)).
    - apply Qdiv_nonneg; lra.
    - destruct (decide (q ∈ links)); lra. }
  split; [apply dom_table_of |]. split; [|by rewrite sum_Qsum].
  intros q v Hv. split; [by eapply Hnonneg |].
  rewrite <- Hsum. apply Qsum_elem_le.
  - intros y [k Hk]%elem_of_values. by eapply Hnonneg.
  - apply elem_of_values. eauto.
Qed.

Lemma transition_model_distribution_witness :
  ∃ dist : gmap string Q,
    transition_model corpus_example "A" (17 # 20) = Ok dist ∧
    dom dist = dom corpus_example ∧
    (∀ q v, dist !! q = Some v → (0 <= v)%Q ∧ (v <= 1)%Q) ∧
    (Py.sum (Py.values dist) == 1)%Q.
Proof.
  apply transition_model_distribution.
  - apply (bool_decide_unpack _). vm_compute. exact I.
  - by eexists.
  - by vm_compute.
  - by vm_compute.
Defined.

(** X3: when some links of the page lead outside the corpus, the
    table of [transition_model] does not add up to 1: of the share [d]
    that follows links, the fraction of links that lead outside is
    lost. *)
Theorem transition_model_lost_mass (corpus : gmap string (gset string))
    (page : string) (d : Q) (links : gset string) :
  corpus !! page = Some links →
  (0 < size links)%nat →
  ∃ dist : gmap string Q,
    transition_model corpus page d = Ok dist ∧
    (Py.sum (Py.values dist)
     == 1 - d * (inject_Z (Z.of_nat (size (links ∖ dom corpus)))
                 / inject_Z (Z.of_nat (size links))))%Q.
Proof.
  intros Hp Hk.
  pose proof (transition_model_eq corpus page d links Hp) as Heq.
  eexists. split; [exact Heq |].
  rewrite sum_Qsum. by eapply transition_model_total.
Qed.

Lemma transition_model_lost_mass_witness :
  ∃ dist : gmap string Q,
    transition_model (<["A" := {["B"; "X"]}]> (<["B" := ∅]> ∅)) "A" (17 # 20)
      = Ok dist ∧
    (Py.sum (Py.values dist)
     == 1 - (17 # 20)
          * (inject_Z (Z.of_nat (size (({["B"; "X"]} : gset string)
                                        ∖ dom (<["A" := {["B"; "X"]}]>
                                                 (<["B" := ∅]> (∅ : gmap string (gset string)))))))
             / inject_Z (Z.of_nat (size ({["B"; "X"]} : gset string)))))%Q.
Proof.
  assert (Hk : (0 < size ({["B"; "X"]} : gset string))%nat) by (vm_compute; lia).
  exact (transition_model_lost_mass
           (<["A" := {["B"; "X"]}]> (<["B" := ∅]> ∅)) "A" (17 # 20) {["B"; "X"]}
           eq_refl Hk).
Defined.

(** ** [crawl]: which pages and which links it keeps *)

Lemma substring_all (s : string) : String.substring 0 (String.length s) s = s.
Proof. induction s as [|c s IH]; simpl; [done | by rewrite IH]. Qed.

Lemma substring_append (prefix suffix : string) :
  String.substring (String.length prefix) (String.length suffix)
    (prefix +:+ suffix) = suffix.
Proof.
  induction prefix as [|c prefix IH]; simpl; [|done].
  destruct suffix as [|c' suffix]; simpl; [done |]. by rewrite substring_all.
Qed.

Lemma length_append (s1 s2 : string) :
  String.length (s1 +:+ s2) = (String.length s1 + String.length s2)%nat.
Proof. induction s1 as [|c s1 IH]; simpl; [done | by rewrite IH]. Qed.

Lemma substring_split (s : string) (a b : nat) :
  (a + b)%nat = String.length s →
  s = String.substring 0 a s +:+ String.substring a b s.
Proof.
  revert a. induction s as [|c s IH]; intros a Hlen; simpl in Hlen.
  - destruct a; [|lia]. destruct b; [done | lia].
  - destruct a as [|a]; simpl.
    + destruct b as [|b]; [lia |].
      assert (b = String.length s) as -> by lia.
      simpl. by rewrite substring_all.
    + change (String c s
              = String c (String.substring 0 a s +:+ String.substring a b s)).
      f_equal. apply IH. lia.
Qed.

(** [endswith] holds exactly of the strings that end with the suffix. *)
Lemma endswith_spec (s suffix : string) :
  Py.endswith s suffix = true ↔ ∃ stem, s = stem +:+ suffix.
Proof.
  unfold Py.endswith. split.
  - destruct (decide (String.length suffix ≤ String.length s)%nat) as [Hle|];
      [|done].
    intros Heq%String.eqb_eq.
    exists (String.substring 0 (String.length s - String.length suffix) s).
    pose proof (substring_split s (String.length s - String.length suffix)
                  (String.length suffix)) as Hsplit.
    rewrite Heq in Hsplit. apply Hsplit. lia.
  - intros [stem ->]. rewrite length_append.
    rewrite decide_True by lia.
    replace (String.length stem + String.length suffix - String.length suffix)%nat
      with (String.length stem) by lia.
    rewrite substring_append. apply String.eqb_refl.
Qed.

Section CrawlPages.

Variable findall_href : string → list string.

Lemma extract_step_dom (directory : list (string * string))
    (pages : gmap string (gset string)) (filename : string) :
  filename ∈ dom (foldl (extract_step findall_href) pages directory) ↔
  filename ∈ dom pages ∨
  (filename ∈ directory.*1 ∧ Py.endswith filename ".html" = true).
Proof.
  revert pages. induction directory as [|[f c] directory IH]; intros pages.
  - simpl. rewrite elem_of_nil. tauto.
  - cbn [foldl]. rewrite IH. unfold extract_step. cbn [fst snd].
    rewrite fmap_cons, elem_of_cons. cbn [fst].
    destruct (Py.endswith f ".html") eqn:Hf; cbn [negb].
    + rewrite dom_insert_L, elem_of_union, elem_of_singleton. split.
      * intros [[-> | ?] | [? ?]]; auto.
      * intros [? | [[-> | ?] ?]]; auto.
    + split.
      * intros [? | [? ?]]; auto.
      * intros [? | [[-> | ?] ?]]; [auto | congruence | auto].
Qed.

Lemma extract_step_fresh (directory : list (string * string))
    (pages : gmap string (gset string)) (filename : string) :
  filename ∉ directory.*1 →
  foldl (extract_step findall_href) pages directory !! filename
  = pages !! filename.
Proof.
  revert pages. induction directory as [|[f c] directory IH]; intros pages Hnin;
    [done |].
  cbn [foldl]. rewrite IH by (intros ?; apply Hnin; by right).
  unfold extract_step. simpl. destruct (negb (Py.endswith f ".html")); [done |].
  apply lookup_insert_ne. intros ->. apply Hnin. left.
Qed.

Lemma extract_step_lookup (directory : list (string * string))
    (pages : gmap string (gset string)) (filename contents : string) :
  NoDup directory.*1 →
  (filename, contents) ∈ directory →
  Py.endswith filename ".html" = true →
  foldl (extract_step findall_href) pages directory !! filename
  = Some (list_to_set (findall_href contents) ∖ {[filename]}).
Proof.
  revert pages. induction directory as [|[f c] directory IH];
    intros pages Hnd Hin Hhtml; [by apply elem_of_nil in Hin |].
  apply NoDup_cons in Hnd as [Hf Hnd]. cbn [foldl].
  apply elem_of_cons in Hin as [[= <- <-] | Hin].
  - rewrite extract_step_fresh by done. unfold extract_step. simpl.
    rewrite Hhtml. simpl. apply lookup_insert_eq.
  - by apply IH.
Qed.

(** With its lookups resolved, the second loop of [crawl] prunes every
    link set against the keys: that it rewrites the dict it iterates
    over changes nothing, because the keys stay as they are. *)
Lemma prune_foldl_lookup (filenames : list string)
    (pages : gmap string (gset string)) (filename : string) :
  NoDup filenames →
  foldl prune_step pages filenames !! filename =
  if decide (filename ∈ filenames)
  then filter (λ link, link ∈ dom pages) <$> pages !! filename
  else pages !! filename.
Proof.
  revert pages. induction filenames as [|k ks IH]; intros pages Hnd.
  - cbn [foldl]. destruct (decide (filename ∈ [])) as [Hin | _]; [|done].
    by apply elem_of_nil in Hin.
  - apply NoDup_cons in Hnd as [Hk Hnd]. cbn [foldl].
    rewrite IH by done. rewrite prune_step_dom.
    assert (Hother : filename ≠ k → prune_step pages k !! filename = pages !! filename).
    { intros Hne. unfold prune_step. destruct (pages !! k); [|done].
      by rewrite lookup_insert_ne. }
    assert (Hsame : prune_step pages k !! k
                    = filter (λ link, link ∈ dom pages) <$> pages !! k).
    { unfold prune_step. destruct (pages !! k) eqn:E; simpl; [|done].
      by rewrite lookup_insert_eq. }
    destruct (decide (filename ∈ ks)) as [Hin | Hnin].
    + rewrite decide_True by (by right).
      rewrite Hother; [done |]. intros ->. done.
    + destruct (decide (filename = k)) as [-> | Hne].
      * rewrite decide_True by left. done.
      * rewrite decide_False by (rewrite elem_of_cons; by intros [? | ?]).
        by apply Hother.
Qed.

Lemma crawl_closed_form (directory : list (string * string)) :
  crawl findall_href directory =
  Ok (let pages := foldl (extract_step findall_href) ∅ directory in
      filter (λ link, link ∈ dom pages) <$> pages).
Proof.
  rewrite crawl_eq. cbv zeta. f_equal. apply map_eq. intros filename.
  rewrite prune_foldl_lookup by apply keys_NoDup. rewrite lookup_fmap.
  destruct (decide (filename ∈ Py.keys _)) as [_ | Hnin]; [done |].
  destruct (foldl _ _ _ !! filename) eqn:E; [|done].
  exfalso. apply Hnin, elem_of_keys. eauto.
Qed.

(** X4: the pages of the mapping that [crawl] returns are exactly the
    files of the directory whose name ends with [.html], whether or not
    a page links to them; the other files are ignored. *)
Theorem crawl_pages (directory : list (string * string)) :
  ∃ pages : gmap string (gset string),
    crawl findall_href directory = Ok pages ∧
    ∀ filename,
      filename ∈ dom pages ↔
      filename ∈ directory.*1 ∧ ∃ stem, filename = stem +:+ ".html".
Proof.
  eexists. split; [apply crawl_closed_form |]. cbv zeta.
  intros filename. rewrite dom_fmap_L, extract_step_dom, dom_empty_L.
  rewrite endswith_spec. set_solver.
Qed.

(** X5: in a directory that lists every file once, the links that
    [crawl] keeps for a page are exactly the links found in its file
    that are not the page itself and that name an [.html] file of the
    directory. *)
Theorem crawl_links (directory : list (string * string))
    (filename contents : string) :
  NoDup directory.*1 →
  (filename, contents) ∈ directory →
  (∃ stem, filename = stem +:+ ".html") →
  ∃ (pages : gmap string (gset string)) (links : gset string),
    crawl findall_href directory = Ok pages ∧
    pages !! filename = Some links ∧
    ∀ link,
      link ∈ links ↔
      link ∈ findall_href contents ∧ link ≠ filename ∧
      link ∈ directory.*1 ∧ ∃ stem, link = stem +:+ ".html".
Proof.
  intros Hnd Hin Hhtml%endswith_spec.
  eexists. eexists. split; [apply crawl_closed_form |]. cbv zeta.
  rewrite lookup_fmap, (extract_step_lookup _ _ _ contents) by done.
  split; [done |]. intros link.
  rewrite elem_of_filter, extract_step_dom, dom_empty_L, endswith_spec.
  set_solver.
Qed.

End CrawlPages.

Lemma crawl_links_witness :
  ∃ (pages : gmap string (gset string)) (links : gset string),
    crawl findall_words [("1.html", "a"); ("2.html", ""); ("3.txt", "a")]
      = Ok pages ∧
    pages !! "1.html" = Some links ∧
    ∀ link,
      link ∈ links ↔
      link ∈ findall_words "a" ∧ link ≠ "1.html" ∧
      link ∈ [("1.html", "a"); ("2.html", ""); ("3.txt", "a")].*1 ∧
      ∃ stem, link = stem +:+ ".html".
Proof.
  apply crawl_links.
  - apply (bool_decide_unpack _). vm_compute. exact I.
  - left.
  - by exists "1".
Defined.

(** ** [iterate_pagerank]: the total of the ranks before normalization *)

Lemma Qsum_plus {X : Type} (f g : X → Q) (xs : list X) :
  (Qsum ((λ x, f x + g x) <$> xs) == Qsum (f <$> xs) + Qsum (g <$> xs))%Q.
Proof.
  induction xs as [|x xs IH]; [simpl; lra |].
  rewrite !Qsum_cons, IH. lra.
Qed.

Lemma table_of_rank_of (corpus : gmap string (gset string))
    (page_ranks : gmap string Q) :
  dom page_ranks = dom corpus →
  page_ranks = table_of (rank_of page_ranks) corpus.
Proof.
  intros Hdom. apply map_eq. intros page. rewrite lookup_table_of.
  destruct (page_ranks !! page) as [r|] eqn:Hr.
  - assert (Hin : is_Some (corpus !! page)).
    { apply elem_of_dom. rewrite <- Hdom. apply elem_of_dom. eauto. }
    destruct Hin as [links ->]. simpl. by rewrite (rank_of_Some _ _ _ Hr).
  - apply not_elem_of_dom in Hr. rewrite Hdom in Hr.
    apply not_elem_of_dom in Hr. by rewrite Hr.
Qed.

(** The total of a table with one rank per page, as a sum over the
    pages of the corpus. *)
Lemma total_over_keys (corpus : gmap string (gset string))
    (page_ranks : gmap string Q) :
  dom page_ranks = dom corpus →
  (Py.sum (Py.values page_ranks)
   == Qsum (rank_of page_ranks <$> Py.keys corpus))%Q.
Proof.
  intros Hdom. rewrite sum_Qsum.
  rewrite (table_of_rank_of corpus page_ranks Hdom) at 1.
  apply Qsum_perm, values_table_of.
Qed.

(** The total after a round, from what each page passes on. *)
Lemma total_next_ranks (corpus : gmap string (gset string)) (d : Q)
    (page_ranks : gmap string Q) :
  (1 ≤ size corpus)%nat →
  (Py.sum (Py.values (next_ranks corpus d page_ranks))
   == (1 - d)
      + d * Qsum ((λ q, Qsum ((λ p, share corpus (rank_of page_ranks) p q)
                                <$> Py.keys corpus))
                    <$> Py.keys corpus))%Q.
Proof.
  intros HN. rewrite sum_Qsum. unfold next_ranks.
  rewrite (Qsum_perm _ _ (values_table_of _ _)).
  rewrite (Qsum_ext _
    (λ p, ((1 - d) / inject_Z (Py.len corpus)
           + d * Qsum ((λ q, share corpus (rank_of page_ranks) p q)
                         <$> Py.keys corpus))%Q)).
  2:{ intros p _. unfold new_rank. by rewrite sum_prob_share. }
  rewrite Qsum_plus, Qsum_const, Qsum_mult, length_keys.
  rewrite (Qsum_swap (λ p q, share corpus (rank_of page_ranks) p q)).
  assert (¬ (inject_Z (Py.len corpus) == 0)%Q)
    by (apply inject_Z_nonzero; unfold Py.len; lia).
  unfold Py.len in *. by field.
Qed.


Lemma total_initial (corpus : gmap string (gset string)) :
  (1 ≤ size corpus)%nat →
  (Py.sum (Py.values (table_of (λ _, (1 / inject_Z (Py.len corpus))%Q) corpus))
   == 1)%Q.
Proof.
  intros HN. rewrite sum_Qsum, (Qsum_perm _ _ (values_table_of _ _)).
  rewrite Qsum_const, length_keys.
  assert (¬ (inject_Z (Py.len corpus) == 0)%Q)
    by (apply inject_Z_nonzero; unfold Py.len; lia).
  unfold Py.len in *. by field.
Qed.

(** Ranks are never created: a round keeps the total at or below 1. *)
Lemma total_ranks_after_le (corpus : gmap string (gset string)) (d : Q) (k : nat) :
  (1 ≤ size corpus)%nat →
  (0 < d)%Q → (d < 1)%Q →
  (Py.sum (Py.values (ranks_after corpus d k)) <= 1)%Q.
Proof.
  intros HN Hd0 Hd1. induction k as [|k IH].
  - unfold ranks_after. simpl. rewrite total_initial by done. lra.
  - unfold ranks_after in *. rewrite Nat.iter_succ.
    set (r := Nat.iter k (next_ranks corpus d) _) in *.
    rewrite total_next_ranks by done.
    pose proof (ranks_after_positive corpus d k Hd0 Hd1) as Hpos.
    fold (ranks_after corpus d k) in r. fold r in Hpos.
    assert (Hle : (Qsum ((λ q, Qsum ((λ p, share corpus (rank_of r) p q)
                                       <$> Py.keys corpus)) <$> Py.keys corpus)
                   <= Qsum (rank_of r <$> Py.keys corpus))%Q).
    { apply Qsum_le_compat. intros q _.
      apply (share_total_le corpus (rank_of r) q). by apply rank_of_nonneg. }
    rewrite <- (total_over_keys corpus r) in Hle by apply dom_ranks_after.
    assert (d * Qsum ((λ q, Qsum ((λ p, share corpus (rank_of r) p q)
                                    <$> Py.keys corpus)) <$> Py.keys corpus)
            <= d * Py.sum (Py.values r))%Q
      by (apply Qmult_le_nonneg_l; [lra | done]).
    assert (d * Py.sum (Py.values r) <= d * 1)%Q
      by (apply Qmult_le_nonneg_l; [lra | done]).
    lra.
Qed.


Lemma ranks_after_lower_bound (corpus : gmap string (gset string)) (d : Q)
    (k : nat) (page : string) (r : Q) :
  (0 < d)%Q → (d < 1)%Q →
  ranks_after corpus d k !! page = Some r →
  ((1 - d) / inject_Z (Py.len corpus) <= r)%Q.
Proof.
  intros Hd0 Hd1. destruct k as [|k].
  - unfold ranks_after. simpl. rewrite lookup_table_of.
    destruct (corpus !! page) as [links|] eqn:Hp; [|done]. intros [= <-].
    assert (0 < inject_Z (Py.len corpus))%Q
      by (apply inject_Z_of_nat_pos; eapply size_pos; eauto).
    apply Qle_shift_div_l; [done |].
    assert (Heq : ((1 - d) / inject_Z (Py.len corpus) * inject_Z (Py.len corpus)
                   == 1 - d)%Q) by (field; lra).
    rewrite Heq. lra.
  - unfold ranks_after. rewrite Nat.iter_succ.
    fold (ranks_after corpus d k). unfold next_ranks. rewrite lookup_table_of.
    destruct (corpus !! page) as [links|] eqn:Hp; [|done]. intros [= <-].
    unfold new_rank.
    pose proof (sum_prob_nonneg corpus (ranks_after corpus d k) page
                  (ranks_after_positive corpus d k Hd0 Hd1)) as Hs.
    assert (0 <= d * sum_prob_of corpus (ranks_after corpus d k) page)%Q
      by (apply Qmult_le_0_compat; lra).
    lra.
Qed.

(** X6: for a damping factor in (0, 1), the ranks on which the loop of
    [iterate_pagerank] stops add up to at most 1 and to more than 0
    before they are normalized: rounds never create rank, they lose
    what dangling pages and links out of the corpus would pass on. *)
Theorem iterate_pagerank_total_before_normalization (fuel : nat)
    (corpus : gmap string (gset string)) (d : Q) (ranks : gmap string Q) :
  (1 ≤ size corpus)%nat →
  (0 < d)%Q → (d < 1)%Q →
  iterate_until_convergence fuel corpus d = Some (Ok ranks) →
  (0 < Py.sum (Py.values ranks))%Q ∧ (Py.sum (Py.values ranks) <= 1)%Q.
Proof.
  intros HN Hd0 Hd1 Hrun.
  destruct (iterate_until_convergence_stops _ _ _ _ Hrun)
    as (k & _ & [= ->] & _ & _).
  split; [|by apply total_ranks_after_le].
  destruct (keys_nonempty corpus 0) as (page & ks & Hks); [lia |].
  assert (Hpage : is_Some (ranks_after corpus d k !! page)).
  { apply elem_of_dom. rewrite dom_ranks_after. apply elem_of_dom.
    apply elem_of_keys. rewrite Hks. left. }
  by destruct (total_positive _ page (ranks_after_positive corpus d k Hd0 Hd1) Hpage).
Qed.

Lemma iterate_pagerank_total_before_normalization_witness :
  ∃ ranks : gmap string Q,
    iterate_until_convergence 3 corpus_chain (17 # 20) = Some (Ok ranks) ∧
    (0 < Py.sum (Py.values ranks))%Q ∧ (Py.sum (Py.values ranks) <= 1)%Q.
Proof.
  eexists. split.
  - vm_compute. reflexivity.
  - apply (iterate_pagerank_total_before_normalization 3 corpus_chain (17 # 20)).
    + vm_compute. lia.
    + reflexivity.
    + reflexivity.
    + vm_compute. reflexivity.
Defined.

(** X7: for a damping factor in (0, 1), every page of the table that
    [iterate_pagerank] returns has a rank of at least [(1 - d)/N]: no
    page ends with rank 0, however few pages link to it. *)
Theorem iterate_pagerank_lower_bound (fuel : nat)
    (corpus : gmap string (gset string)) (d : Q) (result : gmap string Q) :
  (1 ≤ size corpus)%nat →
  (0 < d)%Q → (d < 1)%Q →
  iterate_pagerank fuel corpus d = Some (Ok result) →
  ∀ page v,
    result !! page = Some v →
    ((1 - d) / inject_Z (Z.of_nat (size corpus)) <= v)%Q.
Proof.
  intros HN Hd0 Hd1 Hrun page v Hv.
  destruct (iterate_pagerank_stops _ _ _ _ Hrun) as (k & _ & _ & _ & Hnorm).
  pose proof (ranks_after_positive corpus d k Hd0 Hd1) as Hpos.
  pose proof (total_ranks_after_le corpus d k HN Hd0 Hd1) as Hle1.
  set (ranks := ranks_after corpus d k) in *.
  destruct (keys_nonempty corpus 0) as (page0 & ks & Hks); [lia |].
  assert (Hp0 : is_Some (ranks !! page0)).
  { apply elem_of_dom. unfold ranks. rewrite dom_ranks_after.
    apply elem_of_dom, elem_of_keys. rewrite Hks. left. }
  destruct (total_positive _ page0 Hpos Hp0) as [Htotal _].
  rewrite normalize_ok in Hnorm by lra. injection Hnorm as <-.
  rewrite lookup_fmap in Hv.
  destruct (ranks !! page) as [r|] eqn:Hr; [|done]. injection Hv as <-.
  pose proof (ranks_after_lower_bound corpus d k page r Hd0 Hd1 Hr) as Hlow.
  unfold Py.len in Hlow.
  specialize (Hpos page r Hr). simpl in Hpos.
  eapply Qle_trans; [exact Hlow |].
  apply Qle_shift_div_l; [done |].
  assert (r * Py.sum (Py.values ranks) <= r * 1)%Q
    by (apply Qmult_le_nonneg_l; lra).
  lra.
Qed.

Lemma iterate_pagerank_lower_bound_witness :
  ∃ result : gmap string Q,
    iterate_pagerank 3 corpus_chain (17 # 20) = Some (Ok result) ∧
    ∀ page v,
      result !! page = Some v →
      ((1 - (17 # 20)) / inject_Z (Z.of_nat (size corpus_chain)) <= v)%Q.
Proof.
  eexists. split.
  - vm_compute. reflexivity.
  - apply (iterate_pagerank_lower_bound 3 corpus_chain (17 # 20)).
    + vm_compute. lia.
    + reflexivity.
    + reflexivity.
    + vm_compute. reflexivity.
Defined.



(** ** [iterate_pagerank]: how many rounds *)

Lemma Qpow_succ (d : Q) (n : nat) : Qpow d (S n) = (d * Qpow d n)%Q.
Proof. reflexivity. Qed.

Lemma Qpow_nonneg (d : Q) (n : nat) : (0 <= d)%Q → (0 <= Qpow d n)%Q.
Proof.
  intros Hd. induction n as [|n IH]; [by vm_compute |].
  rewrite Qpow_succ. by apply Qmult_le_0_compat.
Qed.

(** After [k] rounds the difference has shrunk by the factor [d^k]. *)
Lemma difference_geometric (corpus : gmap string (gset string)) (d : Q)
    (page_ranks : gmap string Q) (k : nat) :
  (0 <= d)%Q →
  (difference_of corpus d (Nat.iter k (next_ranks corpus d) page_ranks)
   <= Qpow d k * difference_of corpus d page_ranks)%Q.
Proof.
  intros Hd. induction k as [|k IH].
  - simpl. unfold Qpow. simpl. lra.
  - rewrite Nat.iter_succ, Qpow_succ.
    eapply Qle_trans; [by apply difference_of_next |].
    rewrite <- Qmult_assoc. by apply Qmult_le_nonneg_l.
Qed.

Lemma Qabs_diff_le (a b : Q) :
  (0 <= a)%Q → (0 <= b)%Q → (Qabs (a - b) <= a + b)%Q.
Proof. intros Ha Hb. apply Qabs_Qle_condition. split; lra. Qed.

(** The first round changes the ranks by at most [2 d] in total. *)
Lemma difference_initial (corpus : gmap string (gset string)) (d : Q) :
  (1 ≤ size corpus)%nat →
  (0 <= d)%Q →
  (difference_of corpus d (ranks_after corpus d 0) <= 2 * d)%Q.
Proof.
  intros HN Hd. unfold ranks_after. simpl.
  set (r0 := table_of (λ _, (1 / inject_Z (Py.len corpus))%Q) corpus).
  assert (HNpos : (0 < inject_Z (Py.len corpus))%Q)
    by (apply inject_Z_of_nat_pos; lia).
  assert (Hr0 : ∀ q, (0 <= rank_of r0 q)%Q).
  { intros q. unfold rank_of, r0. rewrite lookup_table_of.
    destruct (corpus !! q); simpl; [|lra]. apply Qdiv_nonneg; lra. }
  assert (Hshare : ∀ p, (0 <= Qsum ((λ q, share corpus (rank_of r0) p q)
                                     <$> Py.keys corpus))%Q).
  { intros p. apply Qsum_nonneg. intros y [q [-> _]]%list_elem_of_fmap.
    unfold share. destruct (decide (p ∈ links_of corpus q)); [|lra].
    apply Qdiv_nonneg; [apply Hr0 | apply inject_Z_of_nat_nonneg]. }
  rewrite difference_of_Qsum.
  eapply Qle_trans.
  { apply (Qsum_le_compat _
      (λ p, (d * (Qsum ((λ q, share corpus (rank_of r0) p q) <$> Py.keys corpus)
                  + 1 / inject_Z (Py.len corpus)))%Q)).
    intros p Hp. apply elem_of_keys in Hp as [links Hp].
    assert (Hrank : rank_of r0 p = (1 / inject_Z (Py.len corpus))%Q).
    { apply rank_of_Some. unfold r0. by rewrite lookup_table_of, Hp. }
    rewrite Hrank. unfold new_rank. rewrite sum_prob_share.
    set (S := Qsum ((λ q, share corpus (rank_of r0) p q) <$> Py.keys corpus)).
    assert (Heq : ((1 - d) / inject_Z (Py.len corpus) + d * S
                   - 1 / inject_Z (Py.len corpus)
                   == d * (S - 1 / inject_Z (Py.len corpus)))%Q)
      by (field; lra).
    rewrite Heq, Qabs_Qmult, (Qabs_pos d) by done.
    apply Qmult_le_nonneg_l; [done |].
    apply Qabs_diff_le; [apply Hshare | apply Qdiv_nonneg; lra]. }
  rewrite Qsum_mult.
  assert (Hbound : (Qsum ((λ p, Qsum ((λ q, share corpus (rank_of r0) p q)
                                        <$> Py.keys corpus)
                                + 1 / inject_Z (Py.len corpus))
                            <$> Py.keys corpus) <= 2)%Q).
  { rewrite Qsum_plus, Qsum_const, length_keys.
    rewrite (Qsum_swap (λ p q, share corpus (rank_of r0) p q)).
    assert (Hle : (Qsum ((λ q, Qsum ((λ p, share corpus (rank_of r0) p q)
                                       <$> Py.keys corpus)) <$> Py.keys corpus)
                   <= Qsum (rank_of r0 <$> Py.keys corpus))%Q).
    { apply Qsum_le_compat. intros q _.
      apply (share_total_le corpus (rank_of r0) q), Hr0. }
    rewrite <- (total_over_keys corpus r0) in Hle by apply dom_table_of.
    pose proof (total_initial corpus HN) as Hinit. fold r0 in Hinit.
    rewrite Hinit in Hle.
    assert (Hone : (inject_Z (Z.of_nat (size corpus))
                    * (1 / inject_Z (Py.len corpus)) == 1)%Q).
    { unfold Py.len in *. field. lra. }
    rewrite Hone. lra. }
  assert (d * Qsum ((λ p, Qsum ((λ q, share corpus (rank_of r0) p q)
                                  <$> Py.keys corpus)
                          + 1 / inject_Z (Py.len corpus))
                      <$> Py.keys corpus) <= d * 2)%Q
    by (by apply Qmult_le_nonneg_l).
  lra.
Qed.

(** Once a round is at or below the threshold, enough fuel returns. *)
Lemma iterate_pagerank_returns_from (corpus : gmap string (gset string)) (d : Q)
    (k : nat) :
  (1 ≤ size corpus)%nat →
  (0 < d)%Q → (d < 1)%Q →
  (difference_of corpus d (ranks_after corpus d k) <= threshold)%Q →
  ∃ result : gmap string Q,
    ∀ fuel, (k < fuel)%nat → iterate_pagerank fuel corpus d = Some (Ok result).
Proof.
  intros HN Hd0 Hd1 Hk.
  destruct (iterate_loop_terminates k corpus d _ (dom_table_of _ _) Hk)
    as (j & Hj & Hloop).
  fold (ranks_after corpus d j) in Hloop.
  pose proof (ranks_after_positive corpus d j Hd0 Hd1) as Hpos.
  destruct (keys_nonempty corpus 0) as (page & ks & Hks); [lia |].
  assert (Hpage : is_Some (ranks_after corpus d j !! page)).
  { apply elem_of_dom. rewrite dom_ranks_after.
    apply elem_of_dom, elem_of_keys. rewrite Hks. left. }
  destruct (total_positive _ page Hpos Hpage) as [Htotal _].
  eexists. intros fuel Hfuel. unfold iterate_pagerank, iterate_until_convergence.
  rewrite initial_ranks_eq.
  rewrite (iterate_loop_mono (S k) fuel _ _ _ _ _ Hfuel Hloop).
  rewrite normalize_ok by lra. done.
Qed.

(** After [k] rounds the difference is at most [2 d^(k+1)]. *)
Lemma difference_after_bound (corpus : gmap string (gset string)) (d : Q)
    (k : nat) :
  (1 ≤ size corpus)%nat →
  (0 <= d)%Q →
  (difference_of corpus d (ranks_after corpus d k) <= 2 * Qpow d (S k))%Q.
Proof.
  intros HN Hd0. unfold ranks_after.
  eapply Qle_trans; [by apply difference_geometric |].
  pose proof (difference_initial corpus d HN Hd0) as H0.
  unfold ranks_after in H0. simpl in H0.
  pose proof (Qpow_nonneg d k Hd0) as Hp.
  eapply Qle_trans; [apply Qmult_le_nonneg_l; [exact Hp | exact H0] |].
  rewrite Qpow_succ. apply Qle_lteq. right. ring.
Qed.



(** ** [iterate_pagerank]: a corpus without links *)

Lemma sum_prob_all_dangling (corpus : gmap string (gset string))
    (page_ranks : gmap string Q) (page : string) :
  all_dangling corpus → sum_prob_of corpus page_ranks page = 0%Q.
Proof.
  intros Hall. unfold sum_prob_of.
  assert (Hks : ∀ p, p ∈ Py.keys corpus → links_of corpus p = ∅).
  { intros p [links Hp]%elem_of_keys. rewrite (links_of_Some _ _ _ Hp).
    by apply (Hall p links Hp). }
  generalize 0%Q. induction (Py.keys corpus) as [|p ks IH]; intros a; [done |].
  cbn [foldl]. rewrite Hks by left.
  rewrite decide_False by set_solver.
  apply IH. intros q Hq. apply Hks. by right.
Qed.

(** Without links every round gives every page the same rank. *)
Lemma next_ranks_all_dangling (corpus : gmap string (gset string)) (d : Q)
    (page_ranks : gmap string Q) :
  all_dangling corpus →
  next_ranks corpus d page_ranks =
  table_of (λ _, ((1 - d) / inject_Z (Py.len corpus) + d * 0)%Q) corpus.
Proof.
  intros Hall. unfold next_ranks. apply table_of_ext. intros page _.
  unfold new_rank. by rewrite sum_prob_all_dangling.
Qed.

Lemma ranks_after_all_dangling (corpus : gmap string (gset string)) (d : Q)
    (k : nat) :
  all_dangling corpus →
  ∃ c : Q, ranks_after corpus d k = table_of (λ _, c) corpus.
Proof.
  intros Hall. destruct k as [|k].
  - by eexists.
  - eexists. unfold ranks_after. rewrite Nat.iter_succ.
    by apply next_ranks_all_dangling.
Qed.

Lemma total_constant (corpus : gmap string (gset string)) (c : Q) :
  (Py.sum (Py.values (table_of (λ _, c) corpus))
   == inject_Z (Z.of_nat (size corpus)) * c)%Q.
Proof.
  rewrite sum_Qsum, (Qsum_perm _ _ (values_table_of _ _)).
  by rewrite Qsum_const, length_keys.
Qed.

(** Normalization divides by the total: a total of zero raises. *)
Lemma normalize_zero (page_ranks : gmap string Q) :
  (1 ≤ size page_ranks)%nat →
  (Py.sum (Py.values page_ranks) == 0)%Q →
  normalize page_ranks = Raise ZeroDivisionError.
Proof.
  intros Hsize Hzero. unfold normalize.
  rewrite <- length_map_to_list in Hsize.
  destruct (map_to_list page_ranks) as [|[page rank] items]; [simpl in Hsize; lia |].
  cbn [Py.for_in]. by rewrite truediv_zero.
Qed.

Lemma size_table_of {V W : Type} (g : string → W) (d : gmap string V) :
  size (table_of g d) = size d.
Proof.
  rewrite <- !length_keys. apply Permutation_length, keys_table_of.
Qed.

(** X10: on a corpus in which no page has a link, a table that
    [iterate_pagerank] returns gives every page the rank [1/N],
    whatever the damping factor. *)
Theorem iterate_pagerank_no_links_uniform (fuel : nat)
    (corpus : gmap string (gset string)) (d : Q) (result : gmap string Q) :
  all_dangling corpus →
  iterate_pagerank fuel corpus d = Some (Ok result) →
  dom result = dom corpus ∧
  ∀ page v,
    result !! page = Some v →
    (v == 1 / inject_Z (Z.of_nat (size corpus)))%Q.
Proof.
  intros Hall Hrun.
  destruct (iterate_pagerank_stops _ _ _ _ Hrun) as (k & _ & _ & _ & Hnorm).
  destruct (ranks_after_all_dangling corpus d k Hall) as [c Hc].
  rewrite Hc in Hnorm.
  destruct (decide (size corpus = 0%nat)) as [Hz | Hnz].
  { apply map_size_empty_iff in Hz. subst corpus.
    unfold normalize, table_of in Hnorm.
    rewrite map_imap_empty, map_to_list_empty in Hnorm.
    injection Hnorm as <-. split; [by rewrite !dom_empty_L |].
    intros page v. by rewrite lookup_empty. }
  pose proof (total_constant corpus c) as Htotal.
  destruct (Qeq_dec (Py.sum (Py.values (table_of (λ _, c) corpus))) 0)
    as [Hzero | Hnonzero].
  { rewrite normalize_zero in Hnorm; [done | | done].
    rewrite size_table_of. lia. }
  rewrite normalize_ok in Hnorm by done. injection Hnorm as <-.
  split; [by rewrite dom_fmap_L, dom_table_of |].
  intros page v. rewrite lookup_fmap, lookup_table_of.
  destruct (corpus !! page); [|done]. intros [= <-].
  rewrite Htotal in Hnonzero |- *.
  assert (HN : ¬ (inject_Z (Z.of_nat (size corpus)) == 0)%Q)
    by (apply inject_Z_nonzero; lia).
  assert (Hcnz : ¬ (c == 0)%Q).
  { intros Hc0. apply Hnonzero. rewrite Hc0. ring. }
  by field.
Qed.

Lemma iterate_pagerank_no_links_uniform_witness :
  ∃ result : gmap string Q,
    iterate_pagerank 2 corpus_isolated (17 # 20) = Some (Ok result) ∧
    dom result = dom corpus_isolated ∧
    ∀ page v,
      result !! page = Some v →
      (v == 1 / inject_Z (Z.of_nat (size corpus_isolated)))%Q.
Proof.
  eexists. split.
  - vm_compute. reflexivity.
  - apply (iterate_pagerank_no_links_uniform 2 corpus_isolated (17 # 20)).
    + apply (bool_decide_unpack _). vm_compute. exact I.
    + vm_compute. reflexivity.
Defined.

(** X11: with the damping factor 1 on a corpus with at least one
    page and no link, [iterate_pagerank] raises [ZeroDivisionError]: the
    first round sets every rank to 0, the second round changes nothing,
    and the normalization divides by the total 0. *)
Theorem iterate_pagerank_zero_total (fuel : nat)
    (corpus : gmap string (gset string)) (d : Q) :
  (1 ≤ size corpus)%nat →
  all_dangling corpus →
  (d == 1)%Q →
  (2 ≤ fuel)%nat →
  iterate_pagerank fuel corpus d = Some (Raise ZeroDivisionError).
Proof.
  intros HN Hall Hd Hfuel.
  assert (HNpos : (0 < inject_Z (Py.len corpus))%Q)
    by (apply inject_Z_of_nat_pos; lia).
  set (r0 := table_of (λ _, (1 / inject_Z (Py.len corpus))%Q) corpus).
  set (c := ((1 - d) / inject_Z (Py.len corpus) + d * 0)%Q).
  set (r1 := table_of (λ _, c) corpus).
  assert (Hc : (c == 0)%Q).
  { unfold c. rewrite Hd. field. lra. }
  assert (Hnew : ∀ r page, new_rank corpus d r page = c).
  { intros r page. unfold new_rank. by rewrite sum_prob_all_dangling. }
  assert (Hnext : ∀ r, next_ranks corpus d r = r1).
  { intros r. by apply next_ranks_all_dangling. }
  assert (HD0 : (threshold < difference_of corpus d r0)%Q).
  { rewrite difference_of_Qsum.
    rewrite (Qsum_ext _ (λ _, (1 / inject_Z (Py.len corpus))%Q)).
    2:{ intros page [links Hp]%elem_of_keys. rewrite Hnew.
        assert (Hrank : rank_of r0 page = (1 / inject_Z (Py.len corpus))%Q).
        { apply rank_of_Some. unfold r0. by rewrite lookup_table_of, Hp. }
        rewrite Hrank, Hc.
        assert (Hpos : (0 <= 1 / inject_Z (Py.len corpus))%Q)
          by (apply Qdiv_nonneg; lra).
        assert (Heq : (0 - 1 / inject_Z (Py.len corpus)
                       == - (1 / inject_Z (Py.len corpus)))%Q) by ring.
        rewrite Heq, Qabs_opp. by apply Qabs_pos. }
    rewrite Qsum_const, length_keys.
    assert (Hone : (inject_Z (Z.of_nat (size corpus))
                    * (1 / inject_Z (Py.len corpus)) == 1)%Q).
    { unfold Py.len in *. field. lra. }
    rewrite Hone. reflexivity. }
  assert (HD1 : (difference_of corpus d r1 <= threshold)%Q).
  { rewrite difference_of_Qsum.
    rewrite (Qsum_ext _ (λ _, 0%Q)).
    2:{ intros page [links Hp]%elem_of_keys. rewrite Hnew.
        assert (Hrank : rank_of r1 page = c).
        { apply rank_of_Some. unfold r1. by rewrite lookup_table_of, Hp. }
        rewrite Hrank.
        assert (Heq : (c - c == 0)%Q) by ring.
        rewrite Heq. reflexivity. }
    rewrite Qsum_zero. by vm_compute. }
  destruct fuel as [|[|fuel]]; [lia | lia |].
  unfold iterate_pagerank, iterate_until_convergence.
  rewrite initial_ranks_eq. fold r0.
  rewrite iterate_loop_unfold by apply dom_table_of.
  destruct (Qlt_le_dec threshold (difference_of corpus d r0)) as [_ | Hle];
    [|lra].
  rewrite Hnext.
  rewrite iterate_loop_unfold by apply dom_table_of.
  destruct (Qlt_le_dec threshold (difference_of corpus d r1)) as [Hlt | _];
    [lra |].
  f_equal. apply normalize_zero.
  - unfold r1. rewrite size_table_of. lia.
  - unfold r1. rewrite total_constant, Hc. ring.
Qed.

Lemma iterate_pagerank_zero_total_witness :
  iterate_pagerank 2 corpus_isolated 1 = Some (Raise ZeroDivisionError).
Proof.
  apply iterate_pagerank_zero_total.
  - vm_compute. lia.
  - apply (bool_decide_unpack _). vm_compute. exact I.
  - reflexivity.
  - lia.
Defined.

(** ** [sample_pagerank]: beyond graphs *)

(** One turn of the sampling loop, when the table of the current page
    has a positive total. *)
Lemma sampling_turn_positive (corpus : gmap string (gset string)) (d u : Q)
    (page0 : string) (visit_counts : gmap string Z) :
  (∀ page dist,
     transition_model corpus page d = Ok dist → (0 < Qsum (Py.values dist))%Q) →
  sampling_inv corpus (page0, visit_counts) →
  ∃ dist page count,
    transition_model corpus page0 d = Ok dist ∧
    Random.choices1 u (Py.keys dist) (Py.values dist) = Ok page ∧
    Py.getitem visit_counts page = Ok count ∧
    sampling_inv corpus (page, <[page := count + 1]> visit_counts) ∧
    total_visits (<[page := count + 1]> visit_counts) =
      total_visits visit_counts + 1.
Proof.
  intros Hpositive Hinv. pose proof Hinv as ([links Hlinks] & _ & _).
  simpl in Hlinks.
  pose proof (transition_model_eq corpus page0 d links Hlinks) as Hdist.
  set (dist := table_of _ corpus) in Hdist.
  destruct (choices1_ok u (Py.keys dist) (Py.values dist)) as (page & Hpage & Hin).
  { by rewrite length_keys, length_values. }
  { intros Hnil. assert (Hk : page0 ∈ Py.keys dist).
    { apply elem_of_keys. unfold dist. rewrite lookup_table_of, Hlinks. eauto. }
    rewrite Hnil in Hk. by apply elem_of_nil in Hk. }
  { by eapply Hpositive. }
  assert (Hcorpus : is_Some (corpus !! page)).
  { apply elem_of_keys in Hin. unfold dist in Hin.
    rewrite lookup_table_of in Hin. by apply fmap_is_Some in Hin. }
  destruct (sampling_inv_visit corpus page0 page visit_counts Hinv Hcorpus)
    as (count & Hcount & Hinv' & Htotal).
  by exists dist, page, count.
Qed.

(** The sampler returns visit frequencies whenever every table it
    draws from has a positive total. *)
Lemma sample_pagerank_positive (randbelow : nat) (random : Z → Q)
    (corpus : gmap string (gset string)) (d : Q) (n : Z) :
  (∀ page dist,
     transition_model corpus page d = Ok dist → (0 < Qsum (Py.values dist))%Q) →
  (randbelow < size corpus)%nat →
  1 ≤ n →
  ∃ (visit_count : gmap string Z) (ranks : gmap string Q),
    sample_pagerank randbelow random corpus d n = Ok ranks ∧
    dom ranks = dom corpus ∧
    dom visit_count = dom corpus ∧
    (∀ page c, visit_count !! page = Some c →
       0 ≤ c ∧ ranks !! page = Some (inject_Z c / inject_Z n)%Q) ∧
    Zsum (Py.values visit_count) = n ∧
    (∀ page v, ranks !! page = Some v → (0 <= v)%Q ∧ (v <= 1)%Q) ∧
    (Py.sum (Py.values ranks) == 1)%Q.
Proof.
  intros Hpositive Hstart Hn. unfold sample_pagerank.
  rewrite (for_in_table (λ _, 0) corpus) by done. cbn [mbind result_bind].
  destruct (item_lt (Py.keys corpus) randbelow) as (page0 & Hpage0 & Hin0).
  { by rewrite length_keys. }
  unfold Random.choice. rewrite Hpage0. cbn [mbind result_bind].
  apply elem_of_keys in Hin0.
  destruct (sampling_inv_visit corpus page0 page0 (table_of (λ _, 0) corpus))
    as (count & -> & Hinv0 & Htotal0); [|done|].
  { split; [done |]. split; [apply dom_table_of |]. simpl.
    intros page c. rewrite lookup_table_of.
    destruct (corpus !! page); [|done]. by intros [= <-]. }
  cbn [mbind result_bind]. rewrite total_visits_zero in Htotal0.
  match goal with
  | |- context [Py.for_in ?xs ?body ?s] =>
      destruct (for_in_invariant
        (λ turn st, sampling_inv corpus st ∧ total_visits st.2 = 1 + Z.of_nat turn)
        body xs s 0) as ([last_page visit_counts] & -> & Hinv & Htotal)
  end.
  { split; [exact Hinv0 |]. simpl. lia. }
  { intros i [page visit_counts] turn _ [Hinv Htotal].
    destruct (sampling_turn_positive corpus d (random i) page visit_counts
                Hpositive Hinv)
      as (dist & page' & count' & -> & Hdraw & Hcount & Hinv' & Htotal').
    cbn [mbind result_bind]. rewrite Hdraw. cbn [mbind result_bind].
    rewrite Hcount. cbn [mbind result_bind].
    eexists. split; [done |]. split; [done |]. simpl in *. lia. }
  cbn [mbind result_bind]. simpl in Htotal.
  rewrite length_range in Htotal.
  destruct Hinv as (_ & Hdom & Hnonneg). simpl in Hdom, Hnonneg.
  assert (HnQ : ¬ (inject_Z n == 0)%Q) by (apply inject_Z_nonzero; lia).
  rewrite (for_in_table (λ page, (inject_Z (visit_counts !!! page) / inject_Z n)%Q)).
  2:{ intros page acc Hpage. apply elem_of_keys, elem_of_dom in Hpage.
      rewrite <- Hdom in Hpage. apply elem_of_dom in Hpage as [c Hc].
      rewrite (getitem_Some _ _ _ Hc). cbn [mbind result_bind].
      rewrite truediv_ok by done. cbn [mbind result_bind].
      by rewrite (lookup_total_correct _ _ _ Hc). }
  rewrite (table_of_lookup_total (λ c, (inject_Z c / inject_Z n)%Q)) by done.
  assert (Hsum : Zsum (Py.values visit_counts) = n).
  { unfold total_visits in Htotal. lia. }
  exists visit_counts. eexists. split; [done |].
  split; [by rewrite dom_fmap_L |]. split; [done |].
  split; [|split; [done | split]].
  - intros page c Hc. split; [by eapply Hnonneg |].
    by rewrite lookup_fmap, Hc.
  - intros page v. rewrite lookup_fmap.
    destruct (visit_counts !! page) as [c|] eqn:Hc; [|done]. intros [= <-].
    destruct (Zsum_elem_le (Py.values visit_counts) c) as [_ Hle].
    { intros y [k Hk]%elem_of_values. by eapply Hnonneg. }
    { apply elem_of_values. eauto. }
    apply Qdiv_unit_interval; [by eapply Hnonneg | lia | done].
  - rewrite sum_Qsum, values_fmap.
    rewrite (list_fmap_compose inject_Z (λ x, (x / inject_Z n)%Q)).
    rewrite Qsum_scale, Qsum_inject_Z, Hsum. by field.
Qed.

(** With a damping factor below 1 every table has a positive total,
    also when links lead outside the corpus. *)
Lemma transition_model_total_positive (corpus : gmap string (gset string))
    (page : string) (d : Q) (dist : gmap string Q) :
  (d < 1)%Q →
  transition_model corpus page d = Ok dist →
  (0 < Qsum (Py.values dist))%Q.
Proof.
  intros Hd Hdist.
  destruct (corpus !! page) as [links|] eqn:Hp.
  2:{ assert (Hraise : transition_model corpus page d = Raise KeyError).
      { unfold transition_model. by rewrite (getitem_None _ _ Hp). }
      congruence. }
  destruct (decide (size links = 0%nat)) as [Hz | Hnz].
  - apply size_empty_iff, leibniz_equiv in Hz. subst links.
    rewrite (transition_model_sum corpus page d ∅ dist Hp); [reflexivity | | done].
    set_solver.
  - rewrite (transition_model_total corpus page d links dist Hp) by (done || lia).
    pose proof (size_inter_difference links (dom corpus)) as Hsplit.
    set (out := size (links ∖ dom corpus)) in *.
    assert (HK : (0 < inject_Z (Z.of_nat (size links)))%Q)
      by (apply inject_Z_of_nat_pos; lia).
    pose proof (inject_Z_of_nat_nonneg out) as Hout.
    assert (Hle : (inject_Z (Z.of_nat out) <= inject_Z (Z.of_nat (size links)))%Q)
      by (unfold Qle; simpl; lia).
    set (f := (inject_Z (Z.of_nat out) / inject_Z (Z.of_nat (size links)))%Q).
    assert (Hf0 : (0 <= f)%Q) by (apply Qdiv_nonneg; lra).
    assert (Hf1 : (f <= 1)%Q) by (apply Qle_shift_div_r; lra).
    destruct (Qlt_le_dec d 0) as [Hneg | Hpos].
    + assert (d * f <= 0 * f)%Q by (apply Qmult_le_compat_r; lra). lra.
    + assert (d * f <= d * 1)%Q by (by apply Qmult_le_nonneg_l). lra.
Qed.

(** ** [sample_pagerank]: the counters count the walk *)

Lemma visits_snoc (page last : string) (walk : list string) :
  visits page (walk ++ [last]) =
  visits page walk + (if decide (last = page) then 1 else 0).
Proof.
  unfold visits. rewrite filter_app, length_app, filter_cons, filter_nil.
  destruct (decide (last = page)); simpl; lia.
Qed.

Lemma visits_le (page : string) (walk : list string) :
  0 ≤ visits page walk ∧ visits page walk ≤ Z.of_nat (length walk).
Proof.
  unfold visits. pose proof (length_filter (λ p, p = page) walk). lia.
Qed.

(** The sampling loop and the loop of the walk, turn by turn: when
    every table has a positive total, both run to their end, they end
    on the same page, and the counter of every page is the number of
    times the walk is at that page. *)
Lemma sampling_walk_loop (random : Z → Q) (corpus : gmap string (gset string))
    (d : Q) (turns : list Z) (page : string) (visit_counts : gmap string Z)
    (walk : list string) :
  (∀ page dist,
     transition_model corpus page d = Ok dist → (0 < Qsum (Py.values dist))%Q) →
  sampling_inv corpus (page, visit_counts) →
  (∀ p, is_Some (corpus !! p) → visit_counts !! p = Some (visits p walk)) →
  Forall (λ p, is_Some (corpus !! p)) walk →
  ∃ (page' : string) (visit_counts' : gmap string Z) (walk' : list string),
    Py.for_in turns
      (λ i '(random_page, visit_counts),
         probability_distribution ← transition_model corpus random_page d;
         random_page ← Random.choices1 (random i)
           (Py.keys probability_distribution)
           (Py.values probability_distribution);
         count ← Py.getitem visit_counts random_page;
         Ok (random_page, <[random_page := count + 1]> visit_counts))
      (page, visit_counts) = Ok (page', visit_counts') ∧
    Py.for_in turns (walk_turn random corpus d) (page, walk) = Ok (page', walk') ∧
    sampling_inv corpus (page', visit_counts') ∧
    (∀ p, is_Some (corpus !! p) → visit_counts' !! p = Some (visits p walk')) ∧
    Forall (λ p, is_Some (corpus !! p)) walk' ∧
    length walk' = (length walk + length turns)%nat.
Proof.
  intros Hpositive. revert page visit_counts walk.
  induction turns as [|i turns IH]; intros page visit_counts walk Hinv Hcount Hwalk.
  - exists page, visit_counts, walk. cbn [Py.for_in length].
    do 5 (split; [done |]). lia.
  - destruct (sampling_turn_positive corpus d (random i) page visit_counts
                Hpositive Hinv)
      as (dist & page1 & count & Hdist & Hdraw & Hget & Hinv1 & _).
    assert (Hpage1 : is_Some (corpus !! page1)) by (by destruct Hinv1).
    assert (Hc : count = visits page1 walk).
    { rewrite (getitem_Some _ _ _ (Hcount page1 Hpage1)) in Hget. congruence. }
    destruct (IH page1 (<[page1 := count + 1]> visit_counts) (walk ++ [page1]))
      as (page' & visit_counts' & walk' & Hloop & Hloop' & Hinv' & Hcount' & Hwalk' & Hlen);
      [done | |  |].
    { intros p Hp. rewrite visits_snoc.
      destruct (decide (page1 = p)) as [<- | Hne].
      - rewrite lookup_insert_eq. by rewrite Hc.
      - rewrite lookup_insert_ne by done. rewrite (Hcount p Hp).
        f_equal. lia. }
    { apply Forall_app. split; [done |]. by apply Forall_singleton. }
    exists page', visit_counts', walk'.
    split; [|split; [|split; [done | split; [done | split; [done |]]]]].
    + cbn [Py.for_in]. rewrite Hdist. cbn [mbind result_bind].
      rewrite Hdraw. cbn [mbind result_bind]. rewrite Hget.
      cbn [mbind result_bind]. exact Hloop.
    + cbn [Py.for_in walk_turn]. rewrite Hdist. cbn [mbind result_bind].
      rewrite Hdraw. cbn [mbind result_bind]. exact Hloop'.
    + rewrite Hlen, length_app. simpl. lia.
Qed.

Lemma Zsum_cons (x : Z) (xs : list Z) : Zsum (x :: xs) = x + Zsum xs.
Proof. done. Qed.

(** A page that is not among [ks] adds nothing to their counters. *)
Lemma visits_snoc_other (last : string) (walk ks : list string) :
  last ∉ ks →
  Zsum ((λ page, visits page (walk ++ [last])) <$> ks) =
  Zsum ((λ page, visits page walk) <$> ks).
Proof.
  induction ks as [|k ks IH]; intros Hlast; [done |].
  rewrite !fmap_cons, !Zsum_cons, visits_snoc, IH by set_solver.
  destruct (decide (last = k)) as [-> | _]; [set_solver | lia].
Qed.

(** A page that is among [ks] adds one. *)
Lemma visits_snoc_among (last : string) (walk ks : list string) :
  NoDup ks → last ∈ ks →
  Zsum ((λ page, visits page (walk ++ [last])) <$> ks) =
  Zsum ((λ page, visits page walk) <$> ks) + 1.
Proof.
  induction ks as [|k ks IH]; intros Hnd Hlast; [by apply elem_of_nil in Hlast |].
  apply NoDup_cons in Hnd as [Hk Hnd].
  rewrite !fmap_cons, !Zsum_cons, visits_snoc.
  destruct (decide (last = k)) as [-> | Hne].
  - rewrite visits_snoc_other by done. lia.
  - apply elem_of_cons in Hlast as [-> | Hlast]; [done |].
    rewrite IH by done. lia.
Qed.

(** The counters of a table that counts a walk inside the corpus add up
    to the length of the walk. *)
Lemma visits_total (corpus : gmap string (gset string)) (walk : list string) :
  Forall (λ p, is_Some (corpus !! p)) walk →
  Zsum ((λ page, visits page walk) <$> Py.keys corpus) = Z.of_nat (length walk).
Proof.
  induction walk as [|w walk IH] using rev_ind; intros Hwalk.
  - induction (Py.keys corpus) as [|k ks IH]; [done |].
    rewrite fmap_cons, Zsum_cons, IH. done.
  - apply Forall_app in Hwalk as [Hwalk Hw]. rewrite Forall_singleton in Hw.
    rewrite visits_snoc_among; [|apply keys_NoDup | by apply elem_of_keys].
    rewrite IH, length_app by done. simpl. lia.
Qed.

(** The sampler against its walk, whenever every table it draws from
    has a positive total. *)
Lemma sample_pagerank_walk (randbelow : nat) (random : Z → Q)
    (corpus : gmap string (gset string)) (d : Q) (n : Z) :
  (∀ page dist,
     transition_model corpus page d = Ok dist → (0 < Qsum (Py.values dist))%Q) →
  (randbelow < size corpus)%nat →
  1 ≤ n →
  ∃ (walk : list string) (ranks : gmap string Q),
    sample_walk randbelow random corpus d n = Ok walk ∧
    sample_pagerank randbelow random corpus d n = Ok ranks ∧
    Z.of_nat (length walk) = n ∧
    (∀ page, page ∈ walk → page ∈ dom corpus) ∧
    dom ranks = dom corpus ∧
    (∀ page, page ∈ dom corpus →
       0 ≤ visits page walk ∧
       ranks !! page = Some (inject_Z (visits page walk) / inject_Z n)%Q) ∧
    Zsum ((λ page, visits page walk) <$> Py.keys corpus) = n ∧
    (∀ page v, ranks !! page = Some v → (0 <= v)%Q ∧ (v <= 1)%Q) ∧
    (Py.sum (Py.values ranks) == 1)%Q.
Proof.
  intros Hpositive Hstart Hn. unfold sample_pagerank, sample_walk.
  rewrite (for_in_table (λ _, 0) corpus) by done. cbn [mbind result_bind].
  destruct (item_lt (Py.keys corpus) randbelow) as (page0 & Hpage0 & Hin0).
  { by rewrite length_keys. }
  unfold Random.choice. rewrite Hpage0. cbn [mbind result_bind].
  apply elem_of_keys in Hin0.
  assert (Hzero : ∀ p, is_Some (corpus !! p) →
            table_of (λ _ : string, 0) corpus !! p = Some 0).
  { intros p [links Hp]. by rewrite lookup_table_of, Hp. }
  destruct (sampling_inv_visit corpus page0 page0 (table_of (λ _, 0) corpus))
    as (count & Hget & Hinv0 & _); [|done|].
  { split; [done |]. split; [apply dom_table_of |]. simpl.
    intros page c. rewrite lookup_table_of.
    destruct (corpus !! page); [|done]. by intros [= <-]. }
  assert (Hc : count = 0).
  { rewrite (getitem_Some _ _ _ (Hzero page0 Hin0)) in Hget. congruence. }
  rewrite Hget. cbn [mbind result_bind]. subst count.
  destruct (sampling_walk_loop random corpus d (Py.range 1 n) page0
              (<[page0 := 0 + 1]> (table_of (λ _, 0) corpus)) [page0])
    as (last_page & visit_counts & walk & Hloop & Hloop' & Hinv & Hcount & Hwalk & Hlen);
    [done | done | | |].
  { intros p Hp. unfold visits. rewrite filter_cons, filter_nil.
    destruct (decide (page0 = p)) as [<- | Hne].
    - by rewrite lookup_insert_eq.
    - rewrite lookup_insert_ne by done. by apply Hzero. }
  { by apply Forall_singleton. }
  rewrite Hloop, Hloop'. cbn [mbind result_bind].
  rewrite length_range in Hlen. simpl in Hlen.
  destruct Hinv as (_ & Hdom & Hnonneg). simpl in Hdom, Hnonneg.
  assert (HnQ : ¬ (inject_Z n == 0)%Q) by (apply inject_Z_nonzero; lia).
  rewrite (for_in_table (λ page, (inject_Z (visit_counts !!! page) / inject_Z n)%Q)).
  2:{ intros page acc Hpage. apply elem_of_keys, elem_of_dom in Hpage.
      rewrite <- Hdom in Hpage. apply elem_of_dom in Hpage as [c Hc].
      rewrite (getitem_Some _ _ _ Hc). cbn [mbind result_bind].
      rewrite truediv_ok by done. cbn [mbind result_bind].
      by rewrite (lookup_total_correct _ _ _ Hc). }
  rewrite (table_of_lookup_total (λ c, (inject_Z c / inject_Z n)%Q)) by done.
  assert (Hlength : Z.of_nat (length walk) = n) by lia.
  assert (Htable : visit_counts = table_of (λ page, visits page walk) corpus).
  { apply map_eq. intros p. rewrite lookup_table_of.
    destruct (corpus !! p) as [links|] eqn:Hp.
    - by rewrite (Hcount p) by eauto.
    - apply not_elem_of_dom. rewrite Hdom. by apply not_elem_of_dom. }
  assert (Hsum : Zsum (Py.values visit_counts) = n).
  { rewrite Htable, (Zsum_perm _ _ (values_table_of _ _)).
    by rewrite visits_total. }
  exists walk. eexists. split; [done |]. split; [done |]. split; [done |].
  split; [|split; [by rewrite dom_fmap_L | split; [|split; [|split]]]].
  - intros page Hpage. apply elem_of_dom.
    by apply (proj1 (Forall_forall _ _) Hwalk).
  - intros page Hpage%elem_of_dom. split; [apply visits_le |].
    by rewrite lookup_fmap, (Hcount page Hpage).
  - rewrite <- Hsum, Htable at 1. symmetry.
    apply Zsum_perm, values_table_of.
  - intros page v. rewrite lookup_fmap.
    destruct (visit_counts !! page) as [c|] eqn:Hc; [|done]. intros [= <-].
    destruct (Zsum_elem_le (Py.values visit_counts) c) as [_ Hle].
    { intros y [k Hk]%elem_of_values. by eapply Hnonneg. }
    { apply elem_of_values. eauto. }
    apply Qdiv_unit_interval; [by eapply Hnonneg | lia | done].
  - rewrite sum_Qsum, values_fmap.
    rewrite (list_fmap_compose inject_Z (λ x, (x / inject_Z n)%Q)).
    rewrite Qsum_scale, Qsum_inject_Z, Hsum. by field.
Qed.

(** C3 fails on the code as it is stated: on the corpus [{A: {X}}],
    whose only link leads to no page of the corpus, with damping factor
    1 and [n = 2], every weight of the first draw is 0 and
    [random.choices] raises [ValueError]; no table is returned. *)
Lemma sample_pagerank_not_total :
  (1 ≤ size (<["A" := {["X"]}]> (∅ : gmap string (gset string))))%nat ∧
  1 ≤ 2 ∧
  sample_pagerank 0 (λ _, 0%Q) (<["A" := {["X"]}]> ∅) 1 2 = Raise ValueError ∧
  ¬ ∃ ranks, sample_pagerank 0 (λ _, 0%Q) (<["A" := {["X"]}]> ∅) 1 2 = Ok ranks.
Proof.
  split; [vm_compute; lia |]. split; [lia |].
  split; [vm_compute; reflexivity |].
  intros [ranks Hranks]. vm_compute in Hranks. discriminate.
Qed.

(** C3, as the code has it: for a corpus with at least one page, a
    damping factor in [0, 1] that is below 1 unless every link of the
    corpus leads to a page of the corpus, every [n >= 1] and every
    outcome of the random choices (the index [randbelow] of the start
    page, below the number of pages, and the numbers [random i] of the
    weighted draws), [sample_pagerank] returns a table with one entry
    per page. The walk (the start page and the page of every draw) has
    [n] pages, all of the corpus; the entry of a page is the number of
    times the walk is at it, divided by [n]; these counts are not
    negative and add up to [n]; so every value lies in [0, 1] and the
    values add up to 1. *)
Theorem sample_pagerank_visit_frequencies (randbelow : nat) (random : Z → Q)
    (corpus : gmap string (gset string)) (d : Q) (n : Z) :
  (randbelow < size corpus)%nat →
  (0 <= d)%Q → (d <= 1)%Q →
  (d < 1)%Q ∨ links_closed corpus →
  1 ≤ n →
  ∃ (walk : list string) (ranks : gmap string Q),
    sample_walk randbelow random corpus d n = Ok walk ∧
    sample_pagerank randbelow random corpus d n = Ok ranks ∧
    Z.of_nat (length walk) = n ∧
    (∀ page, page ∈ walk → page ∈ dom corpus) ∧
    dom ranks = dom corpus ∧
    (∀ page, page ∈ dom corpus →
       0 ≤ visits page walk ∧
       ranks !! page = Some (inject_Z (visits page walk) / inject_Z n)%Q) ∧
    Zsum ((λ page, visits page walk) <$> Py.keys corpus) = n ∧
    (∀ page v, ranks !! page = Some v → (0 <= v)%Q ∧ (v <= 1)%Q) ∧
    (Py.sum (Py.values ranks) == 1)%Q.
Proof.
  intros Hstart _ _ Hcase Hn. apply sample_pagerank_walk; [|done | done].
  intros page dist Hdist. destruct Hcase as [Hd | Hclosed].
  - by eapply transition_model_total_positive.
  - destruct (corpus !! page) as [links|] eqn:Hp.
    + rewrite (transition_model_sum corpus page d links dist Hp); [reflexivity | | done].
      by eapply Hclosed.
    + unfold transition_model in Hdist. by rewrite (getitem_None _ _ Hp) in Hdist.
Qed.

Lemma sample_pagerank_visit_frequencies_witness :
  ∃ (walk : list string) (ranks : gmap string Q),
    sample_walk 1 (λ i, (inject_Z i / 7)%Q) corpus_example (17 # 20) 5 = Ok walk ∧
    sample_pagerank 1 (λ i, (inject_Z i / 7)%Q) corpus_example (17 # 20) 5
      = Ok ranks ∧
    Z.of_nat (length walk) = 5 ∧
    (∀ page, page ∈ walk → page ∈ dom corpus_example) ∧
    dom ranks = dom corpus_example ∧
    (∀ page, page ∈ dom corpus_example →
       0 ≤ visits page walk ∧
       ranks !! page = Some (inject_Z (visits page walk) / inject_Z 5)%Q) ∧
    Zsum ((λ page, visits page walk) <$> Py.keys corpus_example) = 5 ∧
    (∀ page v, ranks !! page = Some v → (0 <= v)%Q ∧ (v <= 1)%Q) ∧
    (Py.sum (Py.values ranks) == 1)%Q.
Proof.
  apply sample_pagerank_visit_frequencies.
  - vm_compute. lia.
  - unfold Qle. simpl. lia.
  - unfold Qle. simpl. lia.
  - right. apply (bool_decide_unpack _). vm_compute. exact I.
  - lia.
Defined.



(** X13: with [n = 1], [sample_pagerank] draws the start page and
    nothing else: it returns rank 1 for the start page and 0 for every
    other page, whatever the damping factor and the links. *)
Theorem sample_pagerank_single (randbelow : nat) (random : Z → Q)
    (corpus : gmap string (gset string)) (d : Q) :
  (randbelow < size corpus)%nat →
  ∃ start,
    Py.keys corpus !! randbelow = Some start ∧
    sample_pagerank randbelow random corpus d 1 =
      Ok (table_of (λ page, if decide (page = start) then 1%Q else 0%Q) corpus).
Proof.
  intros Hstart.
  destruct (lookup_lt_is_Some_2 (Py.keys corpus) randbelow) as [start Hs].
  { by rewrite length_keys. }
  exists start. split; [done |].
  unfold sample_pagerank.
  rewrite (for_in_table (λ _, 0) corpus) by done. cbn [mbind result_bind].
  unfold Random.choice. rewrite (item_Some _ _ _ Hs). cbn [mbind result_bind].
  assert (Hin : is_Some (corpus !! start)).
  { apply elem_of_keys. by eapply list_elem_of_lookup_2. }
  destruct Hin as [links Hlinks].
  rewrite (getitem_Some _ start 0) by (by rewrite lookup_table_of, Hlinks).
  cbn [mbind result_bind].
  change (Py.range 1 1) with (@nil Z). cbn [Py.for_in mbind result_bind].
  apply for_in_table. intros page acc [ls Hpage]%elem_of_keys.
  destruct (decide (page = start)) as [-> | Hne].
  - by rewrite (getitem_Some _ start 1) by (by rewrite lookup_insert_eq).
  - by rewrite (getitem_Some _ page 0)
      by (by rewrite lookup_insert_ne, lookup_table_of, Hpage).
Qed.

Lemma sample_pagerank_single_witness :
  ∃ start,
    Py.keys corpus_example !! 1%nat = Some start ∧
    sample_pagerank 1 (λ _, 0%Q) corpus_example (17 # 20) 1 =
      Ok (table_of (λ page, if decide (page = start) then 1%Q else 0%Q)
            corpus_example).
Proof.
  apply sample_pagerank_single. vm_compute. lia.
Defined.

(** X14: with the damping factor 1, a start page whose links all lead
    outside the corpus, and a budget [n >= 2], [sample_pagerank] raises
    the [ValueError] of [random.choices]: every weight of the first
    draw is 0. *)
Theorem sample_pagerank_links_outside (randbelow : nat) (random : Z → Q)
    (corpus : gmap string (gset string)) (d : Q) (n : Z)
    (start : string) (links : gset string) :
  Py.keys corpus !! randbelow = Some start →
  corpus !! start = Some links →
  links ≠ ∅ →
  links ## dom corpus →
  (d == 1)%Q →
  2 ≤ n →
  sample_pagerank randbelow random corpus d n = Raise ValueError.
Proof.
  intros Hs Hlinks Hne Hdisj Hd Hn.
  unfold sample_pagerank.
  rewrite (for_in_table (λ _, 0) corpus) by done. cbn [mbind result_bind].
  unfold Random.choice. rewrite (item_Some _ _ _ Hs). cbn [mbind result_bind].
  rewrite (getitem_Some _ start 0) by (by rewrite lookup_table_of, Hlinks).
  cbn [mbind result_bind].
  destruct (Py.range 1 n) as [|i turns] eqn:Hrange.
  { apply (f_equal length) in Hrange. rewrite length_range in Hrange.
    simpl in Hrange. lia. }
  cbn [Py.for_in mbind result_bind].
  pose proof (transition_model_eq corpus start d links Hlinks) as Hdist.
  rewrite Hdist. cbn [mbind result_bind].
  set (dist := table_of _ corpus) in *.
  assert (Hk : (0 < size links)%nat).
  { assert (size links ≠ 0%nat); [|lia].
    intros Hz. by apply size_empty_iff, leibniz_equiv in Hz. }
  rewrite choices1_ValueError; [done | | |].
  - by rewrite length_keys, length_values.
  - intros Hnil. assert (Hin : start ∈ Py.keys dist).
    { apply elem_of_keys. unfold dist. rewrite lookup_table_of, Hlinks. eauto. }
    rewrite Hnil in Hin. by apply elem_of_nil in Hin.
  - rewrite (transition_model_total corpus start d links dist Hlinks Hk Hdist).
    replace (links ∖ dom corpus) with links by set_solver.
    assert (¬ (inject_Z (Z.of_nat (size links)) == 0)%Q)
      by (apply inject_Z_nonzero; lia).
    rewrite Hd. apply Qle_lteq. right. by field.
Qed.

Lemma sample_pagerank_links_outside_witness :
  sample_pagerank 0 (λ _, 0%Q) (<["A" := {["X"]}]> ∅) 1 2 = Raise ValueError.
Proof.
  apply (sample_pagerank_links_outside 0 (λ _, 0%Q) (<["A" := {["X"]}]> ∅) 1 2
           "A" {["X"]}).
  - reflexivity.
  - reflexivity.
  - apply (bool_decide_unpack _). vm_compute. exact I.
  - apply (bool_decide_unpack _). vm_compute. exact I.
  - reflexivity.
  - lia.
Defined.

(** ** The weighted draw lands on a positive weight *)

Lemma accumulate_from_lookup_0 (t : Q) (ws : list Q) :
  Random.accumulate_from t ws !! 0%nat = (λ w, (t + w)%Q) <$> ws !! 0%nat.
Proof. by destruct ws. Qed.

Lemma accumulate_from_lookup_S (t : Q) (ws : list Q) (i : nat) (c : Q) :
  Random.accumulate_from t ws !! S i = Some c →
  ∃ c' w,
    Random.accumulate_from t ws !! i = Some c' ∧
    ws !! S i = Some w ∧ c = (c' + w)%Q.
Proof.
  revert t i. induction ws as [|w0 ws IH]; intros t i; [done |].
  cbn [Random.accumulate_from]. rewrite lookup_cons_ne_0 by done. simpl.
  destruct i as [|i].
  - rewrite accumulate_from_lookup_0.
    destruct (ws !! 0%nat) as [w1|] eqn:Hw1; [|done]. intros [= <-].
    exists (t + w0)%Q, w1. done.
  - intros Hc. destruct (IH _ _ Hc) as (c' & w & Hc' & Hw & ->).
    exists c', w. done.
Qed.

Lemma accumulate_lookup_0 (ws : list Q) :
  Random.accumulate ws !! 0%nat = ws !! 0%nat.
Proof. by destruct ws. Qed.

Lemma accumulate_lookup_S (ws : list Q) (i : nat) (c : Q) :
  Random.accumulate ws !! S i = Some c →
  ∃ c' w,
    Random.accumulate ws !! i = Some c' ∧ ws !! S i = Some w ∧ c = (c' + w)%Q.
Proof.
  destruct ws as [|w0 ws]; [done |].
  cbn [Random.accumulate]. rewrite lookup_cons_ne_0 by done. simpl.
  destruct i as [|i].
  - rewrite accumulate_from_lookup_0.
    destruct (ws !! 0%nat) as [w1|] eqn:Hw1; [|done]. intros [= <-].
    exists w0, w1. done.
  - intros Hc. destruct (accumulate_from_lookup_S _ _ _ _ Hc)
      as (c' & w & Hc' & Hw & ->).
    exists c', w. done.
Qed.

(** The running totals of non-negative weights never go down. *)
Lemma accumulate_monotone (ws : list Q) (i j : nat) (ci cj : Q) :
  (∀ w, w ∈ ws → (0 <= w)%Q) →
  (i ≤ j)%nat →
  Random.accumulate ws !! i = Some ci →
  Random.accumulate ws !! j = Some cj →
  (ci <= cj)%Q.
Proof.
  intros Hws Hij Hi. revert cj. induction Hij as [|j Hij IH]; intros cj Hj.
  - rewrite Hi in Hj. injection Hj as <-. apply Qle_refl.
  - destruct (accumulate_lookup_S _ _ _ Hj) as (c' & w & Hc' & Hw & ->).
    specialize (IH c' Hc').
    assert (0 <= w)%Q by (eapply Hws, list_elem_of_lookup_2; done).
    lra.
Qed.

(** What the binary search returns on a list that never goes down:
    the entries before the index are at most [x], the entries from the
    index on, up to the bound [N], are above [x]. *)
Lemma bisect_loop_spec (fuel : nat) (a : list Q) (x : Q) (N lo hi i : nat) :
  (∀ j k aj ak, (j ≤ k)%nat → a !! j = Some aj → a !! k = Some ak →
     (aj <= ak)%Q) →
  (hi - lo ≤ fuel)%nat →
  (lo ≤ hi)%nat → (hi ≤ length a)%nat →
  (∀ j aj, (j < lo)%nat → a !! j = Some aj → (aj <= x)%Q) →
  (∀ j aj, (hi ≤ j)%nat → (j < N)%nat → a !! j = Some aj → (x < aj)%Q) →
  Random.bisect_loop fuel a x lo hi = Ok i →
  (lo ≤ i ≤ hi)%nat ∧
  (∀ j aj, (j < i)%nat → a !! j = Some aj → (aj <= x)%Q) ∧
  (∀ j aj, (i ≤ j)%nat → (j < N)%nat → a !! j = Some aj → (x < aj)%Q).
Proof.
  intros Hsorted. revert lo hi.
  induction fuel as [|fuel IH]; intros lo hi Hfuel Hlo Hhi Hbelow Habove;
    cbn [Random.bisect_loop].
  - intros [= <-]. split; [lia |]. split; [done |].
    intros j aj Hj HjN Haj. apply (Habove j aj); [lia | done | done].
  - destruct (decide (lo < hi)%nat) as [Hlt | Hge].
    + pose proof (bisect_mid lo hi Hlt) as Hmid.
      destruct (item_lt a ((lo + hi) `div` 2)) as (a_mid & Hitem & _); [lia |].
      rewrite Hitem. cbn [mbind result_bind].
      assert (Hamid : a !! ((lo + hi) `div` 2)%nat = Some a_mid).
      { unfold Random.item in Hitem.
        destruct (a !! ((lo + hi) `div` 2)%nat); by simplify_eq. }
      destruct (Qlt_le_dec x a_mid) as [Hx | Hx].
      * intros Hrun.
        destruct (IH lo ((lo + hi) `div` 2)%nat)
          as (Hi & Hb & Ha); [lia | lia | lia | done | | done |].
        { intros j aj Hj HjN Haj.
          pose proof (Hsorted _ _ _ _ Hj Hamid Haj). lra. }
        split; [lia | done].
      * intros Hrun.
        destruct (IH ((lo + hi) `div` 2 + 1)%nat hi)
          as (Hi & Hb & Ha); [lia | lia | lia | | done | done |].
        { intros j aj Hj Haj.
          assert (Hjm : (j ≤ (lo + hi) `div` 2)%nat) by lia.
          pose proof (Hsorted _ _ _ _ Hjm Haj Hamid). lra. }
        split; [lia | done].
    + intros [= <-]. split; [lia |]. split; [done |].
      intros j aj Hj HjN Haj. apply (Habove j aj); [lia | done | done].
Qed.

(** A weighted draw over non-negative weights, with the number drawn
    in [0, 1), returns an element whose weight is positive. *)
Lemma choices1_positive {A : Type} (u : Q) (population : list A)
    (weights : list Q) (x : A) :
  length weights = length population →
  (∀ w, w ∈ weights → (0 <= w)%Q) →
  (0 <= u)%Q → (u < 1)%Q →
  Random.choices1 u population weights = Ok x →
  ∃ i w, population !! i = Some x ∧ weights !! i = Some w ∧ (0 < w)%Q.
Proof.
  intros Hlen Hws Hu0 Hu1. unfold Random.choices1.
  rewrite decide_False by (rewrite length_accumulate; lia).
  set (cum := Random.accumulate weights).
  destruct (Random.item cum (length cum - 1)) as [total | e] eqn:Htotal; [|done].
  cbn [mbind result_bind].
  destruct (Qlt_le_dec 0 total) as [Hpos | _]; [|done].
  destruct (Random.bisect cum (u * total) 0 (length population - 1))
    as [i | e] eqn:Hbisect; [|done].
  cbn [mbind result_bind]. intros Hitem.
  assert (Hx : population !! i = Some x).
  { unfold Random.item in Hitem. destruct (population !! i); by simplify_eq. }
  assert (Hlast : cum !! (length cum - 1)%nat = Some total).
  { unfold Random.item in Htotal.
    destruct (cum !! (length cum - 1)%nat); by simplify_eq. }
  assert (Hcumlen : length cum = length population).
  { unfold cum. by rewrite length_accumulate. }
  pose proof (lookup_lt_Some _ _ _ Hx) as Hi.
  unfold Random.bisect in Hbisect.
  destruct (bisect_loop_spec (length population - 1 - 0) cum (u * total)
              (length population - 1) 0 (length population - 1) i)
    as (_ & Hbelow & Habove).
  { intros j k aj ak. by apply accumulate_monotone. }
  { lia. } { lia. } { lia. }
  { intros j aj Hj. lia. }
  { intros j aj Hj1 Hj2. lia. }
  { done. }
  assert (Hxq : (0 <= u * total)%Q) by (apply Qmult_le_0_compat; lra).
  assert (Hxt : (u * total < total)%Q).
  { assert (u * total < 1 * total)%Q by (apply Qmult_lt_compat_r; lra). lra. }
  destruct (lookup_lt_is_Some_2 cum i) as [ci Hci]; [lia |].
  assert (Hgt : (u * total < ci)%Q).
  { destruct (decide (i < length population - 1)%nat) as [Hlt | Hge].
    - by apply (Habove i ci).
    - replace i with (length cum - 1)%nat in Hci by lia.
      rewrite Hlast in Hci. injection Hci as <-. done. }
  exists i. destruct i as [|i].
  - unfold cum in Hci. rewrite accumulate_lookup_0 in Hci.
    exists ci. split; [done |]. split; [done | lra].
  - destruct (accumulate_lookup_S _ _ _ Hci) as (c' & w & Hc' & Hw & ->).
    exists w. split; [done |]. split; [done |].
    assert (c' <= u * total)%Q by (apply (Hbelow i c'); [lia | done]).
    lra.
Qed.

(** The entry of a table drawn by position. *)
Lemma keys_values_lookup {V : Type} (d : gmap string V) (i : nat)
    (k : string) (v : V) :
  Py.keys d !! i = Some k → Py.values d !! i = Some v → d !! k = Some v.
Proof.
  unfold Py.keys, Py.values. rewrite !list_lookup_fmap.
  destruct (map_to_list d !! i) as [[k' v']|] eqn:E; [|done].
  simpl. intros [= <-] [= <-].
  by eapply elem_of_map_to_list, list_elem_of_lookup_2.
Qed.

Lemma transition_model_nonneg (corpus : gmap string (gset string))
    (page : string) (d : Q) (dist : gmap string Q) :
  (0 <= d)%Q → (d <= 1)%Q →
  transition_model corpus page d = Ok dist →
  ∀ w, w ∈ Py.values dist → (0 <= w)%Q.
Proof.
  intros Hd0 Hd1 Hdist.
  destruct (corpus !! page) as [links|] eqn:Hp.
  2:{ assert (Hraise : transition_model corpus page d = Raise KeyError).
      { unfold transition_model. by rewrite (getitem_None _ _ Hp). }
      congruence. }
  rewrite (transition_model_eq _ _ _ _ Hp) in Hdist. injection Hdist as <-.
  intros w [q Hq]%elem_of_values. rewrite lookup_table_of in Hq.
  destruct (corpus !! q); [|done]. injection Hq as <-.
  assert (0 <= (1 - d) / inject_Z (Py.len corpus))%Q
    by (apply Qdiv_nonneg; [lra | apply inject_Z_of_nat_nonneg]).
  assert (0 <= d / inject_Z (Py.len_set links))%Q
    by (apply Qdiv_nonneg; [done | apply inject_Z_of_nat_nonneg]).
  destruct (decide (size links = 0%nat)).
  - apply Qdiv_nonneg; [lra | apply inject_Z_of_nat_nonneg].
  - destruct (decide (q ∈ links)); lra.
Qed.

(** A draw from a table without negative values, with the number
    drawn in [0, 1), returns a key whose value is positive. *)
Lemma draw_from_table (dist : gmap string Q) (u : Q) (next : string) :
  (∀ w, w ∈ Py.values dist → (0 <= w)%Q) →
  (0 <= u)%Q → (u < 1)%Q →
  Random.choices1 u (Py.keys dist) (Py.values dist) = Ok next →
  ∃ w, dist !! next = Some w ∧ (0 < w)%Q.
Proof.
  intros Hnonneg Hu0 Hu1 Hdraw.
  destruct (choices1_positive u (Py.keys dist) (Py.values dist) next)
    as (i & w & Hk & Hv & Hw); [| done | done | done | done |].
  { by rewrite length_keys, length_values. }
  exists w. split; [by eapply keys_values_lookup | done].
Qed.

(** X15: the page that a turn of the sampling loop draws has a
    positive probability in the table of the current page (damping
    factor in [0, 1], number drawn in [0, 1)): the walk never moves to
    a page of probability 0. *)
Theorem sampling_draw_positive (corpus : gmap string (gset string))
    (page : string) (d u : Q) (dist : gmap string Q) (next : string) :
  (0 <= d)%Q → (d <= 1)%Q →
  (0 <= u)%Q → (u < 1)%Q →
  transition_model corpus page d = Ok dist →
  Random.choices1 u (Py.keys dist) (Py.values dist) = Ok next →
  ∃ w, dist !! next = Some w ∧ (0 < w)%Q.
Proof.
  intros Hd0 Hd1 Hu0 Hu1 Hdist Hdraw.
  apply (draw_from_table dist u next); [|done..].
  exact (transition_model_nonneg corpus page d dist Hd0 Hd1 Hdist).
Qed.

Lemma sampling_draw_positive_witness :
  ∃ (dist : gmap string Q) (next : string),
    transition_model corpus_example "A" (17 # 20) = Ok dist ∧
    Random.choices1 (1 # 2) (Py.keys dist) (Py.values dist) = Ok next ∧
    ∃ w, dist !! next = Some w ∧ (0 < w)%Q.
Proof.
  eexists. eexists. split; [vm_compute; reflexivity |].
  split; [vm_compute; reflexivity |].
  eapply (sampling_draw_positive corpus_example "A" (17 # 20) (1 # 2)).
  - by vm_compute.
  - by vm_compute.
  - by vm_compute.
  - reflexivity.
  - vm_compute. reflexivity.
  - vm_compute. reflexivity.
Defined.

(** X16: with the damping factor 1, a turn of the sampling loop from a
    page that has links moves to one of the pages it links to. *)
Theorem sampling_follows_links (corpus : gmap string (gset string))
    (page : string) (links : gset string) (d u : Q) (dist : gmap string Q)
    (next : string) :
  corpus !! page = Some links →
  links ≠ ∅ →
  (d == 1)%Q →
  (0 <= u)%Q → (u < 1)%Q →
  transition_model corpus page d = Ok dist →
  Random.choices1 u (Py.keys dist) (Py.values dist) = Ok next →
  next ∈ links.
Proof.
  intros Hp Hne Hd Hu0 Hu1 Hdist Hdraw.
  destruct (draw_from_table dist u next) as (w & Hw & Hpos);
    [| done | done | done |].
  { apply (transition_model_nonneg corpus page d dist); [| |done]; rewrite Hd; lra. }
  rewrite (transition_model_eq _ _ _ _ Hp) in Hdist. injection Hdist as <-.
  rewrite lookup_table_of in Hw.
  destruct (corpus !! next); [|done]. injection Hw as <-.
  rewrite decide_False in Hpos.
  2:{ intros Hz. by apply size_empty_iff, leibniz_equiv in Hz. }
  destruct (decide (next ∈ links)) as [Hin | Hnin]; [done |].
  exfalso. rewrite Hd in Hpos.
  assert (Hzero : ((1 - 1) / inject_Z (Py.len corpus) == 0)%Q)
    by (unfold Qdiv; ring).
  rewrite Hzero in Hpos. lra.
Qed.

Lemma sampling_follows_links_witness :
  ∃ (dist : gmap string Q) (next : string),
    transition_model corpus_example "A" 1 = Ok dist ∧
    Random.choices1 (1 # 2) (Py.keys dist) (Py.values dist) = Ok next ∧
    next ∈ ({["B"; "C"]} : gset string).
Proof.
  eexists. eexists. split; [vm_compute; reflexivity |].
  split; [vm_compute; reflexivity |].
  eapply (sampling_follows_links corpus_example "A" {["B"; "C"]} 1 (1 # 2)).
  - reflexivity.
  - apply (bool_decide_unpack _). vm_compute. exact I.
  - reflexivity.
  - by vm_compute.
  - reflexivity.
  - vm_compute. reflexivity.
  - vm_compute. reflexivity.
Defined.

(** ** [main]: the command from its arguments to what it prints *)

Lemma keys_perm_dom {V W : Type} (d1 : gmap string V) (d2 : gmap string W) :
  dom d1 = dom d2 → Py.keys d1 ≡ₚ Py.keys d2.
Proof.
  intros Hdom. apply NoDup_Permutation; [apply keys_NoDup.. |].
  intros k. by rewrite !elem_of_keys, <- !elem_of_dom, Hdom.
Qed.

(** [sorted] depends on the keys only. *)
Lemma sorted_dom {V W : Type} (d1 : gmap string V) (d2 : gmap string W) :
  dom d1 = dom d2 → sorted d1 = sorted d2.
Proof.
  intros Hdom. unfold sorted.
  apply (Sorted_unique String.le); [apply Sorted_merge_sort, _.. |].
  rewrite !merge_sort_Permutation. by apply keys_perm_dom.
Qed.

Lemma elem_of_sorted {V : Type} (d : gmap string V) (k : string) :
  k ∈ sorted d ↔ is_Some (d !! k).
Proof. unfold sorted. by rewrite merge_sort_Permutation, elem_of_keys. Qed.

Section MainProperties.

Variable findall_href : string → list string.
Variable listdir : string → list (string * string).
Variable format_4f : Q → string.

(** The printing loop never raises on pages of the table. *)
Lemma print_ranks_ok (pages : list string) (ranks : gmap string Q)
    (out : list string) :
  (∀ page, page ∈ pages → is_Some (ranks !! page)) →
  print_ranks format_4f pages ranks out =
  (out ++ (rank_line format_4f ranks <$> pages), None).
Proof.
  revert out. induction pages as [|page pages IH]; intros out Hpages.
  - simpl. by rewrite app_nil_r.
  - destruct (Hpages page) as [rank Hrank]; [left |].
    cbn [print_ranks]. rewrite (getitem_Some _ _ _ Hrank).
    rewrite IH by (intros p Hp; apply Hpages; by right).
    rewrite <- app_assoc. cbn [fmap list_fmap app].
    unfold rank_line at 2. by rewrite (rank_of_Some _ _ _ Hrank).
Qed.

Lemma print_ranks_sorted (ranks : gmap string Q) (out : list string) :
  print_ranks format_4f (sorted ranks) ranks out =
  (out ++ (rank_line format_4f ranks <$> sorted ranks), None).
Proof. apply print_ranks_ok. intros page. by rewrite elem_of_sorted. Qed.

Lemma normalize_dom (page_ranks result : gmap string Q) :
  normalize page_ranks = Ok result → dom result = dom page_ranks.
Proof.
  intros Hnorm.
  destruct (Qeq_dec (Py.sum (Py.values page_ranks)) 0) as [Hzero | Hnz].
  - destruct (decide (size page_ranks = 0%nat)) as [Hz | Hsize].
    + apply map_size_empty_iff in Hz. subst page_ranks.
      unfold normalize in Hnorm. rewrite map_to_list_empty in Hnorm.
      by injection Hnorm as <-.
    + rewrite normalize_zero in Hnorm; [done | lia | done].
  - rewrite normalize_ok in Hnorm by done. injection Hnorm as <-.
    by rewrite dom_fmap_L.
Qed.

Lemma DAMPING_range : (0 < DAMPING)%Q ∧ (DAMPING < 1)%Q.
Proof. by split. Qed.

(** With the damping of the program 47 rounds are enough. *)
Lemma iterate_pagerank_DAMPING (corpus : gmap string (gset string)) (fuel : nat) :
  (1 ≤ size corpus)%nat →
  (47 ≤ fuel)%nat →
  ∃ result : gmap string Q,
    iterate_pagerank fuel corpus DAMPING = Some (Ok result) ∧
    dom result = dom corpus.
Proof.
  intros HN Hfuel. destruct DAMPING_range as [Hd0 Hd1].
  destruct (iterate_pagerank_returns_from corpus DAMPING 46 HN Hd0 Hd1)
    as [result Hresult].
  { eapply Qle_trans; [apply difference_after_bound; [done | lra] |].
    by vm_compute. }
  exists result. split; [apply Hresult; lia |].
  destruct (iterate_pagerank_stops _ _ _ _ (Hresult 47%nat ltac:(lia)))
    as (k & _ & _ & _ & Hnorm).
  rewrite (normalize_dom _ _ Hnorm). apply dom_ranks_after.
Qed.

Lemma sample_pagerank_empty (randbelow : nat) (random : Z → Q) (d : Q) (n : Z) :
  sample_pagerank randbelow random ∅ d n = Raise IndexError.
Proof.
  unfold sample_pagerank. rewrite keys_empty. cbn [Py.for_in mbind result_bind].
  unfold Random.choice. by rewrite item_ge by (simpl; lia).
Qed.

Lemma crawl_no_html (directory : list (string * string)) :
  (∀ filename, filename ∈ directory.*1 → ¬ ∃ stem, filename = stem +:+ ".html") →
  crawl findall_href directory = Ok ∅.
Proof.
  intros Hnone. rewrite crawl_closed_form. cbv zeta.
  assert (Hempty : foldl (extract_step findall_href) ∅ directory = ∅).
  { apply dom_empty_inv_L. apply set_eq. intros filename.
    rewrite extract_step_dom, dom_empty_L, endswith_spec.
    split; [|set_solver]. intros [? | [Hin Hhtml]]; [done |].
    by destruct (Hnone filename Hin). }
  by rewrite Hempty, fmap_empty.
Qed.

(** X17: called with one argument that names a directory without any
    [.html] file, [main] prints nothing and ends with the uncaught
    [IndexError] of [random.choice]: the corpus is empty and the
    sampler is the first to use it. *)
Theorem main_no_pages (argv0 directory : string) (randbelow : nat)
    (random : Z → Q) (fuel : nat) :
  (∀ filename, filename ∈ (listdir directory).*1 →
     ¬ ∃ stem, filename = stem +:+ ".html") →
  main findall_href listdir format_4f [argv0; directory] randbelow random fuel
  = Some (Outcome [] (Uncaught IndexError)).
Proof.
  intros Hnone. unfold main.
  by rewrite (crawl_no_html _ Hnone), sample_pagerank_empty.
Qed.

(** X18: called with one argument that names a directory with at
    least one [.html] file, [main] raises nothing: it prints the title
    of the sampling, one line per page in ascending order of the page
    names, the title of the iteration and again one line per page in
    the same order; the loop of [iterate_pagerank] is over within 47
    rounds. *)
Theorem main_prints (argv0 directory : string) (randbelow : nat)
    (random : Z → Q) (fuel : nat) (corpus : gmap string (gset string)) :
  crawl findall_href (listdir directory) = Ok corpus →
  (randbelow < size corpus)%nat →
  (47 ≤ fuel)%nat →
  ∃ sampled iterated : gmap string Q,
    sample_pagerank randbelow random corpus DAMPING SAMPLES = Ok sampled ∧
    iterate_pagerank fuel corpus DAMPING = Some (Ok iterated) ∧
    main findall_href listdir format_4f [argv0; directory] randbelow random fuel
    = Some (Outcome
              ("PageRank Results from Sampling (n = 10000)"
                 :: (rank_line format_4f sampled <$> sorted corpus)
                 ++ "PageRank Results from Iteration"
                 :: (rank_line format_4f iterated <$> sorted corpus))
              Finished) ∧
    Sorted String.le (sorted corpus) ∧
    sorted corpus ≡ₚ Py.keys corpus.
Proof.
  intros Hcrawl Hstart Hfuel. destruct DAMPING_range as [Hd0 Hd1].
  destruct (sample_pagerank_positive randbelow random corpus DAMPING SAMPLES)
    as (_ & sampled & Hsample & Hdom1 & _); [| done | done |].
  { intros page dist. by apply transition_model_total_positive. }
  destruct (iterate_pagerank_DAMPING corpus fuel) as (iterated & Hiter & Hdom2);
    [lia | done |].
  exists sampled, iterated. split; [done |]. split; [done |].
  split; [|split; [apply Sorted_merge_sort, _ | apply merge_sort_Permutation]].
  unfold main. rewrite Hcrawl, Hsample.
  rewrite print_ranks_sorted, Hiter, print_ranks_sorted.
  rewrite (sorted_dom sampled corpus Hdom1), (sorted_dom iterated corpus Hdom2).
  f_equal. f_equal. cbn [app]. by rewrite <- app_assoc.
Qed.

(** Any other number of arguments ends the run with the usage message,
    before the directory is read. *)
Lemma main_usage (argv : list string) (randbelow : nat) (random : Z → Q)
    (fuel : nat) :
  length argv ≠ 2%nat →
  main findall_href listdir format_4f argv randbelow random fuel
  = Some (Outcome [] (SystemExit "Usage: python pagerank.py corpus")).
Proof. intros Hlen. by destruct argv as [|? [|? [|? ?]]]. Qed.

End MainProperties.

Lemma main_no_pages_witness :
  main findall_words (λ _, [("notes.txt", "a")]) (λ _, "0.0000")
    ["pagerank.py"; "corpus0"] 0 (λ _, 0%Q) 1
  = Some (Outcome [] (Uncaught IndexError)).
Proof.
  apply main_no_pages.
  intros filename [-> | Hin%elem_of_nil]%elem_of_cons [stem Hstem]; [|done].
  apply (f_equal (λ s, Py.endswith s ".html")) in Hstem.
  rewrite (proj2 (endswith_spec (stem +:+ ".html") ".html")) in Hstem by eauto.
  by vm_compute in Hstem.
Defined.

Lemma main_prints_witness :
  ∃ sampled iterated : gmap string Q,
    sample_pagerank 0 (λ i, (inject_Z i / 10007)%Q)
      (<["1.html" := {["2.html"]}]> (<["2.html" := ∅]> ∅)) DAMPING SAMPLES
      = Ok sampled ∧
    iterate_pagerank 47 (<["1.html" := {["2.html"]}]> (<["2.html" := ∅]> ∅)) DAMPING
      = Some (Ok iterated) ∧
    main findall_words (λ _, [("1.html", "a"); ("2.html", ""); ("3.txt", "a")])
      (λ _, "0.0000") ["pagerank.py"; "corpus0"] 0
      (λ i, (inject_Z i / 10007)%Q) 47
    = Some (Outcome
              ("PageRank Results from Sampling (n = 10000)"
                 :: (rank_line (λ _, "0.0000") sampled
                       <$> sorted (<["1.html" := {["2.html"]}]>
                                     (<["2.html" := ∅]> (∅ : gmap string (gset string)))))
                 ++ "PageRank Results from Iteration"
                 :: (rank_line (λ _, "0.0000") iterated
                       <$> sorted (<["1.html" := {["2.html"]}]>
                                     (<["2.html" := ∅]> (∅ : gmap string (gset string))))))
              Finished) ∧
    Sorted String.le (sorted (<["1.html" := {["2.html"]}]>
                                (<["2.html" := ∅]> (∅ : gmap string (gset string))))) ∧
    sorted (<["1.html" := {["2.html"]}]> (<["2.html" := ∅]> (∅ : gmap string (gset string))))
      ≡ₚ Py.keys (<["1.html" := {["2.html"]}]> (<["2.html" := ∅]> (∅ : gmap string (gset string)))).
Proof.
  apply main_prints.
  - vm_compute. reflexivity.
  - vm_compute. lia.
  - lia.
Defined.

(** ** A round of [iterate_pagerank] against [transition_model] *)

Lemma transition_prob_eq (corpus : gmap string (gset string)) (d : Q)
    (q p : string) (links : gset string) :
  corpus !! q = Some links →
  is_Some (corpus !! p) →
  transition_prob corpus d q p =
  if decide (size links = 0%nat) then (1 / inject_Z (Py.len corpus))%Q
  else if decide (p ∈ links)
       then ((1 - d) / inject_Z (Py.len corpus)
             + d / inject_Z (Py.len_set links))%Q
       else ((1 - d) / inject_Z (Py.len corpus))%Q.
Proof.
  intros Hq [lp Hp]. unfold transition_prob.
  rewrite (transition_model_eq _ _ _ _ Hq).
  apply rank_of_Some. by rewrite lookup_table_of, Hp.
Qed.

(** X19: a round of [iterate_pagerank] on ranks that add up to 1
    gives a page the probability of reaching it in one step of
    [transition_model], less [d/N] times the rank that dangling pages
    hold: the iteration does not spread the rank of a dangling page,
    the transition model spreads it over all pages. *)
Theorem update_round_transition (corpus : gmap string (gset string)) (d : Q)
    (page_ranks new_page_ranks : gmap string Q) (difference : Q)
    (p : string) (v : Q) :
  dom page_ranks = dom corpus →
  (Py.sum (Py.values page_ranks) == 1)%Q →
  update_round corpus d (Py.len corpus) page_ranks
    = Ok (new_page_ranks, difference) →
  new_page_ranks !! p = Some v →
  (v == Qsum ((λ q, rank_of page_ranks q * transition_prob corpus d q p)
                <$> Py.keys corpus)
        - d / inject_Z (Z.of_nat (size corpus)) * dangling_mass corpus page_ranks)%Q.
Proof.
  intros Hdom Htotal. rewrite update_round_eq by done. intros [= <- _].
  unfold next_ranks. rewrite lookup_table_of.
  destruct (corpus !! p) as [lp|] eqn:Hp; [|done]. intros [= <-].
  assert (HN : ¬ (inject_Z (Py.len corpus) == 0)%Q).
  { apply inject_Z_nonzero. eapply len_pos. eauto. }
  rewrite (total_over_keys corpus page_ranks Hdom) in Htotal.
  unfold new_rank. rewrite sum_prob_share.
  rewrite (Qsum_ext (λ q, rank_of page_ranks q * transition_prob corpus d q p)%Q
    (λ q, (rank_of page_ranks q * ((1 - d) / inject_Z (Py.len corpus))
           + d * share corpus (rank_of page_ranks) p q)
          + (if decide (links_of corpus q = ∅)
             then rank_of page_ranks q * (d / inject_Z (Py.len corpus))
             else 0))%Q).
  2:{ intros q [links Hq]%elem_of_keys.
      rewrite (transition_prob_eq corpus d q p links Hq) by eauto.
      unfold share. rewrite (links_of_Some _ _ _ Hq).
      destruct (decide (size links = 0%nat)) as [Hz | Hnz].
      - apply size_empty_iff, leibniz_equiv in Hz. subst links.
        rewrite decide_False by set_solver. rewrite decide_True by done.
        by field.
      - rewrite (decide_False (P := links = ∅)).
        2:{ intros ->. by rewrite size_empty in Hnz. }
        assert (¬ (inject_Z (Py.len_set links) == 0)%Q)
          by (apply inject_Z_nonzero; unfold Py.len_set; lia).
        destruct (decide (p ∈ links)); by field. }
  rewrite (Qsum_plus
    (λ q, (rank_of page_ranks q * ((1 - d) / inject_Z (Py.len corpus))
           + d * share corpus (rank_of page_ranks) p q)%Q)).
  rewrite (Qsum_plus
    (λ q, (rank_of page_ranks q * ((1 - d) / inject_Z (Py.len corpus)))%Q)
    (λ q, (d * share corpus (rank_of page_ranks) p q)%Q)).
  rewrite (Qsum_mult d).
  rewrite <- (Qsum_filter (λ q, links_of corpus q = ∅)
    (λ q, (rank_of page_ranks q * (d / inject_Z (Py.len corpus)))%Q)).
  assert (H1 : (Qsum ((λ q, rank_of page_ranks q
                            * ((1 - d) / inject_Z (Py.len corpus))) <$> Py.keys corpus)
                == (1 - d) / inject_Z (Py.len corpus))%Q).
  { rewrite (Qsum_ext _ (λ q, ((1 - d) / inject_Z (Py.len corpus)
                               * rank_of page_ranks q)%Q))
      by (intros; ring).
    rewrite Qsum_mult, Htotal. ring. }
  assert (H2 : (Qsum ((λ q, rank_of page_ranks q * (d / inject_Z (Py.len corpus)))
                        <$> filter (λ q, links_of corpus q = ∅) (Py.keys corpus))
                == d / inject_Z (Py.len corpus) * dangling_mass corpus page_ranks)%Q).
  { unfold dangling_mass.
    rewrite (Qsum_ext _ (λ q, (d / inject_Z (Py.len corpus)
                               * rank_of page_ranks q)%Q))
      by (intros; ring).
    by rewrite Qsum_mult. }
  rewrite H1, H2.
  change (Qsum (share corpus (rank_of page_ranks) p <$> Py.keys corpus))
    with (Qsum ((λ q, share corpus (rank_of page_ranks) p q) <$> Py.keys corpus)).
  unfold Py.len, Qdiv. ring.
Qed.

Lemma update_round_transition_witness :
  ∃ (page_ranks new_page_ranks : gmap string Q) (difference v : Q),
    initial_ranks corpus_chain (Py.len corpus_chain) = Ok page_ranks ∧
    update_round corpus_chain (17 # 20) (Py.len corpus_chain) page_ranks
      = Ok (new_page_ranks, difference) ∧
    new_page_ranks !! "B" = Some v ∧
    (v == Qsum ((λ q, rank_of page_ranks q
                      * transition_prob corpus_chain (17 # 20) q "B")
                  <$> Py.keys corpus_chain)
          - (17 # 20) / inject_Z (Z.of_nat (size corpus_chain))
            * dangling_mass corpus_chain page_ranks)%Q.
Proof.
  eexists. eexists. eexists. eexists.
  split; [vm_compute; reflexivity |].
  split; [vm_compute; reflexivity |].
  split; [vm_compute; reflexivity |].
  eapply (update_round_transition corpus_chain (17 # 20)).
  - vm_compute. reflexivity.
  - by vm_compute.
  - vm_compute. reflexivity.
  - vm_compute. reflexivity.
Defined.

(** ** [iterate_pagerank]: what it can raise, and balanced graphs *)

Lemma normalize_raises (page_ranks : gmap string Q) (e : exn) :
  normalize page_ranks = Raise e →
  e = ZeroDivisionError ∧
  (Py.sum (Py.values page_ranks) == 0)%Q ∧
  (1 ≤ size page_ranks)%nat.
Proof.
  intros Hnorm.
  destruct (Qeq_dec (Py.sum (Py.values page_ranks)) 0) as [Hzero | Hnz].
  - destruct (decide (size page_ranks = 0%nat)) as [Hz | Hsize].
    + apply map_size_empty_iff in Hz. subst page_ranks.
      unfold normalize in Hnorm. by rewrite map_to_list_empty in Hnorm.
    + rewrite normalize_zero in Hnorm; [|lia | done].
      injection Hnorm as <-. split; [done |]. split; [done | lia].
  - by rewrite normalize_ok in Hnorm.
Qed.

(** X20: the only exception that [iterate_pagerank] can raise is the
    [ZeroDivisionError] of the final normalization, and with a damping
    factor in (0, 1) it raises nothing, whatever the corpus: its
    lookups and the divisions of its rounds cannot fail. *)
Theorem iterate_pagerank_raises (fuel : nat)
    (corpus : gmap string (gset string)) (d : Q) (e : exn) :
  iterate_pagerank fuel corpus d = Some (Raise e) →
  e = ZeroDivisionError ∧ ¬ ((0 < d)%Q ∧ (d < 1)%Q).
Proof.
  unfold iterate_pagerank.
  destruct (iterate_until_convergence fuel corpus d) as [[ranks | e'] |] eqn:Hrun;
    [| |done].
  - intros [= Hnorm].
    destruct (normalize_raises _ _ Hnorm) as (-> & Hzero & Hsize).
    split; [done |]. intros [Hd0 Hd1].
    destruct (iterate_until_convergence_stops _ _ _ _ Hrun)
      as (k & _ & [= ->] & _ & _).
    pose proof (ranks_after_positive corpus d k Hd0 Hd1) as Hpos.
    destruct (keys_nonempty (ranks_after corpus d k) 0) as (page & ks & Hks);
      [lia |].
    assert (Hpage : is_Some (ranks_after corpus d k !! page))
      by (apply elem_of_keys; rewrite Hks; left).
    destruct (total_positive _ page Hpos Hpage) as [Htotal _]. lra.
  - by destruct (iterate_until_convergence_stops _ _ _ _ Hrun)
      as (k & _ & ? & _).
Qed.

Lemma iterate_pagerank_raises_witness :
  ZeroDivisionError = ZeroDivisionError ∧ ¬ ((0 < 1)%Q ∧ (1 < 1)%Q).
Proof.
  apply (iterate_pagerank_raises 2 corpus_isolated 1 ZeroDivisionError).
  vm_compute. reflexivity.
Defined.

(** X21: on a corpus in which the shares [1/|corpus[q]|] of the pages
    [q] that link to a page add up to 1 for every page (a cycle, for
    instance), [iterate_pagerank] stops in its first round and gives
    every page the rank [1/N], for every damping factor in [0, 1]. *)
Theorem iterate_pagerank_balanced (fuel : nat)
    (corpus : gmap string (gset string)) (d : Q) :
  (1 ≤ size corpus)%nat →
  (0 <= d)%Q → (d <= 1)%Q →
  (∀ p, is_Some (corpus !! p) →
     (Qsum ((λ q, 1 / inject_Z (Z.of_nat (size (links_of corpus q))))
              <$> filter (λ q, p ∈ links_of corpus q) (Py.keys corpus)) == 1)%Q) →
  (1 ≤ fuel)%nat →
  ∃ result : gmap string Q,
    iterate_pagerank fuel corpus d = Some (Ok result) ∧
    dom result = dom corpus ∧
    ∀ page v,
      result !! page = Some v →
      (v == 1 / inject_Z (Z.of_nat (size corpus)))%Q.
Proof.
  intros HN _ _ Hbal Hfuel.
  set (r0 := table_of (λ _, (1 / inject_Z (Py.len corpus))%Q) corpus).
  assert (HNnz : ¬ (inject_Z (Py.len corpus) == 0)%Q)
    by (apply inject_Z_nonzero; unfold Py.len; lia).
  assert (Hrank : ∀ q, is_Some (corpus !! q) →
            rank_of r0 q = (1 / inject_Z (Py.len corpus))%Q).
  { intros q [lq Hq]. apply rank_of_Some. unfold r0.
    by rewrite lookup_table_of, Hq. }
  assert (Hnew : ∀ p, is_Some (corpus !! p) →
            (new_rank corpus d r0 p == 1 / inject_Z (Py.len corpus))%Q).
  { intros p Hp. rewrite new_rank_formula. unfold round_formula.
    rewrite (Qsum_ext _
      (λ q, (1 / inject_Z (Py.len corpus)
             * (1 / inject_Z (Z.of_nat (size (links_of corpus q)))))%Q)).
    2:{ intros q [Hq _]%list_elem_of_filter.
        assert (Hsome : is_Some (corpus !! q)).
        { unfold links_of in Hq. destruct (corpus !! q); [eauto | set_solver]. }
        rewrite (Hrank q Hsome). unfold Qdiv. ring. }
    rewrite Qsum_mult, (Hbal p Hp). unfold Py.len in *. by field. }
  assert (HD0 : (difference_of corpus d r0 <= threshold)%Q).
  { rewrite difference_of_Qsum.
    rewrite (Qsum_ext _ (λ _, 0%Q)).
    2:{ intros p Hp%elem_of_keys. rewrite (Hnew p Hp), (Hrank p Hp).
        assert (Heq : (1 / inject_Z (Py.len corpus) - 1 / inject_Z (Py.len corpus)
                       == 0)%Q) by ring.
        rewrite Heq. reflexivity. }
    rewrite Qsum_zero. by vm_compute. }
  pose proof (total_initial corpus HN) as Htotal. fold r0 in Htotal.
  destruct fuel as [|fuel]; [lia |].
  eexists. split; [|split].
  - unfold iterate_pagerank, iterate_until_convergence.
    rewrite initial_ranks_eq. fold r0.
    rewrite iterate_loop_unfold by apply dom_table_of.
    destruct (Qlt_le_dec threshold (difference_of corpus d r0)) as [Hlt | _];
      [lra |].
    rewrite normalize_ok by (rewrite Htotal; lra). done.
  - rewrite dom_fmap_L. apply dom_table_of.
  - intros page v. rewrite lookup_fmap.
    assert (Hlook : r0 !! page
                    = (λ _, (1 / inject_Z (Py.len corpus))%Q) <$> corpus !! page)
      by exact (lookup_table_of (λ _, (1 / inject_Z (Py.len corpus))%Q) corpus page).
    rewrite Hlook.
    destruct (corpus !! page); [|done]. intros [= <-].
    rewrite Htotal. unfold Py.len. by field.
Qed.

Lemma iterate_pagerank_balanced_witness :
  ∃ result : gmap string Q,
    iterate_pagerank 1 corpus_cycle (17 # 20) = Some (Ok result) ∧
    dom result = dom corpus_cycle ∧
    ∀ page v,
      result !! page = Some v →
      (v == 1 / inject_Z (Z.of_nat (size corpus_cycle)))%Q.
Proof.
  apply iterate_pagerank_balanced.
  - vm_compute. lia.
  - unfold Qle. simpl. lia.
  - unfold Qle. simpl. lia.
  - intros p Hp. apply elem_of_dom in Hp.
    assert (Hcases : p = "A" ∨ p = "B").
    { unfold corpus_cycle in Hp.
      rewrite !dom_insert_L, dom_empty_L in Hp. set_solver. }
    destruct Hcases as [-> | ->]; by vm_compute.
  - lia.
Defined.
